(** * Merry-Christmas: the phase controller, the ripple force field and the
    hand-gesture classifier

    A shallow embedding of the parts of the particle tree that carry its
    logic:

    - [Geometry]    utils/geometry.js: [calculateDistance], [calculateRippleForce];
    - [HandGesture] utils/handGesture.js: [isFingerOpen], [detectPalmSwipe],
                    [detectGesture], [detectHands], [stopCamera];
    - [App]         store.js and the main module: the store, the particle
                    buffers, [triggerBlooming], [triggerCollapsing],
                    [rotateCarousel], [applyRippleEffect], [animate], and the
                    two services they hand their work to (gsap's tweens and
                    [setTimeout]);
    - [Boot]        the main module from its evaluation on: the keys that
                    reach [triggerBlooming] while [init()] is still running;
    - [Float64]     [calculateRippleForce] once more, over IEEE binary64;
    - [Distributions] utils/geometry.js, the rest: the point distributions,
                    [createStarShape], [photoRingPosition],
                    [generateExplosionPosition], [generateTextParticles];
    - [Scenery]     the main module: [createChristmasTree], the size of the
                    ornaments, [createSnowflakes] and the snow of [animate];
    - [Camera]      utils/handGesture.js: [startCamera], [stopCamera],
                    [toggleCamera], [toggleGestureDetection] around the
                    detection loop;
    - [Controls]    the main module: [handleGesture], [handleSwipe], the two
                    [keydown] listeners, [onDoubleClick], [onWheel], [onClick],
                    [focusOnPhoto].

    JavaScript numbers are idealised.  Coordinates, angles and forces of the
    3D scene are real numbers ([R]: the code takes square roots and uses
    [Math.PI]), so rounding, overflow and NaN are out of sight there; [Float64]
    is the place where they are in sight.  Hand landmarks are rationals ([Q]:
    the classifier only adds, divides by a constant and compares, so the model
    runs).  Clock readings are integers ([Z]), in milliseconds.

    What the program takes from outside is an argument of its model: the
    values of [Math.random()] (one by one, or as the sequence [rand] of the
    calls in their order), the pixels of the text canvas, the predictions of
    the hand model, the outcome of a promise, the keys pressed.  A function
    that can throw returns an [option]. *)

From Stdlib Require Import Reals Lra Lia ZArith QArith Qabs List Bool Sorted.
From Stdlib Require Floats.
From Stdlib Require Ascii String.
Import ListNotations.

Set Warnings "-abstract-large-number,-inexact-float".

(* ================================================================== *)
(** * Part I: the program *)
(* ================================================================== *)

(** ** utils/geometry.js *)
Module Geometry.
Local Open Scope R_scope.

(** THREE.Vector3, as far as the program uses it: three coordinates. *)
Record Vector3 : Type := mkVector3 { vx : R; vy : R; vz : R }.

Definition vzero : Vector3 := mkVector3 0 0 0.
Definition vsub (a b : Vector3) : Vector3 :=
  mkVector3 (vx a - vx b) (vy a - vy b) (vz a - vz b).
Definition vscale (k : R) (a : Vector3) : Vector3 :=
  mkVector3 (vx a * k) (vy a * k) (vz a * k).
Definition vlength (a : Vector3) : R :=
  sqrt (vx a * vx a + vy a * vy a + vz a * vz a).

(** [export function calculateDistance(x1, y1, z1, x2, y2, z2)] *)
Definition calculateDistance (x1 y1 z1 x2 y2 z2 : R) : R :=
  let dx := x1 - x2 in
  let dy := y1 - y2 in
  let dz := z1 - z2 in
  sqrt (dx * dx + dy * dy + dz * dz).

(** [export function calculateRippleForce(position, mousePos,
     maxDistance = 2, forceMultiplier = 0.02)] *)
Definition calculateRippleForce
    (position mousePos : Vector3) (maxDistance forceMultiplier : R) : Vector3 :=
  let dx := vx position - vx mousePos in
  let dy := vy position - vy mousePos in
  let dz := vz position - vz mousePos in
  let dist := sqrt (dx * dx + dy * dy + dz * dz) in
  if Rlt_dec dist maxDistance then
    let force := (maxDistance - dist) * forceMultiplier in
    mkVector3 (dx * force) (dy * force) (dz * force)
  else
    mkVector3 0 0 0.

(** The distance between a point and the interaction point, with the
    program's own [calculateDistance]. *)
Definition distance (p c : Vector3) : R :=
  calculateDistance (vx p) (vy p) (vz p) (vx c) (vy c) (vz c).

(** [v] pushes [p] away from [c]: it is a non-negative multiple of [p - c]. *)
Definition pushes_away (v p c : Vector3) : Prop :=
  exists k : R, 0 <= k /\ v = vscale k (vsub p c).

(** [v] pulls [p] toward [c]: it is a negative multiple of a non-zero [p - c]. *)
Definition pulls_toward (v p c : Vector3) : Prop :=
  vsub p c <> vzero /\ exists k : R, k < 0 /\ v = vscale k (vsub p c).

End Geometry.

(** ** The ripple force over IEEE binary64 *)
Module Float64.
Import Stdlib.Floats.Floats.
Local Open Scope float_scope.

Record Vector3 : Type := mkVector3 { vx : float; vy : float; vz : float }.

Definition calculateRippleForce
    (position mousePos : Vector3) (maxDistance forceMultiplier : float) : Vector3 :=
  let dx := vx position - vx mousePos in
  let dy := vy position - vy mousePos in
  let dz := vz position - vz mousePos in
  let dist := PrimFloat.sqrt (dx * dx + dy * dy + dz * dz) in
  if dist <? maxDistance then
    let force := (maxDistance - dist) * forceMultiplier in
    mkVector3 (dx * force) (dy * force) (dz * force)
  else
    mkVector3 0 0 0.

Definition has_nan (v : Vector3) : bool :=
  is_nan (vx v) || is_nan (vy v) || is_nan (vz v).

(** The call of [applyRippleEffect] for the particles,
    [calculateRippleForce(currentPos, mousePos, 1, 0.015)], at a sample point. *)
Definition samplePoint : Vector3 := mkVector3 1.5 2 (-3).
Definition particleMaxDistance : float := 1.
Definition particleForceMultiplier : float := 0.015.

End Float64.

(** ** utils/handGesture.js *)
Module HandGesture.
Local Open Scope Z_scope.

(** Code that throws (a [TypeError] on [landmarks[i][k]] when [landmarks[i]]
    is [undefined]) returns [None]. *)
Definition bind {A B : Type} (m : option A) (f : A -> option B) : option B :=
  match m with Some a => f a | None => None end.
Notation "x <- c1 ;; c2" := (bind c1 (fun x => c2))
  (at level 61, c1 at next level, right associativity).

Definition GESTURE_DETECTION_INTERVAL : Z := 100.
Definition swipeThreshold : Q := 50.
Definition palmSwipeTimeout : Z := 300.

(** [HAND_LANDMARKS] *)
Definition WRIST : nat := 0.
Definition THUMB_CMC : nat := 1.
Definition THUMB_MCP : nat := 2.
Definition THUMB_IP : nat := 3.
Definition THUMB_TIP : nat := 4.
Definition INDEX_FINGER_MCP : nat := 5.
Definition INDEX_FINGER_PIP : nat := 6.
Definition INDEX_FINGER_DIP : nat := 7.
Definition INDEX_FINGER_TIP : nat := 8.
Definition MIDDLE_FINGER_MCP : nat := 9.
Definition MIDDLE_FINGER_PIP : nat := 10.
Definition MIDDLE_FINGER_DIP : nat := 11.
Definition MIDDLE_FINGER_TIP : nat := 12.
Definition RING_FINGER_MCP : nat := 13.
Definition RING_FINGER_PIP : nat := 14.
Definition RING_FINGER_DIP : nat := 15.
Definition RING_FINGER_TIP : nat := 16.
Definition PINKY_MCP : nat := 17.
Definition PINKY_PIP : nat := 18.
Definition PINKY_DIP : nat := 19.
Definition PINKY_TIP : nat := 20.

(** [HAND_CONNECTIONS] *)
Definition HAND_CONNECTIONS : list (nat * nat) :=
  [ (0, 1); (1, 2); (2, 3); (3, 4);
    (0, 5); (5, 6); (6, 7); (7, 8);
    (0, 9); (9, 10); (10, 11); (11, 12);
    (0, 13); (13, 14); (14, 15); (15, 16);
    (0, 17); (17, 18); (18, 19); (19, 20) ]%nat.

(** The gesture labels (the strings ['none'], ['fist'], ...). *)
Inductive gesture : Type :=
  | none | fist | open_palm | thumbs_up | victory | point.

Definition gesture_eqb (a b : gesture) : bool :=
  match a, b with
  | none, none | fist, fist | open_palm, open_palm
  | thumbs_up, thumbs_up | victory, victory | point, point => true
  | _, _ => false
  end.

(** The swipe directions (['left'], ['right']). *)
Inductive direction : Type := swipe_left | swipe_right.

(** One landmark of the handpose model, [[x, y, z]]. *)
Record landmark : Type := mkLandmark { lx : Q; ly : Q; lz : Q }.

(** One prediction of [estimateHands]: [hand.landmarks]. *)
Record prediction : Type := mkPrediction { landmarks : list landmark }.

(** [{ x: palmX, y: palmY }] *)
Record palmPosition : Type := mkPalm { palm_x : Q; palm_y : Q }.

(** What [document.dispatchEvent] receives: the event's name and its
    [detail].  [Date.now()] is read once per tick in the model (the program
    reads it again when it builds the event, within the same tick). *)
Inductive event : Type :=
  | GestureEvent (g : gesture) (timestamp : Z)
  | SwipeEvent (d : direction) (timestamp : Z).

(** The module's variables. *)
Record state : Type := mkState {
  handposeModel : bool;          (* the model is loaded (not [null]) *)
  lastGestureTime : Z;
  currentGesture : gesture;
  previousGesture : gesture;
  isDetecting : bool;
  lastPalmPosition : option palmPosition;
  lastSwipeTime : Z;
  isCameraActive : bool
}.

(** The values the module starts with. *)
Definition initial : state :=
  mkState false 0 none none true None 0 false.

Definition set_handposeModel (b : bool) (s : state) : state :=
  mkState b (lastGestureTime s) (currentGesture s) (previousGesture s)
          (isDetecting s) (lastPalmPosition s) (lastSwipeTime s) (isCameraActive s).
Definition set_lastGestureTime (t : Z) (s : state) : state :=
  mkState (handposeModel s) t (currentGesture s) (previousGesture s)
          (isDetecting s) (lastPalmPosition s) (lastSwipeTime s) (isCameraActive s).
Definition set_currentGesture (g : gesture) (s : state) : state :=
  mkState (handposeModel s) (lastGestureTime s) g (previousGesture s)
          (isDetecting s) (lastPalmPosition s) (lastSwipeTime s) (isCameraActive s).
Definition set_previousGesture (g : gesture) (s : state) : state :=
  mkState (handposeModel s) (lastGestureTime s) (currentGesture s) g
          (isDetecting s) (lastPalmPosition s) (lastSwipeTime s) (isCameraActive s).
Definition set_isDetecting (b : bool) (s : state) : state :=
  mkState (handposeModel s) (lastGestureTime s) (currentGesture s) (previousGesture s)
          b (lastPalmPosition s) (lastSwipeTime s) (isCameraActive s).
Definition set_lastPalmPosition (p : option palmPosition) (s : state) : state :=
  mkState (handposeModel s) (lastGestureTime s) (currentGesture s) (previousGesture s)
          (isDetecting s) p (lastSwipeTime s) (isCameraActive s).
Definition set_lastSwipeTime (t : Z) (s : state) : state :=
  mkState (handposeModel s) (lastGestureTime s) (currentGesture s) (previousGesture s)
          (isDetecting s) (lastPalmPosition s) t (isCameraActive s).
Definition set_isCameraActive (b : bool) (s : state) : state :=
  mkState (handposeModel s) (lastGestureTime s) (currentGesture s) (previousGesture s)
          (isDetecting s) (lastPalmPosition s) (lastSwipeTime s) b.

(** [a < b] on numbers, as a boolean. *)
Definition Qltb (a b : Q) : bool := negb (Qle_bool b a).

(** [function isFingerOpen(landmarks, fingerIndices)] *)
Definition isFingerOpen (lms : list landmark) (fingerIndices : nat * nat * nat * nat)
  : option bool :=
  let '(mcp, pip, dip, tip) := fingerIndices in
  m <- nth_error lms mcp ;;
  t <- nth_error lms tip ;;
  let mcpY := ly m in
  let tipY := ly t in
  if Nat.eqb mcp THUMB_CMC then
    let mcpX := lx m in
    let tipX := lx t in
    Some (Qltb mcpX tipX)            (* tipX > mcpX *)
  else
    Some (Qltb tipY mcpY).           (* tipY < mcpY *)

(** [function triggerSwipeEvent(direction)] and
    [function triggerGestureEvent(gesture)]: the custom event that is
    dispatched (the text of the info element is not modelled). *)
Definition triggerSwipeEvent (d : direction) (now : Z) : list event :=
  [SwipeEvent d now].
Definition triggerGestureEvent (g : gesture) (now : Z) : list event :=
  [GestureEvent g now].

(** The [forEach] of [detectPalmSwipe]: [palmX += landmarks[idx][0];
    palmY += landmarks[idx][1]]. *)
Fixpoint sumPalm (lms : list landmark) (idxs : list nat) (acc : Q * Q)
  : option (Q * Q) :=
  match idxs with
  | [] => Some acc
  | idx :: rest =>
      l <- nth_error lms idx ;;
      sumPalm lms rest ((fst acc + lx l)%Q, (snd acc + ly l)%Q)
  end.

Definition palmLandmarks : list nat :=
  [WRIST; THUMB_CMC; INDEX_FINGER_MCP; MIDDLE_FINGER_MCP; RING_FINGER_MCP; PINKY_MCP].

(** The first half of [detectPalmSwipe]: [currentPalmPosition]. *)
Definition palmCenter (lms : list landmark) : option palmPosition :=
  sums <- sumPalm lms palmLandmarks (0%Q, 0%Q) ;;
  let n := inject_Z (Z.of_nat (length palmLandmarks)) in
  Some (mkPalm (fst sums / n)%Q (snd sums / n)%Q).

(** [function detectPalmSwipe(landmarks, now)] *)
Definition detectPalmSwipe (lms : list landmark) (now : Z) (s : state)
  : option (state * list event) :=
  currentPalmPosition <- palmCenter lms ;;
  (* Update last palm position *)
  let tracked := (set_lastPalmPosition (Some currentPalmPosition) s, []) in
  match lastPalmPosition s with
  | Some last =>
      if palmSwipeTimeout <? now - lastSwipeTime s then
        let deltaX := (palm_x currentPalmPosition - palm_x last)%Q in
        if Qltb swipeThreshold (Qabs deltaX) then
          let swipeDirection := if Qltb 0 deltaX then swipe_right else swipe_left in
          Some (set_lastPalmPosition None (set_lastSwipeTime now s),
                triggerSwipeEvent swipeDirection now)
        else Some tracked
      else Some tracked
  | None => Some tracked
  end.

(** [detectGesture], "Determine gesture based on finger states": the chain of
    [if]s over the five flags.  It gives the label, the state after the
    branch, and the swipe events the branch dispatched. *)
Definition determineGesture (thumb index middle ring pinky : bool)
    (lms : list landmark) (now : Z) (s : state)
  : option (gesture * state * list event) :=
  if negb thumb && negb index && negb middle && negb ring && negb pinky then
    Some (fist, set_lastPalmPosition None s, [])
  else if thumb && index && middle && ring && pinky then
    r <- detectPalmSwipe lms now s ;;
    Some (open_palm, fst r, snd r)
  else if thumb && negb index && negb middle && negb ring && negb pinky then
    Some (thumbs_up, set_lastPalmPosition None s, [])
  else if negb thumb && index && middle && negb ring && negb pinky then
    Some (victory, set_lastPalmPosition None s, [])
  else if negb thumb && index && negb middle && negb ring && negb pinky then
    Some (point, set_lastPalmPosition None s, [])
  else
    Some (none, set_lastPalmPosition None s, []).

(** [detectGesture], "Update current gesture" and "Trigger gesture event if
    gesture changed"; [dispatched] are the events of the tick so far. *)
Definition updateCurrentGesture (gesture : gesture) (now : Z) (s : state)
    (dispatched : list event) : state * list event :=
  let s1 := set_currentGesture gesture s in
  if negb (gesture_eqb (currentGesture s1) (previousGesture s1)) then
    (set_lastGestureTime now (set_previousGesture (currentGesture s1) s1),
     dispatched ++ triggerGestureEvent (currentGesture s1) now)
  else (s1, dispatched).

(** [function detectGesture(hand)]; [now] is its [Date.now()]. *)
Definition detectGesture (hand : prediction) (now : Z) (s : state)
  : option (state * list event) :=
  let lms := landmarks hand in
  if now - lastGestureTime s <? GESTURE_DETECTION_INTERVAL then Some (s, [])
  else
    thumb <- isFingerOpen lms (THUMB_CMC, THUMB_MCP, THUMB_IP, THUMB_TIP) ;;
    index <- isFingerOpen lms (INDEX_FINGER_MCP, INDEX_FINGER_PIP,
                               INDEX_FINGER_DIP, INDEX_FINGER_TIP) ;;
    middle <- isFingerOpen lms (MIDDLE_FINGER_MCP, MIDDLE_FINGER_PIP,
                                MIDDLE_FINGER_DIP, MIDDLE_FINGER_TIP) ;;
    ring <- isFingerOpen lms (RING_FINGER_MCP, RING_FINGER_PIP,
                              RING_FINGER_DIP, RING_FINGER_TIP) ;;
    pinky <- isFingerOpen lms (PINKY_MCP, PINKY_PIP, PINKY_DIP, PINKY_TIP) ;;
    determined <- determineGesture thumb index middle ring pinky lms now s ;;
    let '(gesture, s1, swipes) := determined in
    Some (updateCurrentGesture gesture now s1 swipes).

(** [function drawHand(hand)]: it draws on the canvas and changes none of the
    module's variables, but it reads both ends of every connection. *)
Definition drawHand (hand : prediction) : option unit :=
  if forallb (fun c => match nth_error (landmarks hand) (fst c),
                             nth_error (landmarks hand) (snd c) with
                       | Some _, Some _ => true
                       | _, _ => false
                       end) HAND_CONNECTIONS
  then Some tt else None.

(** One turn of [async function detectHands()]: [predictions] is what
    [estimateHands] resolved to, [now] the clock of the tick.  An exception
    raised inside the [try] block is caught and logged. *)
Definition detectHands (now : Z) (predictions : list prediction) (s : state)
  : state * list event :=
  if negb (isDetecting s) || negb (handposeModel s) then (s, [])
  else
    match predictions with
    | hand :: _ =>
        match (_ <- drawHand hand ;; detectGesture hand now s) with
        | Some r => r
        | None => (s, [])
        end
    | [] => (set_currentGesture none s, [])      (* No hand detected *)
    end.

(** [function stopCamera()], as far as the module's variables go. *)
Definition stopCamera (s : state) : state :=
  if negb (isCameraActive s) then s
  else
    set_lastPalmPosition None
      (set_previousGesture none
         (set_currentGesture none
            (set_isCameraActive false (set_isDetecting false s)))).

(** The detection loop over a list of ticks, with every event dispatched. *)
Fixpoint run (ticks : list (Z * list prediction)) (s : state) : state * list event :=
  match ticks with
  | [] => (s, [])
  | (now, predictions) :: rest =>
      let (s1, evs1) := detectHands now predictions s in
      let (s2, evs2) := run rest s1 in
      (s2, evs1 ++ evs2)
  end.

(** The events of each kind in a list of dispatched events. *)
Definition gestureEvents (evs : list event) : list event :=
  filter (fun e => match e with GestureEvent _ _ => true | _ => false end) evs.
Definition swipeEvents (evs : list event) : list event :=
  filter (fun e => match e with SwipeEvent _ _ => true | _ => false end) evs.

(** *** The classifier in the words of its description *)

(** Landmark [i] of a hand. *)
Definition lm (lms : list landmark) (i : nat) : landmark :=
  nth i lms (mkLandmark 0 0 0).

(** A fingertip is above its base joint: the vertical image axis grows
    downwards. *)
Definition tipAboveBase (lms : list landmark) (tip base : nat) : Prop :=
  (ly (lm lms tip) < ly (lm lms base))%Q.

(** The thumb tip is beyond its base joint on the horizontal axis. *)
Definition tipBeyondBase (lms : list landmark) (tip base : nat) : Prop :=
  (lx (lm lms base) < lx (lm lms tip))%Q.

(** The five open flags. *)
Record fingers : Type := mkFingers {
  thumbOpen : bool; indexOpen : bool; middleOpen : bool;
  ringOpen : bool; pinkyOpen : bool
}.

(** The flags a hand shows. *)
Definition shows (lms : list landmark) (f : fingers) : Prop :=
  (thumbOpen f = true <-> tipBeyondBase lms THUMB_TIP THUMB_CMC) /\
  (indexOpen f = true <-> tipAboveBase lms INDEX_FINGER_TIP INDEX_FINGER_MCP) /\
  (middleOpen f = true <-> tipAboveBase lms MIDDLE_FINGER_TIP MIDDLE_FINGER_MCP) /\
  (ringOpen f = true <-> tipAboveBase lms RING_FINGER_TIP RING_FINGER_MCP) /\
  (pinkyOpen f = true <-> tipAboveBase lms PINKY_TIP PINKY_MCP).

(** The fixed rules from the flags to the label. *)
Definition labelOf (f : fingers) : gesture :=
  match f with
  | mkFingers false false false false false => fist
  | mkFingers true true true true true => open_palm
  | mkFingers true false false false false => thumbs_up
  | mkFingers false true true false false => victory
  | mkFingers false true false false false => point
  | _ => none
  end.

(** The centroid of the six palm-base landmarks. *)
Definition palmCentroid (lms : list landmark) : palmPosition :=
  mkPalm
    ((0 + lx (lm lms WRIST) + lx (lm lms THUMB_CMC) + lx (lm lms INDEX_FINGER_MCP)
      + lx (lm lms MIDDLE_FINGER_MCP) + lx (lm lms RING_FINGER_MCP)
      + lx (lm lms PINKY_MCP)) / 6)%Q
    ((0 + ly (lm lms WRIST) + ly (lm lms THUMB_CMC) + ly (lm lms INDEX_FINGER_MCP)
      + ly (lm lms MIDDLE_FINGER_MCP) + ly (lm lms RING_FINGER_MCP)
      + ly (lm lms PINKY_MCP)) / 6)%Q.

(** A tick of the classifier: detection is on, the model is loaded, and the
    minimum interval since the last change of gesture has passed. *)
Definition detectionTick (now : Z) (s : state) : Prop :=
  isDetecting s = true /\ handposeModel s = true /\
  GESTURE_DETECTION_INTERVAL <= now - lastGestureTime s.

(** The fields a swipe check leaves alone. *)
Definition sameGestureFields (s s' : state) : Prop :=
  handposeModel s' = handposeModel s /\ lastGestureTime s' = lastGestureTime s /\
  currentGesture s' = currentGesture s /\ previousGesture s' = previousGesture s /\
  isDetecting s' = isDetecting s /\ isCameraActive s' = isCameraActive s.

(** *** Sample hands

    A hand whose palm base starts at horizontal position [x]: the four long
    fingers have their base joint at height 100 and their tip at [tipY], the
    thumb has its base at [x + 10] and its tip at [x + thumbReach]. *)
Definition sampleHand (x thumbReach tipY : Q) : prediction :=
  let at_ (dx y : Q) := mkLandmark (x + dx) y 0 in
  mkPrediction
    [ at_ 0 140;                                              (* wrist *)
      at_ 10 130; at_ 12 120; at_ 14 110; at_ thumbReach 105; (* thumb *)
      at_ 20 100; at_ 20 90; at_ 20 80; at_ 20 tipY;          (* index *)
      at_ 30 100; at_ 30 90; at_ 30 80; at_ 30 tipY;          (* middle *)
      at_ 40 100; at_ 40 90; at_ 40 80; at_ 40 tipY;          (* ring *)
      at_ 50 100; at_ 50 90; at_ 50 80; at_ 50 tipY ]%Q.      (* pinky *)

Definition openPalmAt (x : Q) : prediction := sampleHand x 40 20.
Definition fistAt (x : Q) : prediction := sampleHand x 0 150.

(** The module once the camera runs and the model is loaded. *)
Definition started : state := set_isCameraActive true (set_handposeModel true initial).

End HandGesture.

(** ** store.js and the main module

    The model keeps the state the phase machine, the particle interpolation
    and the carousel work on: the store's [phase] and [carouselRotation], the
    particle buffers, and the rotation about the vertical axis of the three
    groups.  Ornaments, photo frames, the top star and the camera are moved by
    further tweens of the same calls; they read and write none of the state
    kept here and are left out.

    Two services of the platform are part of the model, because the program
    hands them its work.

    - gsap.  [gsap.to] puts a tween in flight.  On every tick of gsap's
      ticker the tweens in flight are rendered in the order of their creation:
      a tween reads the start values of its targets when it first renders,
      writes the eased blend of start and end, calls [onUpdate], and, once its
      duration has elapsed, writes the end value, calls [onUpdate] and
      [onComplete] and leaves.
    - [setTimeout].  A callback runs on the first timer task at or after the
      time it is due.

    Time is the clock in milliseconds.  Frames ([animate]), gsap's ticks and
    timer tasks are separate events and may come in any order. *)
Module App.
Import Geometry.
Local Open Scope R_scope.

Definition PARTICLE_COUNT : nat := 20000.
Definition PHOTO_COUNT : R := 24.

(** The values of [phase]: ['tree'], ['blooming'], ['nebula'], ['collapsing']. *)
Inductive Phase : Type := tree | blooming | nebula | collapsing.

Definition phase_eqb (a b : Phase) : bool :=
  match a, b with
  | tree, tree | blooming, blooming | nebula, nebula | collapsing, collapsing => true
  | _, _ => false
  end.

(** The store of store.js ([mousePosition] and [selectedPhoto] are not read
    by the functions below). *)
Record Store : Type := mkStore { phase : Phase; carouselRotation : R }.

(** A [Float32Array]: reads are [a[i]], writes are [a[i] = v] (a write past
    the end is ignored).  The buffers all have length [PARTICLE_COUNT * 3], and
    the loops stay below it. *)
Definition aget (a : list R) (i : nat) : R := nth i a 0.

Fixpoint aset (a : list R) (i : nat) (v : R) : list R :=
  match a, i with
  | [], _ => []
  | _ :: rest, O => v :: rest
  | x :: rest, S j => x :: aset rest j v
  end.

Record Scene : Type := mkScene {
  positions : list R;          (* particleSystem.geometry.attributes.position.array *)
  originalPositions : list R;  (* particleSystem.geometry.userData.originalPositions *)
  explodedPositions : list R;  (* particleSystem.geometry.userData.explodedPositions *)
  velocities : list R;         (* particleSystem.geometry.userData.velocities *)
  particleRotationY : R;       (* particleSystem.rotation.y *)
  ornamentRotationY : R;       (* ornamentGroup.rotation.y *)
  photoRotationY : R           (* photoGroup.rotation.y *)
}.

Definition set_positions (p : list R) (sc : Scene) : Scene :=
  mkScene p (originalPositions sc) (explodedPositions sc) (velocities sc)
          (particleRotationY sc) (ornamentRotationY sc) (photoRotationY sc).
Definition set_velocities (v : list R) (sc : Scene) : Scene :=
  mkScene (positions sc) (originalPositions sc) (explodedPositions sc) v
          (particleRotationY sc) (ornamentRotationY sc) (photoRotationY sc).
Definition set_particleRotationY (y : R) (sc : Scene) : Scene :=
  mkScene (positions sc) (originalPositions sc) (explodedPositions sc) (velocities sc)
          y (ornamentRotationY sc) (photoRotationY sc).
Definition set_ornamentRotationY (y : R) (sc : Scene) : Scene :=
  mkScene (positions sc) (originalPositions sc) (explodedPositions sc) (velocities sc)
          (particleRotationY sc) y (photoRotationY sc).
Definition set_photoRotationY (y : R) (sc : Scene) : Scene :=
  mkScene (positions sc) (originalPositions sc) (explodedPositions sc) (velocities sc)
          (particleRotationY sc) (ornamentRotationY sc) y.

(** [for (let i = 0; i < n; i++) body(i)], started at [i]. *)
Fixpoint forParticles (n i : nat) (body : nat -> Scene -> Scene) (sc : Scene) : Scene :=
  match n with
  | O => sc
  | S m => forParticles m (S i) body (body i sc)
  end.

(** The body of the loop in [triggerBlooming]'s [onUpdate]. *)
Definition explodeParticle (progress : R) (i : nat) (sc : Scene) : Scene :=
  let ox := aget (originalPositions sc) (i * 3) in
  let oy := aget (originalPositions sc) (i * 3 + 1) in
  let oz := aget (originalPositions sc) (i * 3 + 2) in
  let exploded := explodedPositions sc in
  let p1 := aset (positions sc) (i * 3) (ox + (aget exploded (i * 3) - ox) * progress) in
  let p2 := aset p1 (i * 3 + 1) (oy + (aget exploded (i * 3 + 1) - oy) * progress) in
  let p3 := aset p2 (i * 3 + 2) (oz + (aget exploded (i * 3 + 2) - oz) * progress) in
  set_positions p3 sc.

(** The body of the loop in [triggerCollapsing]'s [onUpdate]. *)
Definition collapseParticle (progress : R) (i : nat) (sc : Scene) : Scene :=
  let original := originalPositions sc in
  let exploded := explodedPositions sc in
  let p1 := aset (positions sc) (i * 3)
              (aget exploded (i * 3)
               + (aget original (i * 3) - aget exploded (i * 3)) * progress) in
  let p2 := aset p1 (i * 3 + 1)
              (aget exploded (i * 3 + 1)
               + (aget original (i * 3 + 1) - aget exploded (i * 3 + 1)) * progress) in
  let p3 := aset p2 (i * 3 + 2)
              (aget exploded (i * 3 + 2)
               + (aget original (i * 3 + 2) - aget exploded (i * 3 + 2)) * progress) in
  set_positions p3 sc.

(** The body of the particle loop of [applyRippleEffect]. *)
Definition rippleParticle (mousePos : Vector3) (i : nat) (sc : Scene) : Scene :=
  let original := originalPositions sc in
  let ox := aget original (i * 3) in
  let oy := aget original (i * 3 + 1) in
  let oz := aget original (i * 3 + 2) in
  let currentPos := mkVector3 ox oy oz in
  let force := calculateRippleForce currentPos mousePos 1 (15 / 1000) in
  let v0 := velocities sc in
  let v1 := aset v0 (i * 3) (aget v0 (i * 3) + vx force) in
  let v2 := aset v1 (i * 3 + 1) (aget v1 (i * 3 + 1) + vy force) in
  let v3 := aset v2 (i * 3 + 2) (aget v2 (i * 3 + 2) + vz force) in
  (* Apply velocity with damping *)
  let p0 := positions sc in
  let p1 := aset p0 (i * 3) (aget p0 (i * 3) + aget v3 (i * 3)) in
  let p2 := aset p1 (i * 3 + 1) (aget p1 (i * 3 + 1) + aget v3 (i * 3 + 1)) in
  let p3 := aset p2 (i * 3 + 2) (aget p2 (i * 3 + 2) + aget v3 (i * 3 + 2)) in
  (* Spring back to original *)
  let p4 := aset p3 (i * 3) (aget p3 (i * 3) + (ox - aget p3 (i * 3)) * (5 / 100)) in
  let p5 := aset p4 (i * 3 + 1)
              (aget p4 (i * 3 + 1) + (oy - aget p4 (i * 3 + 1)) * (5 / 100)) in
  let p6 := aset p5 (i * 3 + 2)
              (aget p5 (i * 3 + 2) + (oz - aget p5 (i * 3 + 2)) * (5 / 100)) in
  (* Damping *)
  let v4 := aset v3 (i * 3) (aget v3 (i * 3) * (95 / 100)) in
  let v5 := aset v4 (i * 3 + 1) (aget v4 (i * 3 + 1) * (95 / 100)) in
  let v6 := aset v5 (i * 3 + 2) (aget v5 (i * 3 + 2) * (95 / 100)) in
  set_velocities v6 (set_positions p6 sc).

(** [function applyRippleEffect()], the particle system; [mousePos] is the
    point the raycaster projects the pointer to. *)
Definition applyRippleEffect (mousePos : Vector3) (sc : Scene) : Scene :=
  forParticles PARTICLE_COUNT 0 (rippleParticle mousePos) sc.

(** *** gsap *)

(** The four [gsap.to] calls that drive the modelled state, by call site. *)
Inductive TweenSite : Type :=
  | ExplodeParticles                 (* triggerBlooming: gsap.to({}, {duration: 2, onUpdate}) *)
  | CollapseParticles                (* triggerCollapsing: gsap.to({}, {duration: 2, onUpdate}) *)
  | ResetRotation                    (* triggerCollapsing: gsap.to([particleSystem.rotation,
                                        ornamentGroup.rotation], {y: 0, duration: 2}) *)
  | Carousel (newRotation : R).      (* rotateCarousel: gsap.to(photoGroup.rotation,
                                        {y: newRotation, duration: 0.8, onUpdate, onComplete}) *)

Definition duration (s : TweenSite) : Z :=
  match s with
  | Carousel _ => 800
  | _ => 2000
  end.

(** A tween in flight: its call site, the clock when it was created, and the
    values its targets had when it first rendered: those of the particle
    system and the ornament group for the rotation reset, that of the photo
    group (in both places) for the carousel. *)
Record Tween : Type := mkTween {
  site : TweenSite;
  startTime : Z;
  startValues : option (R * R)
}.

(** gsap's eases [power2.out] and [power2.inOut]. *)
Definition power2_out (p : R) : R := 1 - (1 - p) ^ 3.
Definition power2_inOut (p : R) : R :=
  if Rlt_dec p (1 / 2) then (p * 2) ^ 3 / 2 else 1 - ((1 - p) * 2) ^ 3 / 2.

Definition finished (t : Z) (tw : Tween) : bool :=
  (startTime tw + duration (site tw) <=? t)%Z.

(** [this.progress()]: the share of the duration that has elapsed. *)
Definition progress (t : Z) (tw : Tween) : R :=
  if finished t tw then 1
  else IZR (t - startTime tw) / IZR (duration (site tw)).

(** The value of a tweened property: the end value once the tween has
    finished, the eased blend of start and end before. *)
Definition tweened (from to_ : R) (eased : R) (done : bool) : R :=
  if done then to_ else from + (to_ - from) * eased.

(** One tween rendered at clock [t]: the tweened properties are written, then
    [onUpdate] runs, then [onComplete] if the tween has finished. *)
Definition render (t : Z) (tw : Tween) (sc : Scene) (st : Store)
  : Scene * Store * Tween :=
  let done := finished t tw in
  let p := progress t tw in
  match site tw with
  | ExplodeParticles =>
      (forParticles PARTICLE_COUNT 0 (explodeParticle p) sc, st, tw)
  | CollapseParticles =>
      (forParticles PARTICLE_COUNT 0 (collapseParticle p) sc, st, tw)
  | ResetRotation =>
      let from := match startValues tw with
                  | Some v => v
                  | None => (particleRotationY sc, ornamentRotationY sc)
                  end in
      let sc1 := set_particleRotationY
                   (tweened (fst from) 0 (power2_inOut p) done) sc in
      let sc2 := set_ornamentRotationY
                   (tweened (snd from) 0 (power2_inOut p) done) sc1 in
      (sc2, st, mkTween (site tw) (startTime tw) (Some from))
  | Carousel newRotation =>
      let from := match startValues tw with
                  | Some v => v
                  | None => (photoRotationY sc, photoRotationY sc)
                  end in
      let sc1 := set_photoRotationY
                   (tweened (fst from) newRotation (power2_out p) done) sc in
      (* onUpdate: store.setState({ carouselRotation: photoGroup.rotation.y }) *)
      let st1 := mkStore (phase st) (photoRotationY sc1) in
      (* onComplete: store.setState({ carouselRotation: newRotation }) *)
      let st2 := if done then mkStore (phase st1) newRotation else st1 in
      (sc1, st2, mkTween (site tw) (startTime tw) (Some from))
  end.

(** One tick of gsap's ticker: the tweens in flight are rendered in the order
    they were created, and the finished ones are dropped. *)
Fixpoint renderAll (t : Z) (tws : list Tween) (sc : Scene) (st : Store)
  : Scene * Store * list Tween :=
  match tws with
  | [] => (sc, st, [])
  | tw :: rest =>
      let '(sc1, st1, tw1) := render t tw sc st in
      let '(sc2, st2, rest') := renderAll t rest sc1 st1 in
      (sc2, st2, if finished t tw then rest' else tw1 :: rest')
  end.

(** *** setTimeout *)

(** A pending timer.  Both callbacks of the program have the shape
    [() => { store.setState({ phase: p }); updateUI(p); }]. *)
Record Timer : Type := mkTimer { due : Z; callback : Phase }.

(** *** The running program *)

Record World : Type := mkWorld {
  clock : Z;                (* milliseconds *)
  store : Store;
  scene : Scene;
  tweens : list Tween;      (* in flight, oldest first *)
  timers : list Timer;      (* pending, oldest first *)
  uiLog : list Phase        (* the arguments of the calls of updateUI, oldest first *)
}.

Definition set_clock (t : Z) (w : World) : World :=
  mkWorld t (store w) (scene w) (tweens w) (timers w) (uiLog w).
Definition set_store (st : Store) (w : World) : World :=
  mkWorld (clock w) st (scene w) (tweens w) (timers w) (uiLog w).
Definition set_scene (sc : Scene) (w : World) : World :=
  mkWorld (clock w) (store w) sc (tweens w) (timers w) (uiLog w).
Definition set_tweens (tws : list Tween) (w : World) : World :=
  mkWorld (clock w) (store w) (scene w) tws (timers w) (uiLog w).
Definition set_timers (tms : list Timer) (w : World) : World :=
  mkWorld (clock w) (store w) (scene w) (tweens w) tms (uiLog w).
Definition set_uiLog (l : list Phase) (w : World) : World :=
  mkWorld (clock w) (store w) (scene w) (tweens w) (timers w) l.

(** [store.setState({ phase: p }); updateUI(p);] *)
Definition enterPhase (p : Phase) (w : World) : World :=
  set_uiLog (uiLog w ++ [p])
    (set_store (mkStore p (carouselRotation (store w))) w).

(** [gsap.to(..)] at one of the four call sites. *)
Definition gsap_to (s : TweenSite) (w : World) : World :=
  set_tweens (tweens w ++ [mkTween s (clock w) None]) w.

(** [setTimeout(() => { store.setState({ phase: p }); updateUI(p); }, delay)].
    Every delay of the program is the same, so the pending timers stay in the
    order in which they come due. *)
Definition setTimeout (p : Phase) (delay : Z) (w : World) : World :=
  set_timers (timers w ++ [mkTimer (clock w + delay)%Z p]) w.

(** [function triggerBlooming()] *)
Definition triggerBlooming (w : World) : World :=
  if negb (phase_eqb (phase (store w)) tree) then w
  else
    let w1 := enterPhase blooming w in
    let w2 := gsap_to ExplodeParticles w1 in
    setTimeout nebula 2500 w2.

(** [function triggerCollapsing()] *)
Definition triggerCollapsing (w : World) : World :=
  if negb (phase_eqb (phase (store w)) nebula) then w
  else
    let w1 := enterPhase collapsing w in
    let w2 := gsap_to CollapseParticles w1 in
    let w3 := gsap_to ResetRotation w2 in
    setTimeout tree 2500 w3.

(** [function rotateCarousel(direction)] *)
Definition rotateCarousel (direction : R) (w : World) : World :=
  if negb (phase_eqb (phase (store w)) nebula) then w
  else
    let newRotation :=
      carouselRotation (store w) + direction * (PI * 2 / PHOTO_COUNT) in
    gsap_to (Carousel newRotation) w.

(** [function animate()], one display frame: the ripple in the tree phase,
    the particle system and the ornament group kept in step with the photo
    group in the nebula phase. *)
Definition animate (mousePos : Vector3) (w : World) : World :=
  let state := store w in
  let w1 := if phase_eqb (phase state) tree
            then set_scene (applyRippleEffect mousePos (scene w)) w
            else w in
  if phase_eqb (phase state) nebula then
    set_scene
      (set_ornamentRotationY (photoRotationY (scene w1))
         (set_particleRotationY (photoRotationY (scene w1)) (scene w1))) w1
  else w1.

(** The clock never runs backwards. *)
Definition advance (t : Z) (w : World) : World :=
  set_clock (Z.max (clock w) t) w.

(** gsap's ticker at clock [t]. *)
Definition gsapTick (t : Z) (w : World) : World :=
  let w1 := advance t w in
  let '(sc, st, tws) := renderAll (clock w1) (tweens w1) (scene w1) (store w1) in
  set_tweens tws (set_store st (set_scene sc w1)).

(** The timer task at clock [t]: the callbacks that have come due run, oldest
    first. *)
Definition timerTask (t : Z) (w : World) : World :=
  let w1 := advance t w in
  let now := clock w1 in
  let fired := filter (fun tm => (due tm <=? now)%Z) (timers w1) in
  let pending := filter (fun tm => negb (due tm <=? now)%Z) (timers w1) in
  fold_left (fun w' tm => enterPhase (callback tm) w') fired (set_timers pending w1).

(** What happens to the program: the keyboard and gesture handlers call the
    three public functions; the platform runs frames, gsap ticks and timers. *)
Inductive Event : Type :=
  | TriggerBlooming
  | TriggerCollapsing
  | RotateCarousel (direction : R)
  | Animate (mousePos : Vector3)
  | GsapTick (t : Z)
  | TimerTask (t : Z).

Definition step (e : Event) (w : World) : World :=
  match e with
  | TriggerBlooming => triggerBlooming w
  | TriggerCollapsing => triggerCollapsing w
  | RotateCarousel d => rotateCarousel d w
  | Animate m => animate m w
  | GsapTick t => gsapTick t w
  | TimerTask t => timerTask t w
  end.

Definition run (evs : list Event) (w : World) : World :=
  fold_left (fun w' e => step e w') evs w.

(** The program when [init()] is through and no key was pressed while it
    ran: [createChristmasTree] fills [positions] and [originalPositions] with
    the same cone sample and [explodedPositions] with the text and ring
    layout; the store is as store.js makes it, in ['tree']. *)
Definition initial (original exploded : list R) : World :=
  mkWorld 0 (mkStore tree 0)
          (mkScene original original exploded
                   (repeat 0 (PARTICLE_COUNT * 3)) 0 0 0)
          [] [] [].

(** The worlds the program can be in after such an [init()].  ([Boot] has the
    page from the evaluation of the module on, the keys pressed while
    [init()] runs included.) *)
Inductive reachable : World -> Prop :=
  | reachable_initial : forall original exploded,
      length original = (PARTICLE_COUNT * 3)%nat ->
      length exploded = (PARTICLE_COUNT * 3)%nat ->
      reachable (initial original exploded)
  | reachable_step : forall w e, reachable w -> reachable (step e w).

(** The edges of the phase cycle. *)
Definition phaseEdge (a b : Phase) : bool :=
  match a, b with
  | tree, blooming | blooming, nebula | nebula, collapsing | collapsing, tree => true
  | _, _ => false
  end.

(** Every change in a history of phases is an edge of the cycle. *)
Fixpoint followsCycle (from : Phase) (history : list Phase) : bool :=
  match history with
  | [] => true
  | p :: rest => phaseEdge from p && followsCycle p rest
  end.

(** The tweens that write the particle positions, and the one that writes the
    rotation of the particle system and the ornament group. *)
Definition writesPositions (tw : Tween) : bool :=
  match site tw with
  | ExplodeParticles | CollapseParticles => true
  | _ => false
  end.
Definition writesGroupRotation (tw : Tween) : bool :=
  match site tw with
  | ResetRotation => true
  | _ => false
  end.
Definition writesPhotoRotation (tw : Tween) : bool :=
  match site tw with
  | Carousel _ => true
  | _ => false
  end.

(** *** Notions the properties are stated with *)

(** The buffers have the length the program allocates them with. *)
Definition buffersOk (sc : Scene) : Prop :=
  length (positions sc) = (PARTICLE_COUNT * 3)%nat /\
  length (originalPositions sc) = (PARTICLE_COUNT * 3)%nat /\
  length (explodedPositions sc) = (PARTICLE_COUNT * 3)%nat /\
  length (velocities sc) = (PARTICLE_COUNT * 3)%nat.

(** The last tween in flight of a kind: the one rendered last on a tick. *)
Fixpoint lastWriter (kind : Tween -> bool) (tws : list Tween) : option Tween :=
  match tws with
  | [] => None
  | tw :: rest =>
      match lastWriter kind rest with
      | Some l => Some l
      | None => if kind tw then Some tw else None
      end
  end.

(** No tween of a kind is in flight: the interpolation it drives has run to
    completion. *)
Definition settled (kind : Tween -> bool) (w : World) : Prop :=
  lastWriter kind (tweens w) = None.

(** The events of the platform that are no timer task. *)
Definition notTimerTask (e : Event) : Prop :=
  match e with
  | TimerTask _ => False
  | _ => True
  end.

(** Where a finished particle tween leaves the particles. *)
Definition restingPositions (s : TweenSite) (original exploded : list R) : list R :=
  match s with
  | ExplodeParticles => exploded
  | _ => original
  end.

(** The tweens in flight were created in the order of the list, none in the
    future. *)
Definition tweensOk (now : Z) (tws : list Tween) : Prop :=
  Forall (fun s => (s <= now)%Z) (map startTime tws) /\
  StronglySorted Z.le (map startTime tws).

(** What holds of the particles, by phase: while a particle tween is in
    flight the last one is the phase's own; once none is, the particles are
    where the phase's interpolation ends. *)
Definition positionsOk (w : World) : Prop :=
  match lastWriter writesPositions (tweens w), phase (store w) with
  | _, tree => True
  | Some l, (blooming | nebula) => site l = ExplodeParticles
  | Some l, collapsing => site l = CollapseParticles
  | None, (blooming | nebula) =>
      positions (scene w) = explodedPositions (scene w)
  | None, collapsing =>
      positions (scene w) = originalPositions (scene w)
  end.

(** The pending timer, by phase: the transient phases wait for their exit,
    the stable phases for nothing. *)
Definition timersOk (w : World) : Prop :=
  match phase (store w) with
  | tree | nebula => timers w = []
  | blooming => exists d, timers w = [mkTimer d nebula]
  | collapsing => exists d, timers w = [mkTimer d tree]
  end.

(** What holds in every [reachable] world. *)
Definition invariant (w : World) : Prop :=
  buffersOk (scene w) /\
  tweensOk (clock w) (tweens w) /\
  timersOk w /\
  (followsCycle tree (uiLog w) = true /\ last (uiLog w) tree = phase (store w)) /\
  positionsOk w /\
  (phase (store w) <> nebula -> settled writesGroupRotation w ->
   particleRotationY (scene w) = 0 /\ ornamentRotationY (scene w) = 0).

(** [rotateCarousel(direction)] called once for every entry of [waits], each
    tween left to finish: gsap ticks [wait] milliseconds after the call, then
    a frame is drawn. *)
Fixpoint rotations (direction : R) (waits : list Z) (m : Vector3) (w : World) : World :=
  match waits with
  | [] => w
  | wait :: rest =>
      rotations direction rest m
        (run [RotateCarousel direction; GsapTick (clock w + wait); Animate m] w)
  end.

(** The projections of a world that has been written out. *)
Ltac fields :=
  cbn [clock store scene tweens timers uiLog phase carouselRotation
       set_scene set_store set_tweens set_timers set_clock set_uiLog] in *.

(** A tree of particles that all start at the origin and explode to 1. *)
Definition sampleWorld : World :=
  initial (repeat 0 (PARTICLE_COUNT * 3)) (repeat 1 (PARTICLE_COUNT * 3)).

(** The sample tree once it has bloomed into the nebula. *)
Definition sampleNebula : World :=
  run [TriggerBlooming; GsapTick 2000; TimerTask 2500] sampleWorld.

End App.

(** ** The main module from its evaluation on

    [init()] is asynchronous, and the page is live while it runs.  It waits
    for the environment map first ([hdrTexture = await loadHDRTexture()]),
    and the evaluation of the module goes on while it waits: the listener
    of "Keyboard shortcuts for testing" is added to the document, so from
    then on the keys call [triggerBlooming], [triggerCollapsing] and
    [rotateCarousel], although [particleSystem], [photoGroup], [topStar] and
    [camera] are still [undefined].  (The listeners of the gesture and swipe
    events are added after [await init()], those of the mouse at the end of
    [init()].)  When the environment map has arrived or failed, [init()]
    builds the scene in one go and starts the frames with [animate()]; when
    [createChristmasTree] throws, it never does. *)
Module Boot.
Import App.
Local Open Scope R_scope.

(** The page: while [init()] has not assigned [particleSystem] (it is still
    waiting, or it has thrown), there are the store and the calls of
    [updateUI] only; afterwards there is the world of [App]. *)
Inductive Page : Type :=
  | Loading (st : Store) (log : list Phase)
  | Running (w : World).

(** How a call ends. *)
Inductive Completion : Type := Returns | Throws.

(** The page when the module has been evaluated. *)
Definition loaded : Page := Loading (mkStore tree 0) [].

(** [function triggerBlooming()].  While the page is loading, the phase is
    set and the user interface updated before
    [const positions = particleSystem.geometry.attributes.position.array]
    throws a [TypeError]; the tweens and [setTimeout] come after it. *)
Definition triggerBlooming (p : Page) : Page * Completion :=
  match p with
  | Running w => (Running (App.triggerBlooming w), Returns)
  | Loading st log =>
      if negb (phase_eqb (phase st) tree) then (p, Returns)
      else
        (* store.setState({ phase: 'blooming' }); updateUI('blooming'); *)
        (Loading (mkStore blooming (carouselRotation st)) (log ++ [blooming]), Throws)
  end.

(** [function triggerCollapsing()]; it reads [particleSystem.geometry] at the
    same place. *)
Definition triggerCollapsing (p : Page) : Page * Completion :=
  match p with
  | Running w => (Running (App.triggerCollapsing w), Returns)
  | Loading st log =>
      if negb (phase_eqb (phase st) nebula) then (p, Returns)
      else
        (* store.setState({ phase: 'collapsing' }); updateUI('collapsing'); *)
        (Loading (mkStore collapsing (carouselRotation st)) (log ++ [collapsing]), Throws)
  end.

(** [function rotateCarousel(direction)]; while the page is loading
    [gsap.to(photoGroup.rotation, ..)] throws before anything is written. *)
Definition rotateCarousel (direction : R) (p : Page) : Page * Completion :=
  match p with
  | Running w => (Running (App.rotateCarousel direction w), Returns)
  | Loading st log =>
      if negb (phase_eqb (phase st) nebula) then (p, Returns)
      else (p, Throws)
  end.

(** What happens to the page: [init()] gets as far as [animate()], with the
    buffers [createChristmasTree] has filled; or one of the events of [App].
    The clock of the world starts when [init()] is through. *)
Inductive PageEvent : Type :=
  | InitDone (original exploded : list R)
  | Do (e : Event).

Definition step (e : PageEvent) (p : Page) : Page :=
  match e, p with
  | InitDone original exploded, Loading st log =>
      Running (mkWorld 0 st (scene (initial original exploded)) [] [] log)
  | InitDone _ _, Running w => Running w
  | Do TriggerBlooming, _ => fst (triggerBlooming p)
  | Do TriggerCollapsing, _ => fst (triggerCollapsing p)
  | Do (RotateCarousel d), _ => fst (rotateCarousel d p)
  | Do e', Running w => Running (App.step e' w)
  (* no frame is drawn before [animate()] is called; no tween of the
     modelled state and no timer has been started *)
  | Do (Animate _), Loading _ _ => p
  | Do (GsapTick _), Loading _ _ => p
  | Do (TimerTask _), Loading _ _ => p
  end.

Definition run (evs : list PageEvent) (p : Page) : Page :=
  fold_left (fun p' e => step e p') evs p.

(** The store, the calls of [updateUI] and the pending timers of a page. *)
Definition storeOf (p : Page) : Store :=
  match p with
  | Loading st _ => st
  | Running w => store w
  end.
Definition uiLogOf (p : Page) : list Phase :=
  match p with
  | Loading _ log => log
  | Running w => uiLog w
  end.
Definition timersOf (p : Page) : list Timer :=
  match p with
  | Loading _ _ => []
  | Running w => timers w
  end.

(** The key o pressed while the page is loading. *)
Definition keyBeforeInit : Page := fst (triggerBlooming loaded).

(** The page is stuck in blooming: the phase is blooming, [updateUI] was
    called once, and neither a timer nor a tween is there to end it. *)
Definition stuckInBlooming (p : Page) : Prop :=
  phase (storeOf p) = blooming /\ uiLogOf p = [blooming] /\ timersOf p = [] /\
  match p with
  | Loading _ _ => True
  | Running w => tweens w = []
  end.

End Boot.

(** ** utils/geometry.js, the point generators and the shapes

    [Math.random()] is the only thing these functions read from outside: the
    values it returns are arguments here, one per call, in the order in which
    the calls are evaluated.  It returns a number in the interval from 0
    (included) to 1 (excluded), which the properties assume and the
    definitions do not.  The plain objects [{ x, y, z }] are [Vector3]s. *)
Module Distributions.
Import Geometry.
Local Open Scope R_scope.

(** [for (let i = start; i < start + n; i++) body(i)] over a state. *)
Fixpoint for_ {St : Type} (n i : nat) (body : nat -> St -> St) (s : St) : St :=
  match n with
  | O => s
  | S m => for_ m (S i) body (body i s)
  end.

(** [export function sphericalToCartesian(radius, theta, phi)] *)
Definition sphericalToCartesian (radius theta phi : R) : Vector3 :=
  mkVector3 (radius * sin phi * cos theta)
            (radius * cos phi)
            (radius * sin phi * sin theta).

(** [export function coneDistribution(height, radius, randomness = 0.5)] *)
Definition coneDistribution (height radius randomness : R) (r1 r2 r3 : R) : Vector3 :=
  let y := r1 * height in
  let currentRadius := (1 - y / height) * radius * (5 / 10 + r2 * randomness) in
  let angle := r3 * PI * 2 in
  mkVector3 (cos angle * currentRadius) y (sin angle * currentRadius).

(** [export function spiralDistribution(index, total, height, radius, turns = 8)] *)
Definition spiralDistribution (index total height radius turns : R) : Vector3 :=
  let t := index / total in
  let y := t * height + 3 / 10 in
  let currentRadius := (1 - y / (height + 3 / 10)) * radius in
  let angle := t * PI * 2 * turns in
  mkVector3 (cos angle * currentRadius) y (sin angle * currentRadius).

(** [export function ringDistribution(radius, heightVar = 2)] *)
Definition ringDistribution (radius heightVar : R) (r1 r2 : R) : Vector3 :=
  let angle := r1 * PI * 2 in
  let height := (r2 - 5 / 10) * heightVar in
  mkVector3 (cos angle * radius) (25 / 10 + height) (sin angle * radius).

(** [export function randomDistribution(range = 15)] *)
Definition randomDistribution (range : R) (r1 r2 r3 : R) : Vector3 :=
  mkVector3 ((r1 - 5 / 10) * range) (r2 * range) ((r3 - 5 / 10) * range).

(** What [THREE.Shape] records of the calls of [createStarShape]. *)
Inductive PathCommand : Type :=
  | MoveTo (x y : R)
  | LineTo (x y : R)
  | ClosePath.

(** [export function createStarShape(outerRadius = 0.4, innerRadius = 0.2,
    spikes = 5)], for a whole number of spikes. *)
Definition createStarShape (outerRadius innerRadius : R) (spikes : nat)
  : list PathCommand :=
  let starShape :=
    for_ (spikes * 2) 0
      (fun i starShape =>
         let radius := if Nat.eqb (i mod 2) 0 then outerRadius else innerRadius in
         let angle := (INR i / (INR spikes * 2)) * PI * 2 - PI / 2 in
         let x := cos angle * radius in
         let y := sin angle * radius in
         if Nat.eqb i 0 then starShape ++ [MoveTo x y]
         else starShape ++ [LineTo x y])
      [] in
  starShape ++ [ClosePath].

(** [{ position, angle }] *)
Record RingSlot : Type := mkRingSlot { position : Vector3; angle : R }.

(** [export function photoRingPosition(index, total, radius = 12)] *)
Definition photoRingPosition (index total radius : R) : RingSlot :=
  let angle := (index / total) * PI * 2 in
  mkRingSlot
    (mkVector3 (cos angle * radius)
               (25 / 10 + sin (angle * 3) * (5 / 10))
               (sin angle * radius))
    angle.

(** [export function generateExplosionPosition(angle, minRadius = 10,
    maxRadius = 15)] *)
Definition generateExplosionPosition (angle minRadius maxRadius : R) (r1 r2 r3 : R)
  : Vector3 :=
  let radius := minRadius + r1 * (maxRadius - minRadius) in
  let randomAngle := angle + r2 in
  let heightVar := (r3 - 5 / 10) * 3 in
  mkVector3 (cos randomAngle * radius) (25 / 10 + heightVar) (sin randomAngle * radius).

(** *** [generateTextParticles]

    The function draws the text on a canvas of 800 by 200 pixels and reads
    the pixels back; what the canvas rendered is its input here: [pixels] is
    [imageData.data], four bytes per pixel, row by row. *)
Definition CANVAS_WIDTH : nat := 800.
Definition CANVAS_HEIGHT : nat := 200.

(** The values of [v] in [for (let v = 0; v < bound; v += 2)]. *)
Definition everySecond (bound : nat) : list nat := filter Nat.even (seq 0 bound).

(** [const alpha = pixels[index + 3]] for the pixel in column [x] of row [y];
    a read past the end is [undefined], which is not above 128 either. *)
Definition alphaAt (pixels : list Z) (x y : nat) : Z :=
  let index := ((y * CANVAS_WIDTH + x) * 4)%nat in
  nth (index + 3) pixels 0%Z.

(** The position pushed for a pixel that is opaque enough. *)
Definition pixelPosition (scale : R) (x y : nat) : Vector3 :=
  mkVector3 ((INR x - INR CANVAS_WIDTH / 2) / 100 * scale)
            ((INR CANVAS_HEIGHT / 2 - INR y) / 100 * scale)
            0.

(** "Collect non-transparent pixel positions": the two nested loops. *)
Definition textPositions (pixels : list Z) (scale : R) : list Vector3 :=
  flat_map
    (fun y =>
       flat_map
         (fun x =>
            if (128 <? alphaAt pixels x y)%Z then [pixelPosition scale x y] else [])
         (everySecond CANVAS_WIDTH))
    (everySecond CANVAS_HEIGHT).

(** [Math.floor] *)
Definition floor (x : R) : Z := Int_part x.

(** [a[i]] for a number [i]: [undefined] outside the array. *)
Definition at_ {A : Type} (a : list A) (i : Z) : option A :=
  if (i <? 0)%Z then None else nth_error a (Z.to_nat i).

(** The sampling loop of [generateTextParticles]; [rand k] is the value of
    call number [k] of [Math.random()], and the loop starts at call [k].
    Reading [pos.x] of an [undefined] position throws: [None]. *)
Fixpoint sampleText (particleCount k : nat) (textPositions : list Vector3)
    (rand : nat -> R) : option (list Vector3) :=
  match particleCount with
  | O => Some []
  | S m =>
      let randomIndex := floor (rand k * INR (length textPositions)) in
      match at_ textPositions randomIndex with
      | None => None
      | Some pos =>
          let randomX := (rand (k + 1)%nat - 5 / 10) * (2 / 10) in
          let randomY := (rand (k + 2)%nat - 5 / 10) * (2 / 10) in
          let randomZ := (rand (k + 3)%nat - 5 / 10) * (2 / 10) in
          match sampleText m (k + 4) textPositions rand with
          | None => None
          | Some rest =>
              Some (mkVector3 (vx pos + randomX) (vy pos + randomY) (vz pos + randomZ)
                    :: rest)
          end
      end
  end.

(** [export function generateTextParticles(text, particleCount = 5000,
    scale = 1)] *)
Definition generateTextParticles (pixels : list Z) (particleCount : nat) (scale : R)
    (rand : nat -> R) : option (list Vector3) :=
  sampleText particleCount 0 (textPositions pixels scale) rand.

(** *** Notions the properties are stated with *)

(** The distance of a point from the vertical axis, with the program's own
    [calculateDistance]. *)
Definition axisDistance (p : Vector3) : R :=
  calculateDistance (vx p) 0 (vz p) 0 0 0.

(** The distance of a point from the origin. *)
Definition originDistance (p : Vector3) : R :=
  calculateDistance (vx p) (vy p) (vz p) 0 0 0.

(** A value of [Math.random()]. *)
Definition unit_ (r : R) : Prop := 0 <= r < 1.

(** The end point of a path command, if it has one. *)
Definition vertex (c : PathCommand) : option (R * R) :=
  match c with
  | MoveTo x y | LineTo x y => Some (x, y)
  | ClosePath => None
  end.

Definition isMoveTo (c : PathCommand) : bool :=
  match c with MoveTo _ _ => true | _ => false end.

(** A pixel the text loop visits and finds opaque enough. *)
Definition litPixel (pixels : list Z) (x y : nat) : Prop :=
  (x < CANVAS_WIDTH)%nat /\ (y < CANVAS_HEIGHT)%nat /\
  Nat.even x = true /\ Nat.even y = true /\ (128 < alphaAt pixels x y)%Z.

(** [p] is [q] moved by at most 0.1 along each axis. *)
Definition near (p q : Vector3) : Prop :=
  Rabs (vx p - vx q) <= 1 / 10 /\ Rabs (vy p - vy q) <= 1 / 10 /\
  Rabs (vz p - vz q) <= 1 / 10.

End Distributions.

(** ** The main module, the scenery: ornaments, snow, and the frames of the
    standing tree *)
Module Scenery.
Import Geometry App Distributions.
Local Open Scope R_scope.

Definition ORNAMENT_COUNT : nat := 50.
Definition SNOWFLAKE_COUNT : nat := 500.

(** [THREE.Vector3.add] *)
Definition vadd (a b : Vector3) : Vector3 :=
  mkVector3 (vx a + vx b) (vy a + vy b) (vz a + vz b).

(** The three coordinates of particle [i] in a buffer. *)
Definition particle (buffer : list R) (i : nat) : Vector3 :=
  mkVector3 (aget buffer (i * 3)) (aget buffer (i * 3 + 1)) (aget buffer (i * 3 + 2)).

(** [createOrnaments], the size of ornament [i]; [r] is its
    [Math.random()]. *)
Definition ornamentSize (i : nat) (r : R) : R :=
  let p := spiralDistribution (INR i) (INR ORNAMENT_COUNT) (45 / 10) (18 / 10) 8 in
  let y := vy p in
  let yNormalized := (5 - y) / 5 in
  let baseSize := 6 / 100 + yNormalized * (12 / 100) in
  baseSize + (r - 5 / 10) * (3 / 100).

(** [a[i * 3] = x; a[i * 3 + 1] = y; a[i * 3 + 2] = z;] *)
Definition aset3 (a : list R) (i : nat) (x y z : R) : list R :=
  aset (aset (aset a (i * 3) x) (i * 3 + 1) y) (i * 3 + 2) z.

Definition set_explodedPositions (e : list R) (sc : Scene) : Scene :=
  mkScene (positions sc) (originalPositions sc) e (velocities sc)
          (particleRotationY sc) (ornamentRotationY sc) (photoRotationY sc).

(** [const textParticleCount = 5000;] *)
Definition textParticleCount : nat := 5000.

(** [createChristmasTree], the body of the first loop: the place of particle
    [i] in the tree.  A particle takes eight values of [Math.random()], three
    for its place and five for its colour, which is left out. *)
Definition plantParticle (rand : nat -> R) (i : nat) (sc : Scene) : Scene :=
  (* Cone distribution *)
  let p := coneDistribution 5 2 (5 / 10) (rand (i * 8)%nat) (rand (i * 8 + 1)%nat)
                            (rand (i * 8 + 2)%nat) in
  mkScene (aset3 (positions sc) i (vx p) (vy p) (vz p))
          (aset3 (originalPositions sc) i (vx p) (vy p) (vz p))
          (explodedPositions sc)
          (aset3 (velocities sc) i 0 0 0)
          (particleRotationY sc) (ornamentRotationY sc) (photoRotationY sc).

(** [createChristmasTree], the body of the second loop: the place of particle
    [i] in the nebula.  Reading [pos.x] of an [undefined] particle of the
    text throws: [None].  A particle of the ring takes three values of
    [Math.random()], from call [ringCalls] on. *)
Definition layParticle (rand : nat -> R) (textParticles : list Vector3)
    (ringCalls : nat) (i : nat) (made : option Scene) : option Scene :=
  match made with
  | None => None
  | Some sc =>
      if (i <? textParticleCount)%nat then
        (* Use text particles for the first 5000 particles *)
        match nth_error textParticles (i mod length textParticles) with
        | None => None
        | Some pos =>
            Some (set_explodedPositions
                    (aset3 (explodedPositions sc) i (vx pos) (vy pos + 25 / 10) (vz pos))
                    sc)
        end
      else
        (* Use nebula ring for remaining particles *)
        let c := (ringCalls + (i - textParticleCount) * 3)%nat in
        let ringRadius := 8 + rand c * 6 in
        let p := ringDistribution ringRadius 4 (rand (c + 1)%nat) (rand (c + 2)%nat) in
        Some (set_explodedPositions
                (aset3 (explodedPositions sc) i (vx p) (vy p) (vz p)) sc)
  end.

(** [function createChristmasTree()], as far as the buffers of the particle
    system go; the particle system is new, so its rotation is 0.  [pixels] is
    what the canvas of [generateTextParticles] shows, [rand k] is the value
    of call number [k] of [Math.random()]: the calls of the first loop, then
    those of [generateTextParticles], then those of the ring.  The result is
    [None] when the function throws. *)
Definition createChristmasTree (pixels : list Z) (rand : nat -> R) : option Scene :=
  let zeros := repeat 0 (PARTICLE_COUNT * 3) in
  let made := for_ PARTICLE_COUNT 0 (plantParticle rand)
                   (mkScene zeros zeros zeros zeros 0 0 0) in
  let textCalls := (PARTICLE_COUNT * 8)%nat in
  match generateTextParticles pixels textParticleCount 3
          (fun k => rand (textCalls + k)%nat) with
  | None => None
  | Some textParticles =>
      let ringCalls := (textCalls + textParticleCount * 4)%nat in
      for_ PARTICLE_COUNT 0 (layParticle rand textParticles ringCalls) (Some made)
  end.

(** Where the two loops put particle [i]. *)
Definition treePlace (rand : nat -> R) (i : nat) : Vector3 :=
  coneDistribution 5 2 (5 / 10) (rand (i * 8)%nat) (rand (i * 8 + 1)%nat)
                   (rand (i * 8 + 2)%nat).

Definition nebulaPlace (rand : nat -> R) (textParticles : list Vector3)
    (ringCalls : nat) (i : nat) : Vector3 :=
  if (i <? textParticleCount)%nat then
    vadd (nth i textParticles vzero) (mkVector3 0 (25 / 10) 0)
  else
    ringDistribution (8 + rand (ringCalls + (i - textParticleCount) * 3)%nat * 6) 4
                     (rand (ringCalls + (i - textParticleCount) * 3 + 1)%nat)
                     (rand (ringCalls + (i - textParticleCount) * 3 + 2)%nat).

(** [function createSnowflakes()], the position buffer.  A snowflake takes
    four values of [Math.random()]: three for its position and one for its
    brightness. *)
Definition createSnowflakes (rand : nat -> R) : list R :=
  for_ SNOWFLAKE_COUNT 0
    (fun i positions =>
       let p := randomDistribution 15 (rand (i * 4)%nat) (rand (i * 4 + 1)%nat)
                                   (rand (i * 4 + 2)%nat) in
       let p1 := aset positions (i * 3) (vx p) in
       let p2 := aset p1 (i * 3 + 1) (vy p) in
       aset p2 (i * 3 + 2) (vz p))
    (repeat 0 (SNOWFLAKE_COUNT * 3)).

(** [animate], "Snowflake falling animation": the body of the loop. *)
Definition fallSnowflake (time : R) (i : nat) (positions : list R) : list R :=
  let p1 := aset positions (i * 3 + 1) (aget positions (i * 3 + 1) - 1 / 100) in
  let p2 := aset p1 (i * 3) (aget p1 (i * 3) + sin (time + INR i) * (2 / 1000)) in
  if Rlt_dec (aget p2 (i * 3 + 1)) (-1) then aset p2 (i * 3 + 1) 10 else p2.

(** [animate], the snowflakes of one frame at clock [time]. *)
Definition animateSnowflakes (time : R) (positions : list R) : list R :=
  for_ SNOWFLAKE_COUNT 0 (fallSnowflake time) positions.

(** The snow over the frames drawn at the given clock readings. *)
Definition snowfall (times : list R) (positions : list R) : list R :=
  fold_left (fun positions' time => animateSnowflakes time positions') times positions.

(** The frames of [animate], one for every position of the pointer. *)
Definition frames (pointer : list Vector3) (w : World) : World :=
  fold_left (fun w' mousePos => animate mousePos w') pointer w.

(** *** Notions the properties are stated with *)

(** A particle is inside the cone of height 5 and base radius 2 that stands
    on the ground about the vertical axis. *)
Definition insideTree (p : Vector3) : Prop :=
  0 <= vy p < 5 /\ axisDistance p <= (1 - vy p / 5) * 2.

(** A particle is in the ring of the nebula. *)
Definition insideRing (p : Vector3) : Prop :=
  8 <= axisDistance p < 14 /\ 5 / 10 <= vy p <= 45 / 10.

(** A particle is on the text: within 0.1 along each axis of the place of a
    lit pixel of the canvas, at three times the scale, lifted by 2.5. *)
Definition onText (pixels : list Z) (p : Vector3) : Prop :=
  exists x y, litPixel pixels x y /\
    near p (vadd (pixelPosition 3 x y) (mkVector3 0 (25 / 10) 0)).

(** What a frame does to one snowflake. *)
Definition fallen (time : R) (i : nat) (p : Vector3) : Vector3 :=
  mkVector3 (vx p + sin (time + INR i) * (2 / 1000))
            (if Rlt_dec (vy p - 1 / 100) (-1) then 10 else vy p - 1 / 100)
            (vz p).

(** What a frame of the ripple does to the position and the velocity of a
    particle whose place in the tree is [o]. *)
Definition rippled (mousePos o : Vector3) (pv : Vector3 * Vector3)
  : Vector3 * Vector3 :=
  let force := calculateRippleForce o mousePos 1 (15 / 1000) in
  let v := vadd (snd pv) force in
  let p := vadd (fst pv) v in
  (vadd p (vscale (5 / 100) (vsub o p)), vscale (95 / 100) v).

End Scenery.

(** ** utils/handGesture.js, the camera switch and the detection loop

    The module beside its variables: the camera stream it holds, and how many
    streams it has left running.  The text of the info element is not
    modelled.  [startCamera] awaits the camera, the video and the model in
    turn; what each of them answers is an argument, and no other function of
    the module runs while it waits. *)
Module Camera.
Import HandGesture.
Local Open Scope Z_scope.

(** What an awaited promise does. *)
Inductive outcome : Type := Resolved | Rejected.

Record module : Type := mkModule {
  vars : state;             (* the module's variables *)
  mediaStream : bool;       (* [mediaStream] is a stream (not [null]) *)
  liveStreams : nat;        (* streams handed out by getUserMedia whose tracks
                               have not been stopped *)
  loops : nat               (* detectHands loops that have been started *)
}.

Definition set_vars (s : state) (m : module) : module :=
  mkModule s (mediaStream m) (liveStreams m) (loops m).

(** The module when the page has loaded. *)
Definition loaded : module := mkModule initial false 0 0.

(** [async function startCamera()]; it returns whether the camera runs. *)
Definition startCamera (getUserMedia play load : outcome) (m : module)
  : module * bool :=
  if isCameraActive (vars m) then (m, true)
  else
    match getUserMedia with
    | Rejected => (m, false)
    | Resolved =>
        (* mediaStream = stream *)
        let m1 := mkModule (vars m) true (S (liveStreams m)) (loops m) in
        match play with
        | Rejected => (m1, false)
        | Resolved =>
            match load with
            | Rejected => (m1, false)
            | Resolved =>
                (* handposeModel = await handpose.load(..); detectHands();
                   isCameraActive = true *)
                (mkModule (set_isCameraActive true (set_handposeModel true (vars m1)))
                          (mediaStream m1) (liveStreams m1) (S (loops m1)),
                 true)
            end
        end
    end.

(** [function stopCamera()] *)
Definition stopCamera (m : module) : module :=
  if negb (isCameraActive (vars m)) then m
  else
    (* if (mediaStream) { stop every track; mediaStream = null; } *)
    let live := if mediaStream m then (liveStreams m - 1)%nat else liveStreams m in
    mkModule (HandGesture.stopCamera (vars m)) false live (loops m).

(** [async function toggleCamera()] *)
Definition toggleCamera (getUserMedia play load : outcome) (m : module) : module :=
  if isCameraActive (vars m) then stopCamera m
  else fst (startCamera getUserMedia play load m).

(** [function toggleGestureDetection()] *)
Definition toggleGestureDetection (m : module) : module :=
  set_vars (set_isDetecting (negb (isDetecting (vars m))) (vars m)) m.

(** [function getCurrentGesture()] *)
Definition getCurrentGesture (m : module) : gesture := currentGesture (vars m).

(** What happens to the module: the page's camera button, a caller of
    [toggleGestureDetection], and the turns of the detection loop. *)
Inductive action : Type :=
  | ToggleCamera (getUserMedia play load : outcome)
  | ToggleGestureDetection
  | Turn (now : Z) (predictions : list prediction).

Definition act (a : action) (m : module) : module * list event :=
  match a with
  | ToggleCamera g p l => (toggleCamera g p l m, [])
  | ToggleGestureDetection => (toggleGestureDetection m, [])
  | Turn now predictions =>
      let (s, evs) := detectHands now predictions (vars m) in
      (set_vars s m, evs)
  end.

(** A list of actions in turn, with every event dispatched. *)
Fixpoint actAll (acts : list action) (m : module) : module * list event :=
  match acts with
  | [] => (m, [])
  | a :: rest =>
      let (m1, evs1) := act a m in
      let (m2, evs2) := actAll rest m1 in
      (m2, evs1 ++ evs2)
  end.

(** The camera button alone: what the page can do. *)
Definition pageAction (a : action) : Prop :=
  match a with
  | ToggleGestureDetection => False
  | _ => True
  end.

(** The streams left running that [stopCamera] does not stop: all of them
    when the camera counts as off, all but the one in use when it is on. *)
Definition strayStreams (m : module) : nat :=
  liveStreams m - (if isCameraActive (vars m) then 1 else 0).

(** What holds of the module whatever is done to it: while the camera counts
    as on, the module holds its stream, and the stream runs. *)
Definition holdsStream (m : module) : Prop :=
  isCameraActive (vars m) = true -> mediaStream m = true /\ (1 <= liveStreams m)%nat.

(** *** Notions the properties of the loop are stated with *)

(** The gesture events of a list, the first one after the label [previous]
    was announced at clock [since]: each announces another label than the one
    before it, and no sooner than the detection interval after it. *)
Fixpoint gesturesSpaced (previous : gesture) (since : Z) (evs : list event) : Prop :=
  match evs with
  | [] => True
  | GestureEvent g t :: rest =>
      g <> previous /\ since + GESTURE_DETECTION_INTERVAL <= t /\
      gesturesSpaced g t rest
  | SwipeEvent _ _ :: rest => gesturesSpaced previous since rest
  end.

(** The swipe events of a list, the first one after a swipe at clock [since]:
    each comes later than the swipe timeout after the one before it. *)
Fixpoint swipesSpaced (since : Z) (evs : list event) : Prop :=
  match evs with
  | [] => True
  | SwipeEvent _ t :: rest => since + palmSwipeTimeout < t /\ swipesSpaced t rest
  | GestureEvent _ _ :: rest => swipesSpaced since rest
  end.

End Camera.

(** ** The main module, the handlers of the page's events

    The listeners the main module registers for the gesture and swipe events
    of the detector and for the keyboard, and the wheel handler of the camera.
    A JavaScript string is the list of its characters; key names are ASCII. *)
Module Controls.
Import Geometry App Scenery.
Import Stdlib.Strings.Ascii.AsciiSyntax Stdlib.Strings.String.StringSyntax.
Local Delimit Scope string_scope with string.
Local Delimit Scope char_scope with char.
Local Open Scope R_scope.

Definition jsString : Type := list Ascii.ascii.

Definition str (s : String.string) : jsString := String.list_ascii_of_string s.
Arguments str s%_string.

(** [a === b] on strings. *)
Definition streq (a b : jsString) : bool :=
  if list_eq_dec Ascii.ascii_dec a b then true else false.

(** [function handleSwipe(direction)] *)
Definition handleSwipe (direction : HandGesture.direction) (w : World) : World :=
  let state := store w in
  if phase_eqb (phase state) nebula then
    let rotationDirection :=
      match direction with HandGesture.swipe_right => 1 | _ => -1 end in
    rotateCarousel rotationDirection w
  else w.

(** [function handleGesture(gesture)]; the thumbs up and the pointing finger
    are logged to the console, and the label ['none'] has no case. *)
Definition handleGesture (gesture : HandGesture.gesture) (w : World) : World :=
  match gesture with
  | HandGesture.fist => triggerCollapsing w
  | HandGesture.open_palm => triggerBlooming w
  | HandGesture.thumbs_up => w
  | HandGesture.victory => rotateCarousel 1 w
  | HandGesture.point => w
  | HandGesture.none => w
  end.

(** The two listeners set up after [init()]:
    [document.addEventListener('gesture', (event) => handleGesture(event.detail.gesture))]
    and [document.addEventListener('swipe', (event) => handleSwipe(event.detail.direction))]. *)
Definition dispatchEvent (e : HandGesture.event) (w : World) : World :=
  match e with
  | HandGesture.GestureEvent gesture _ => handleGesture gesture w
  | HandGesture.SwipeEvent direction _ => handleSwipe direction w
  end.

(** The events of a turn of the detector, in the order of their dispatch. *)
Definition dispatchAll (evs : list HandGesture.event) (w : World) : World :=
  fold_left (fun w' e => dispatchEvent e w') evs w.

(** *** The hidden envelope: the second [keydown] listener *)

Definition SECRET_SEQUENCE : jsString := str "xsh".

(** [String.prototype.toLowerCase], on ASCII. *)
Definition toLowerCaseChar (c : Ascii.ascii) : Ascii.ascii :=
  let n := Ascii.nat_of_ascii c in
  if (65 <=? n)%nat && (n <=? 90)%nat then Ascii.ascii_of_nat (n + 32) else c.
Definition toLowerCase (s : jsString) : jsString := map toLowerCaseChar s.

(** [s.slice(-n)]: the last [n] characters, all of them when there are
    fewer. *)
Definition sliceLast (n : nat) (s : jsString) : jsString :=
  skipn (length s - n) s.

(** What the listener calls. *)
Inductive EnvelopeCall : Type := ShowEnvelope | HideEnvelope.

(** The listener on one key: the new [currentKeySequence] and the call it
    makes, if any. *)
Definition onSequenceKey (e_key : jsString) (currentKeySequence : jsString)
  : jsString * list EnvelopeCall :=
  let key := toLowerCase e_key in
  if streq key (str "c") then (currentKeySequence, [HideEnvelope])
  else
    let seq1 := currentKeySequence ++ key in
    let seq2 := if (length SECRET_SEQUENCE <? length seq1)%nat
                then sliceLast (length SECRET_SEQUENCE) seq1 else seq1 in
    if streq seq2 SECRET_SEQUENCE then ([], [ShowEnvelope])
    else (seq2, []).

(** The listener over the keys pressed in turn. *)
Fixpoint typeKeys (keys : list jsString) (currentKeySequence : jsString)
  : jsString * list EnvelopeCall :=
  match keys with
  | [] => (currentKeySequence, [])
  | key :: rest =>
      let (seq1, calls1) := onSequenceKey key currentKeySequence in
      let (seq2, calls2) := typeKeys rest seq1 in
      (seq2, calls1 ++ calls2)
  end.

(** *** The wheel

    [THREE.Vector3] as the handler uses it: [subVectors] ([vsub]), [length]
    ([vlength]), [normalize] (which divides by the length, or by 1 when the
    length is 0), [multiplyScalar] ([vscale]), and [copy] with [add]
    ([vadd]). *)
Definition normalize (v : Vector3) : Vector3 :=
  let len := if Req_dec_T (vlength v) 0 then 1 else vlength v in
  vscale (1 / len) v.

(** [camera.position] and [cameraTarget]. *)
Record Rig : Type := mkRig { cameraPosition : Vector3; cameraTarget : Vector3 }.

(** [function onWheel(event)]; [deltaY] is [event.deltaY]. *)
Definition onWheel (deltaY : R) (rig : Rig) : Rig :=
  let zoomSpeed := 1 / 10 in
  let cameraToTarget := vsub (cameraPosition rig) (cameraTarget rig) in
  let distance := vlength cameraToTarget in
  let delta := if Rlt_dec 0 deltaY then zoomSpeed else - zoomSpeed in
  let distance' := Rmax 5 (Rmin 30 (distance + delta)) in
  let cameraToTarget' := vscale distance' (normalize cameraToTarget) in
  mkRig (vadd (cameraTarget rig) cameraToTarget') (cameraTarget rig).

(** The wheel turned once for every entry of a list. *)
Definition wheel (deltas : list R) (rig : Rig) : Rig :=
  fold_left (fun rig' deltaY => onWheel deltaY rig') deltas rig.

(** The distance of the camera from its target. *)
Definition cameraDistance (rig : Rig) : R :=
  distance (cameraPosition rig) (cameraTarget rig).

(** *** The click on a photo

    A [THREE.Object3D] as the click handler sees it: [userData.index] (a
    number, or [undefined]), [position], and [parent] (an object, or
    [null]). *)
Inductive Object3D : Type :=
  | orphan (userData_index : option nat) (position : Vector3)   (* parent: null *)
  | child (userData_index : option nat) (position : Vector3) (parent : Object3D).

Definition position_of (o : Object3D) : Vector3 :=
  match o with
  | orphan _ position | child _ position _ => position
  end.

(** A value taken for true in a condition: a number other than 0. *)
Definition truthy (v : option nat) : bool :=
  match v with
  | Some (S _) => true
  | Some O | None => false
  end.

(** [while (frame && !frame.userData.index) { frame = frame.parent; }] *)
Fixpoint findFrame (frame : Object3D) : option Object3D :=
  match frame with
  | orphan index _ => if truthy index then Some frame else None
  | child index _ parent => if truthy index then Some frame else findFrame parent
  end.

(** [function onClick(event)]; [intersects] is what the raycaster hits, the
    nearest first.  The result is the frame [focusOnPhoto] is called with, if
    it is called. *)
Definition onClick (intersects : list Object3D) (w : World) : option Object3D :=
  let state := store w in
  if negb (phase_eqb (phase state) nebula) then None
  else
    match intersects with
    | [] => None
    | hit :: _ =>
        let clickedObject := hit in
        findFrame clickedObject
    end.

(** The objects [createPhotos] makes for photo [i]: the scene, the photo
    group added to it, the frame added to the group with [userData.index = i]
    on its slot of the ring, and the photo added to the frame (at
    [position.z = 0.03]; its height is set when its texture has loaded, and
    plays no part in the click). *)
Definition sceneObject : Object3D := orphan None (mkVector3 0 0 0).
Definition photoGroupObject : Object3D := child None (mkVector3 0 0 0) sceneObject.
Definition frameObject (i : nat) : Object3D :=
  child (Some i)
        (Distributions.position
           (Distributions.photoRingPosition (INR i) PHOTO_COUNT 12))
        photoGroupObject.
Definition photoObject (i : nat) : Object3D :=
  child None (mkVector3 0 0 (3 / 100)) (frameObject i).

(** [function focusOnPhoto(photo)]: the camera's target is set to the photo,
    and a tween is started that takes the camera to the position that is the
    second component of the result. *)
Definition focusOnPhoto (photo : Object3D) (rig : Rig) : Rig * Vector3 :=
  let photoPosition := position_of photo in
  let photoDirection := normalize (position_of photo) in
  let targetCameraPosition := vadd photoPosition (vscale (-3) photoDirection) in
  let targetLookAt := photoPosition in
  (mkRig (cameraPosition rig) targetLookAt, targetCameraPosition).

(** The rig once the tween of [focusOnPhoto] has run to its end. *)
Definition focused (photo : Object3D) (rig : Rig) : Rig :=
  mkRig (snd (focusOnPhoto photo rig)) (cameraTarget (fst (focusOnPhoto photo rig))).

(** *** The camera in the gestures and the keys

    [triggerBlooming], [triggerCollapsing] and [onDoubleClick] move the
    camera: each starts a tween of [camera.position] and sets [cameraTarget].
    ([camera.lookAt], which turns the camera and does not move it, is left
    out.)  A tween is given by the properties it names, each with the value
    it runs to, and its duration in seconds. *)
Record CameraTween : Type := mkCameraTween {
  to_x : option R;
  to_y : option R;
  to_z : option R;
  seconds : R
}.

(** [let cameraOriginalPosition = new THREE.Vector3(0, 2, 8);]
    [let cameraOriginalLookAt = new THREE.Vector3(0, 2, 0);] *)
Definition cameraOriginalPosition : Vector3 := mkVector3 0 2 8.
Definition cameraOriginalLookAt : Vector3 := mkVector3 0 2 0.

(** [function onDoubleClick()]: the new rig and the tween it starts.  It
    asks for no phase. *)
Definition onDoubleClick (rig : Rig) : Rig * list CameraTween :=
  (* Reset camera to original position and lookAt *)
  let started := mkCameraTween (Some (vx cameraOriginalPosition))
                               (Some (vy cameraOriginalPosition))
                               (Some (vz cameraOriginalPosition)) (15 / 10) in
  (* Reset camera target *)
  (mkRig (cameraPosition rig) cameraOriginalLookAt, [started]).

(** [triggerBlooming], "Camera movement" and
    [cameraTarget.set(0, 2, 0)], behind the guard of the function. *)
Definition triggerBlooming_camera (w : World) (rig : Rig) : Rig * list CameraTween :=
  if negb (phase_eqb (phase (store w)) tree) then (rig, [])
  else (mkRig (cameraPosition rig) (mkVector3 0 2 0),
        [mkCameraTween None (Some 3) (Some 20) (25 / 10)]).

(** [triggerCollapsing], "Camera movement - restore to original position
    and look at tree" and [cameraTarget.set(0, 2, 0)], behind the guard of
    the function. *)
Definition triggerCollapsing_camera (w : World) (rig : Rig) : Rig * list CameraTween :=
  if negb (phase_eqb (phase (store w)) nebula) then (rig, [])
  else (mkRig (cameraPosition rig) (mkVector3 0 2 0),
        [mkCameraTween (Some 0) (Some 2) (Some 8) (25 / 10)]).

(** What [handleGesture] and the two listeners of the detector's events do
    to the camera; [rotateCarousel] does nothing to it. *)
Definition handleGesture_camera (gesture : HandGesture.gesture) (w : World) (rig : Rig)
  : Rig * list CameraTween :=
  match gesture with
  | HandGesture.fist => triggerCollapsing_camera w rig
  | HandGesture.open_palm => triggerBlooming_camera w rig
  | _ => (rig, [])
  end.

Definition dispatchEvent_camera (e : HandGesture.event) (w : World) (rig : Rig)
  : Rig * list CameraTween :=
  match e with
  | HandGesture.GestureEvent gesture _ => handleGesture_camera gesture w rig
  | HandGesture.SwipeEvent _ _ => (rig, [])
  end.

(** "Keyboard shortcuts for testing": the first [keydown] listener, once
    [init()] is through.  The result is the world, the rig, and the tweens
    of [camera.position] the key has started. *)
Definition onKeyDown (key : jsString) (w : World) (rig : Rig)
  : World * (Rig * list CameraTween) :=
  if streq key (str "o") || streq key (str "O") then
    (triggerBlooming w, triggerBlooming_camera w rig)
  else if streq key (str "c") || streq key (str "C") then
    (triggerCollapsing w, triggerCollapsing_camera w rig)
  else if streq key (str "ArrowLeft") then (rotateCarousel (-1) w, (rig, []))
  else if streq key (str "ArrowRight") then (rotateCarousel 1 w, (rig, []))
  else if streq key (str "r") || streq key (str "R") then (w, onDoubleClick rig)
  else (w, (rig, [])).

End Controls.

(* ================================================================== *)
(** * Part II: the properties *)
(* ================================================================== *)

Module Float64Facts.
Import Stdlib.Floats.Floats.
Import Float64.
Local Open Scope float_scope.

(** A finite binary64 number is a zero or has a mantissa and an exponent. *)
Lemma finite_shape x :
  is_finite x = true ->
  (exists sg, Prim2SF x = S754_zero sg) \/
  (exists sg m e, Prim2SF x = S754_finite sg m e).
Proof.
  unfold is_finite, is_nan, is_infinity. rewrite !eqb_spec, abs_spec.
  change (Prim2SF infinity) with (S754_infinity false).
  destruct (Prim2SF x) as [sg | sg | | sg m e]; intros H.
  - left. now exists sg.
  - destruct sg; discriminate H.
  - discriminate H.
  - right. now exists sg, m, e.
Qed.

Lemma sub_self x : is_finite x = true -> x - x = 0.
Proof.
  intros H. apply Prim2SF_inj. rewrite sub_spec.
  change (Prim2SF 0) with (S754_zero false).
  destruct (finite_shape x H) as [(sg & E) | (sg & m & e & E)]; rewrite E.
  - destruct sg; reflexivity.
  - unfold SF64sub, SFsub. cbv zeta. rewrite Z.sub_diag. reflexivity.
Qed.

Lemma zero_times_finite f :
  is_finite f = true -> is_nan (0 * f) = false /\ is_zero (0 * f) = true.
Proof.
  intros H. unfold is_nan, is_zero. rewrite !eqb_spec, mul_spec.
  change (Prim2SF 0) with (S754_zero false). change (Prim2SF zero) with (S754_zero false).
  destruct (finite_shape f H) as [(sg & E) | (sg & m & e & E)]; rewrite E;
    destruct sg; split; reflexivity.
Qed.

(** The program's numbers: with the point at the interaction point, finite
    coordinates and a finite force factor, every component of the force is a
    zero and none is NaN. *)
Lemma ripple64_at_mouse (c : Vector3) (m s : float) :
  is_finite (vx c) = true -> is_finite (vy c) = true -> is_finite (vz c) = true ->
  is_finite ((m - 0) * s) = true ->
  has_nan (calculateRippleForce c c m s) = false /\
  is_zero (vx (calculateRippleForce c c m s)) = true /\
  is_zero (vy (calculateRippleForce c c m s)) = true /\
  is_zero (vz (calculateRippleForce c c m s)) = true.
Proof.
  intros Hx Hy Hz Hf. unfold calculateRippleForce, has_nan; cbv zeta.
  rewrite (sub_self _ Hx), (sub_self _ Hy), (sub_self _ Hz).
  replace (PrimFloat.sqrt (0 * 0 + 0 * 0 + 0 * 0)) with 0 by reflexivity.
  destruct (0 <? m); cbn [vx vy vz].
  - destruct (zero_times_finite _ Hf) as (-> & ->). repeat split.
  - repeat split.
Qed.

(** Finiteness of the force factor is needed: with an infinite [maxDistance]
    the factor is infinite, and zero times infinity is NaN. *)
Example ripple64_infinite_reach :
  has_nan (calculateRippleForce samplePoint samplePoint infinity
             particleForceMultiplier) = true.
Proof. vm_compute. reflexivity. Qed.

End Float64Facts.

Module GeometryFacts.
Import Geometry.
Local Open Scope R_scope.

Lemma ripple_far p c m s :
  m <= distance p c -> calculateRippleForce p c m s = vzero.
Proof.
  unfold distance, calculateDistance, calculateRippleForce; cbv zeta; intros H.
  destruct (Rlt_dec _ m) as [Hlt | _]; [lra | reflexivity].
Qed.

Lemma ripple_near p c m s :
  distance p c < m ->
  calculateRippleForce p c m s = vscale ((m - distance p c) * s) (vsub p c).
Proof.
  unfold distance, calculateDistance, calculateRippleForce; cbv zeta; intros H.
  destruct (Rlt_dec _ m) as [_ | Hge]; [reflexivity | lra].
Qed.

Lemma vlength_vzero : vlength vzero = 0.
Proof.
  unfold vlength, vzero. cbn.
  replace (0 * 0 + 0 * 0 + 0 * 0) with 0 by ring. apply sqrt_0.
Qed.

Lemma vlength_nonneg v : 0 <= vlength v.
Proof. apply sqrt_pos. Qed.

Lemma ripple_at_mouse c m s : calculateRippleForce c c m s = vzero.
Proof.
  unfold calculateRippleForce; cbv zeta.
  destruct (Rlt_dec _ m); [| reflexivity].
  unfold vzero. f_equal; ring.
Qed.

Lemma distance_unit : distance (mkVector3 1 0 0) (mkVector3 0 0 0) = 1.
Proof.
  unfold distance, calculateDistance. cbn.
  replace ((1 - 0) * (1 - 0) + (0 - 0) * (0 - 0) + (0 - 0) * (0 - 0)) with 1 by ring.
  apply sqrt_1.
Qed.

(** C2, as the program has it.  At a distance of [maxDistance] or more the
    force is the zero vector; below it the force is
    [(p - c) * (maxDistance - distance) * strength].  For a strength that is
    not negative this is a push: a non-negative multiple of [p - c]. *)
Theorem C2_ripple_force :
  forall (p c : Vector3) (m s : R),
    (m <= distance p c -> calculateRippleForce p c m s = vzero) /\
    (distance p c < m ->
     calculateRippleForce p c m s = vscale ((m - distance p c) * s) (vsub p c)) /\
    (0 <= s -> pushes_away (calculateRippleForce p c m s) p c).
Proof.
  intros p c m s. split; [apply ripple_far |]. split; [apply ripple_near |].
  intros Hs. destruct (Rlt_le_dec (distance p c) m) as [Hlt | Hge].
  - exists ((m - distance p c) * s). split; [| now apply ripple_near].
    apply Rmult_le_pos; lra.
  - exists 0. split; [lra |]. rewrite (ripple_far _ _ _ _ Hge).
    unfold vzero, vscale. f_equal; ring.
Qed.

Lemma C2_witness :
  distance (mkVector3 1 0 0) (mkVector3 0 0 0) < 2 /\ 0 <= 3 /\
  calculateRippleForce (mkVector3 1 0 0) (mkVector3 0 0 0) 2 3
  = vscale ((2 - distance (mkVector3 1 0 0) (mkVector3 0 0 0)) * 3)
           (vsub (mkVector3 1 0 0) (mkVector3 0 0 0)) /\
  pushes_away (calculateRippleForce (mkVector3 1 0 0) (mkVector3 0 0 0) 2 3)
              (mkVector3 1 0 0) (mkVector3 0 0 0).
Proof.
  assert (Hd : distance (mkVector3 1 0 0) (mkVector3 0 0 0) < 2)
    by (rewrite distance_unit; lra).
  split; [exact Hd |]. split; [lra |].
  destruct (C2_ripple_force (mkVector3 1 0 0) (mkVector3 0 0 0) 2 3)
    as (_ & Hnear & Hpush).
  split; [apply Hnear; exact Hd | apply Hpush; lra].
Defined.

(** C2 as stated fails for a negative strength: the force on a point at
    distance 1 with [maxDistance] 2 and strength -1 is [(-1, 0, 0)], which
    points from the point to the interaction point. *)
Lemma C2_counterexample_negative_strength :
  let p := mkVector3 1 0 0 in
  let c := mkVector3 0 0 0 in
  calculateRippleForce p c 2 (-1) = mkVector3 (-1) 0 0 /\
  pulls_toward (calculateRippleForce p c 2 (-1)) p c /\
  ~ pushes_away (calculateRippleForce p c 2 (-1)) p c.
Proof.
  cbv zeta.
  assert (E : calculateRippleForce (mkVector3 1 0 0) (mkVector3 0 0 0) 2 (-1)
              = mkVector3 (-1) 0 0).
  { rewrite ripple_near by (rewrite distance_unit; lra).
    rewrite distance_unit. unfold vscale, vsub. cbn. f_equal; ring. }
  rewrite E. split; [reflexivity |]. split; [split |].
  - unfold vsub, vzero. cbn. intros H. injection H as H. lra.
  - exists (-1). split; [lra |]. unfold vscale, vsub. cbn. f_equal; ring.
  - intros (k & Hk & H). unfold vscale, vsub in H. cbn in H.
    injection H as H _ _. lra.
Qed.

(** C9, as the program has it.  With the point at the interaction point the
    force is the zero vector.  Its magnitude is 0, the least of all the
    magnitudes the function returns, not the greatest.  No component is NaN:
    over binary64, with finite coordinates and a finite force factor
    [(maxDistance - 0) * forceMultiplier], every component is a zero. *)
Theorem C9_force_at_interaction_point :
  (forall (c : Vector3) (m s : R),
     calculateRippleForce c c m s = vzero /\
     vlength (calculateRippleForce c c m s) = 0 /\
     (forall p, vlength (calculateRippleForce c c m s)
                <= vlength (calculateRippleForce p c m s))) /\
  (forall (c : Float64.Vector3) (m s : PrimFloat.float),
     PrimFloat.is_finite (Float64.vx c) = true ->
     PrimFloat.is_finite (Float64.vy c) = true ->
     PrimFloat.is_finite (Float64.vz c) = true ->
     PrimFloat.is_finite (PrimFloat.mul (PrimFloat.sub m PrimFloat.zero) s) = true ->
     Float64.has_nan (Float64.calculateRippleForce c c m s) = false /\
     PrimFloat.is_zero (Float64.vx (Float64.calculateRippleForce c c m s)) = true /\
     PrimFloat.is_zero (Float64.vy (Float64.calculateRippleForce c c m s)) = true /\
     PrimFloat.is_zero (Float64.vz (Float64.calculateRippleForce c c m s)) = true).
Proof.
  split.
  - intros c m s. rewrite ripple_at_mouse, vlength_vzero.
    split; [reflexivity |]. split; [reflexivity |].
    intros p. apply vlength_nonneg.
  - intros c m s. apply Float64Facts.ripple64_at_mouse.
Qed.

Lemma C9_witness :
  PrimFloat.is_finite
    (PrimFloat.mul (PrimFloat.sub Float64.particleMaxDistance PrimFloat.zero)
                   Float64.particleForceMultiplier) = true /\
  Float64.has_nan
    (Float64.calculateRippleForce Float64.samplePoint Float64.samplePoint
       Float64.particleMaxDistance Float64.particleForceMultiplier) = false.
Proof.
  split; [reflexivity |].
  destruct C9_force_at_interaction_point as (_ & Hfloat).
  apply (Hfloat Float64.samplePoint Float64.particleMaxDistance
           Float64.particleForceMultiplier); reflexivity.
Defined.

(** C9 as stated fails: with [maxDistance] 2 and strength 1 the force at
    distance 1 has magnitude 1, the force at distance 0 has magnitude 0. *)
Lemma C9_counterexample_not_maximal :
  let c := mkVector3 0 0 0 in
  let p := mkVector3 1 0 0 in
  distance c c = 0 /\ distance p c = 1 /\ 1 < 2 /\
  vlength (calculateRippleForce c c 2 1) = 0 /\
  vlength (calculateRippleForce p c 2 1) = 1 /\
  vlength (calculateRippleForce c c 2 1) < vlength (calculateRippleForce p c 2 1).
Proof.
  cbv zeta.
  assert (E0 : vlength (calculateRippleForce (mkVector3 0 0 0) (mkVector3 0 0 0) 2 1) = 0)
    by (rewrite ripple_at_mouse; apply vlength_vzero).
  assert (E1 : vlength (calculateRippleForce (mkVector3 1 0 0) (mkVector3 0 0 0) 2 1) = 1).
  { rewrite ripple_near by (rewrite distance_unit; lra).
    rewrite distance_unit. unfold vlength, vscale, vsub. cbn.
    replace ((1 - 0) * ((2 - 1) * 1) * ((1 - 0) * ((2 - 1) * 1))
             + (0 - 0) * ((2 - 1) * 1) * ((0 - 0) * ((2 - 1) * 1))
             + (0 - 0) * ((2 - 1) * 1) * ((0 - 0) * ((2 - 1) * 1)))
      with 1 by ring.
    apply sqrt_1. }
  split.
  { unfold distance, calculateDistance. cbn.
    replace ((0 - 0) * (0 - 0) + (0 - 0) * (0 - 0) + (0 - 0) * (0 - 0)) with 0 by ring.
    apply sqrt_0. }
  split; [apply distance_unit |]. split; [lra |].
  split; [exact E0 |]. split; [exact E1 |]. rewrite E0, E1. lra.
Qed.

End GeometryFacts.

Module HandGestureFacts.
Import HandGesture.
Local Open Scope Z_scope.

Lemma Qltb_lt (a b : Q) : Qltb a b = true <-> (a < b)%Q.
Proof.
  unfold Qltb. rewrite negb_true_iff, <- not_true_iff_false, Qle_bool_iff.
  split; [apply Qnot_le_lt | apply Qlt_not_le].
Qed.

Lemma Qltb_ge (a b : Q) : Qltb a b = false <-> (b <= a)%Q.
Proof.
  unfold Qltb. rewrite negb_false_iff. apply Qle_bool_iff.
Qed.

Lemma gesture_eqb_eq (a b : gesture) : gesture_eqb a b = true <-> a = b.
Proof. destruct a, b; simpl; split; congruence. Qed.

Lemma gesture_eqb_refl (a : gesture) : gesture_eqb a a = true.
Proof. now apply gesture_eqb_eq. Qed.

Section WellFormedHand.
Variable lms : list landmark.
Hypothesis wf : length lms = 21%nat.

Lemma landmark_at (i : nat) : (i < 21)%nat -> nth_error lms i = Some (lm lms i).
Proof. intros Hi. apply nth_error_nth'. lia. Qed.

Lemma isFingerOpen_thumb pip dip tip :
  (tip < 21)%nat ->
  isFingerOpen lms (THUMB_CMC, pip, dip, tip)
  = Some (Qltb (lx (lm lms THUMB_CMC)) (lx (lm lms tip))).
Proof.
  intros Ht. unfold isFingerOpen, bind.
  rewrite (landmark_at THUMB_CMC), (landmark_at tip) by (unfold THUMB_CMC; lia).
  reflexivity.
Qed.

Lemma isFingerOpen_other mcp pip dip tip :
  (mcp < 21)%nat -> (tip < 21)%nat -> mcp <> THUMB_CMC ->
  isFingerOpen lms (mcp, pip, dip, tip)
  = Some (Qltb (ly (lm lms tip)) (ly (lm lms mcp))).
Proof.
  intros Hm Ht Hne. unfold isFingerOpen, bind.
  rewrite (landmark_at mcp), (landmark_at tip) by lia.
  apply Nat.eqb_neq in Hne. rewrite Hne. reflexivity.
Qed.

Lemma palmCenter_centroid : palmCenter lms = Some (palmCentroid lms).
Proof.
  unfold palmCenter, palmLandmarks, sumPalm, bind.
  rewrite !landmark_at by (unfold WRIST, THUMB_CMC, INDEX_FINGER_MCP,
    MIDDLE_FINGER_MCP, RING_FINGER_MCP, PINKY_MCP; lia).
  reflexivity.
Qed.

Lemma drawHand_ok hand : landmarks hand = lms -> drawHand hand = Some tt.
Proof.
  intros E. unfold drawHand, HAND_CONNECTIONS. rewrite E. cbn [forallb fst snd].
  rewrite !landmark_at by lia. reflexivity.
Qed.

End WellFormedHand.

(** The flags the program computes are the flags the hand shows. *)
Lemma shows_flags lms f :
  shows lms f ->
  thumbOpen f = Qltb (lx (lm lms THUMB_CMC)) (lx (lm lms THUMB_TIP)) /\
  indexOpen f = Qltb (ly (lm lms INDEX_FINGER_TIP)) (ly (lm lms INDEX_FINGER_MCP)) /\
  middleOpen f = Qltb (ly (lm lms MIDDLE_FINGER_TIP)) (ly (lm lms MIDDLE_FINGER_MCP)) /\
  ringOpen f = Qltb (ly (lm lms RING_FINGER_TIP)) (ly (lm lms RING_FINGER_MCP)) /\
  pinkyOpen f = Qltb (ly (lm lms PINKY_TIP)) (ly (lm lms PINKY_MCP)).
Proof.
  unfold shows, tipAboveBase, tipBeyondBase.
  intros (Ht & Hi & Hm & Hr & Hp).
  rewrite <- Qltb_lt in Ht, Hi, Hm, Hr, Hp.
  repeat split; apply eq_true_iff_eq; assumption.
Qed.

Lemma detectPalmSwipe_cases lms now s :
  length lms = 21%nat ->
  let c := palmCentroid lms in
  let delta := (palm_x c - palm_x (match lastPalmPosition s with
                                   | Some last => last | None => c end))%Q in
  exists s' evs,
    detectPalmSwipe lms now s = Some (s', evs) /\ sameGestureFields s s' /\
    ((lastPalmPosition s <> None /\ palmSwipeTimeout < now - lastSwipeTime s /\
      (swipeThreshold < Qabs delta)%Q /\
      evs = [SwipeEvent (if Qltb 0 delta then swipe_right else swipe_left) now] /\
      lastPalmPosition s' = None /\ lastSwipeTime s' = now)
     \/
     ((lastPalmPosition s = None \/ now - lastSwipeTime s <= palmSwipeTimeout \/
       (Qabs delta <= swipeThreshold)%Q) /\
      evs = [] /\ lastPalmPosition s' = Some c /\ lastSwipeTime s' = lastSwipeTime s)).
Proof.
  intros wf c delta. unfold detectPalmSwipe, bind.
  rewrite (palmCenter_centroid lms wf). fold c.
  destruct (lastPalmPosition s) as [last |] eqn:El.
  - destruct (palmSwipeTimeout <? now - lastSwipeTime s) eqn:Et.
    + apply Z.ltb_lt in Et. fold delta.
      destruct (Qltb swipeThreshold (Qabs delta)) eqn:Ed.
      * apply Qltb_lt in Ed. eexists _, _. split; [reflexivity |].
        split; [repeat split |]. left. repeat split; try assumption. congruence.
      * apply Qltb_ge in Ed. eexists _, _. split; [reflexivity |].
        split; [repeat split |]. right. repeat split. right; right; assumption.
    + apply Z.ltb_ge in Et. eexists _, _. split; [reflexivity |].
      split; [repeat split |]. right. repeat split. right; left; assumption.
  - eexists _, _. split; [reflexivity |].
    split; [repeat split |]. right. repeat split. left; reflexivity.
Qed.

(** The chain of [if]s computes the label of the rules; only the open palm
    looks for a swipe, every other label resets the tracked palm. *)
Lemma determineGesture_label lms now s f :
  length lms = 21%nat ->
  exists s1 swipes,
    determineGesture (thumbOpen f) (indexOpen f) (middleOpen f) (ringOpen f)
                     (pinkyOpen f) lms now s
    = Some (labelOf f, s1, swipes) /\
    sameGestureFields s s1 /\
    (labelOf f = open_palm -> detectPalmSwipe lms now s = Some (s1, swipes)) /\
    (labelOf f <> open_palm -> s1 = set_lastPalmPosition None s /\ swipes = []).
Proof.
  intros wf.
  destruct (detectPalmSwipe_cases lms now s wf) as (sp & evp & Ep & Hsame & _).
  destruct f as [[] [] [] [] []]; cbn;
    try (eexists _, _; split; [reflexivity |];
         split; [repeat split |]; split; [discriminate | intros _; split; reflexivity]).
  rewrite Ep. cbn. exists sp, evp. split; [reflexivity |].
  split; [assumption |]. split; [reflexivity | congruence].
Qed.

(** One tick with a hand in view, in terms of the rules. *)
Lemma detectHands_hand s now hand others f :
  length (landmarks hand) = 21%nat ->
  detectionTick now s ->
  shows (landmarks hand) f ->
  exists s1 swipes,
    detectHands now (hand :: others) s
    = updateCurrentGesture (labelOf f) now s1 swipes /\
    sameGestureFields s s1 /\
    (labelOf f = open_palm ->
     detectPalmSwipe (landmarks hand) now s = Some (s1, swipes)) /\
    (labelOf f <> open_palm -> s1 = set_lastPalmPosition None s /\ swipes = []).
Proof.
  intros wf (Hdet & Hmodel & Hint) Hshows.
  destruct (shows_flags _ _ Hshows) as (Et & Ei & Em & Er & Ep).
  destruct (determineGesture_label (landmarks hand) now s f wf)
    as (s1 & swipes & Edet & Hsame & Hopen & Hother).
  exists s1, swipes. split; [| auto].
  unfold detectHands. rewrite Hdet, Hmodel. cbn [negb orb].
  rewrite (drawHand_ok _ wf hand eq_refl). cbn [bind].
  unfold detectGesture.
  apply Z.ltb_ge in Hint. rewrite Hint.
  rewrite (isFingerOpen_thumb _ wf) by (unfold THUMB_TIP; lia).
  rewrite !(isFingerOpen_other _ wf)
    by (unfold INDEX_FINGER_MCP, INDEX_FINGER_TIP, MIDDLE_FINGER_MCP,
        MIDDLE_FINGER_TIP, RING_FINGER_MCP, RING_FINGER_TIP, PINKY_MCP,
        PINKY_TIP, THUMB_CMC; lia).
  cbn [bind]. rewrite <- Et, <- Ei, <- Em, <- Er, <- Ep, Edet. reflexivity.
Qed.

Lemma updateCurrentGesture_current g now s evs :
  currentGesture (fst (updateCurrentGesture g now s evs)) = g.
Proof.
  unfold updateCurrentGesture. cbn.
  destruct (negb (gesture_eqb g (previousGesture s))); reflexivity.
Qed.

Lemma updateCurrentGesture_palm g now s evs :
  lastPalmPosition (fst (updateCurrentGesture g now s evs)) = lastPalmPosition s /\
  lastSwipeTime (fst (updateCurrentGesture g now s evs)) = lastSwipeTime s.
Proof.
  unfold updateCurrentGesture. cbn.
  destruct (negb (gesture_eqb g (previousGesture s))); split; reflexivity.
Qed.

Lemma updateCurrentGesture_swipes g now s evs :
  swipeEvents (snd (updateCurrentGesture g now s evs)) = swipeEvents evs.
Proof.
  unfold updateCurrentGesture, swipeEvents, triggerGestureEvent. cbn.
  destruct (negb (gesture_eqb g (previousGesture s))); cbn [snd]; [| reflexivity].
  rewrite filter_app. cbn. apply app_nil_r.
Qed.

(** The edge: with a hand in view, a gesture event is dispatched exactly when
    the label differs from [previousGesture], and [previousGesture] follows. *)
Lemma updateCurrentGesture_edge g now s evs :
  (forall e, In e evs -> exists d t, e = SwipeEvent d t) ->
  let r := updateCurrentGesture g now s evs in
  (g <> previousGesture s ->
   gestureEvents (snd r) = [GestureEvent g now] /\ previousGesture (fst r) = g) /\
  (g = previousGesture s ->
   gestureEvents (snd r) = [] /\ previousGesture (fst r) = previousGesture s).
Proof.
  intros Hsw r.
  assert (Hnone : gestureEvents evs = []).
  { unfold gestureEvents. clear r. induction evs as [| e evs' IH]; [reflexivity |].
    cbn. destruct (Hsw e (or_introl eq_refl)) as (d & t & ->).
    apply IH. intros e' He'. apply Hsw. now right. }
  subst r. unfold updateCurrentGesture. cbn [currentGesture previousGesture
    set_currentGesture set_previousGesture set_lastGestureTime].
  split; intros Hg.
  - destruct (gesture_eqb g (previousGesture s)) eqn:E.
    + apply gesture_eqb_eq in E. contradiction.
    + cbn. unfold gestureEvents, triggerGestureEvent in *.
      rewrite filter_app, Hnone. split; reflexivity.
  - rewrite <- Hg, gesture_eqb_refl. cbn. split; [assumption | congruence].
Qed.

Lemma sampleHand_length x reach tipY : length (landmarks (sampleHand x reach tipY)) = 21%nat.
Proof. reflexivity. Qed.

Lemma detectionTick_started now : 100 <= now -> detectionTick now started.
Proof. intros H. unfold detectionTick, GESTURE_DETECTION_INTERVAL. cbn. repeat split. lia. Qed.

Lemma openPalmAt_shows :
  shows (landmarks (openPalmAt 100)) (mkFingers true true true true true).
Proof.
  unfold shows, tipAboveBase, tipBeyondBase. cbn.
  repeat split; intros _; reflexivity.
Qed.

(** A swipe check that has no tracked palm dispatches nothing. *)
Lemma detectHands_untracked now predictions s :
  lastPalmPosition s = None ->
  swipeEvents (snd (detectHands now predictions s)) = [].
Proof.
  intros Hnone. unfold detectHands.
  destruct (negb (isDetecting s) || negb (handposeModel s)); [reflexivity |].
  destruct predictions as [| hand others]; [reflexivity |].
  destruct (drawHand hand); cbn [bind]; [| reflexivity].
  unfold detectGesture.
  destruct (now - lastGestureTime s <? GESTURE_DETECTION_INTERVAL); [reflexivity |].
  destruct (isFingerOpen _ _) as [thumb |]; cbn [bind]; [| reflexivity].
  destruct (isFingerOpen _ _) as [index |]; cbn [bind]; [| reflexivity].
  destruct (isFingerOpen _ _) as [middle |]; cbn [bind]; [| reflexivity].
  destruct (isFingerOpen _ _) as [ring |]; cbn [bind]; [| reflexivity].
  destruct (isFingerOpen _ _) as [pinky |]; cbn [bind]; [| reflexivity].
  assert (Hpalm : forall r, detectPalmSwipe (landmarks hand) now s = Some r -> snd r = []).
  { unfold detectPalmSwipe. rewrite Hnone.
    destruct (palmCenter (landmarks hand)); cbn [bind]; intros r Hr;
      [injection Hr as <-; reflexivity | discriminate]. }
  unfold determineGesture.
  destruct thumb, index, middle, ring, pinky; cbn [negb andb bind];
    try (rewrite updateCurrentGesture_swipes; reflexivity).
  destruct (detectPalmSwipe (landmarks hand) now s) as [r |] eqn:Er; cbn [bind];
    [| reflexivity].
  rewrite updateCurrentGesture_swipes, (Hpalm r eq_refl). reflexivity.
Qed.

(** C4. On a detection tick with a hand in view, the label the classifier
    stores is the label the fixed rules give to the five open flags: all
    closed is [fist], all open is [open_palm], the thumb alone is [thumbs_up],
    index and middle alone is [victory], the index alone is [point], anything
    else is [none].  A long finger is open iff its tip is above its base joint
    (a smaller vertical coordinate), the thumb iff its tip is beyond its base
    on the horizontal axis. *)
Theorem C4_gesture_classification :
  forall (s : state) (now : Z) (hand : prediction) (others : list prediction)
         (f : fingers),
    length (landmarks hand) = 21%nat ->
    detectionTick now s ->
    shows (landmarks hand) f ->
    currentGesture (fst (detectHands now (hand :: others) s)) = labelOf f.
Proof.
  intros s now hand others f wf Htick Hshows.
  destruct (detectHands_hand s now hand others f wf Htick Hshows)
    as (s1 & swipes & -> & _).
  apply updateCurrentGesture_current.
Qed.

Lemma C4_witness :
  detectionTick 1000 started /\
  shows (landmarks (openPalmAt 100)) (mkFingers true true true true true) /\
  currentGesture (fst (detectHands 1000 [openPalmAt 100] started)) = open_palm.
Proof.
  split; [apply detectionTick_started; lia |].
  split; [apply openPalmAt_shows |].
  apply (C4_gesture_classification started 1000 (openPalmAt 100) []
           (mkFingers true true true true true)).
  - reflexivity.
  - apply detectionTick_started; lia.
  - apply openPalmAt_shows.
Defined.

(** The rules, one by one. *)
Lemma labelOf_rules :
  labelOf (mkFingers false false false false false) = fist /\
  labelOf (mkFingers true true true true true) = open_palm /\
  labelOf (mkFingers true false false false false) = thumbs_up /\
  labelOf (mkFingers false true true false false) = victory /\
  labelOf (mkFingers false true false false false) = point /\
  (forall f,
     f <> mkFingers false false false false false ->
     f <> mkFingers true true true true true ->
     f <> mkFingers true false false false false ->
     f <> mkFingers false true true false false ->
     f <> mkFingers false true false false false ->
     labelOf f = none).
Proof.
  repeat split.
  intros [[] [] [] [] []] H1 H2 H3 H4 H5; try reflexivity; congruence.
Qed.

(** C6. While the hand is an open palm the classifier tracks the centroid of
    the palm-base landmarks.  A horizontal displacement of the centroid over
    the threshold, with the timeout since the last swipe elapsed, dispatches
    exactly one swipe event, to the right for a positive displacement and to
    the left for a negative one, and forgets the tracked centroid, so that the
    next tick dispatches no swipe; a displacement within the threshold
    dispatches no swipe and the centroid is tracked on. *)
Theorem C6_palm_swipe :
  forall (s : state) (now : Z) (hand : prediction) (others : list prediction),
    length (landmarks hand) = 21%nat ->
    detectionTick now s ->
    shows (landmarks hand) (mkFingers true true true true true) ->
    let c := palmCentroid (landmarks hand) in
    let s' := fst (detectHands now (hand :: others) s) in
    let evs := snd (detectHands now (hand :: others) s) in
    currentGesture s' = open_palm /\
    (forall last,
       lastPalmPosition s = Some last ->
       palmSwipeTimeout < now - lastSwipeTime s ->
       (swipeThreshold < Qabs (palm_x c - palm_x last))%Q ->
       (exists d, swipeEvents evs = [SwipeEvent d now] /\
                  ((0 < palm_x c - palm_x last)%Q -> d = swipe_right) /\
                  ((palm_x c - palm_x last < 0)%Q -> d = swipe_left)) /\
       lastPalmPosition s' = None /\ lastSwipeTime s' = now /\
       (forall now' predictions',
          swipeEvents (snd (detectHands now' predictions' s')) = [])) /\
    (forall last,
       lastPalmPosition s = Some last ->
       (Qabs (palm_x c - palm_x last) <= swipeThreshold)%Q ->
       swipeEvents evs = [] /\ lastPalmPosition s' = Some c) /\
    (now - lastSwipeTime s <= palmSwipeTimeout ->
     swipeEvents evs = [] /\ lastPalmPosition s' = Some c) /\
    (lastPalmPosition s = None ->
     swipeEvents evs = [] /\ lastPalmPosition s' = Some c).
Proof.
  intros s now hand others wf Htick Hshows c s' evs.
  destruct (detectHands_hand s now hand others _ wf Htick Hshows)
    as (s1 & swipes & E & _ & Hopen & _).
  specialize (Hopen eq_refl).
  assert (Ecur : currentGesture s' = open_palm).
  { subst s'. rewrite E. apply updateCurrentGesture_current. }
  assert (Eevs : swipeEvents evs = swipeEvents swipes).
  { subst evs. rewrite E. apply updateCurrentGesture_swipes. }
  assert (Epalm : lastPalmPosition s' = lastPalmPosition s1 /\
                  lastSwipeTime s' = lastSwipeTime s1).
  { subst s'. rewrite E. apply updateCurrentGesture_palm. }
  destruct Epalm as (Epalm & Etime).
  destruct (detectPalmSwipe_cases (landmarks hand) now s wf)
    as (sp & evp & Ep & _ & Hcases).
  rewrite Hopen in Ep. injection Ep as <- <-. fold c in Hcases.
  rewrite Eevs, Epalm, Etime.
  split; [exact Ecur |].
  split; [| split; [| split]].
  - intros last El Ht Hd. rewrite El in Hcases.
    destruct Hcases as [(_ & _ & _ & -> & Hp & Hs) | ([Hn | [Hn | Hn]] & _)].
    + split; [| split; [exact Hp | split; [exact Hs |]]].
      * eexists. split; [reflexivity |]. split; intros Hsign.
        -- apply Qltb_lt in Hsign. rewrite Hsign. reflexivity.
        -- assert (Hf : Qltb 0 (palm_x c - palm_x last) = false)
             by (apply Qltb_ge; apply Qlt_le_weak; exact Hsign).
           rewrite Hf. reflexivity.
      * intros now' predictions'. apply detectHands_untracked.
        rewrite Epalm. exact Hp.
    + discriminate.
    + lia.
    + exfalso. apply (Qlt_not_le _ _ Hd). exact Hn.
  - intros last El Hd. rewrite El in Hcases.
    destruct Hcases as [(_ & _ & Hover & _) | (_ & -> & Hp & _)].
    + exfalso. apply (Qlt_not_le _ _ Hover). exact Hd.
    + split; [reflexivity | exact Hp].
  - intros Ht.
    destruct Hcases as [(_ & Hover & _) | (_ & -> & Hp & _)]; [lia |].
    split; [reflexivity | exact Hp].
  - intros El. rewrite El in Hcases.
    destruct Hcases as [(Hsome & _) | (_ & -> & Hp & _)]; [congruence |].
    split; [reflexivity | exact Hp].
Qed.

Lemma C6_witness :
  let s := set_lastPalmPosition (Some (mkPalm 0 0)) started in
  detectionTick 1000 s /\
  shows (landmarks (openPalmAt 100)) (mkFingers true true true true true) /\
  (swipeThreshold < Qabs (palm_x (palmCentroid (landmarks (openPalmAt 100))) - 0))%Q /\
  exists d,
    swipeEvents (snd (detectHands 1000 [openPalmAt 100] s)) = [SwipeEvent d 1000] /\
    d = swipe_right.
Proof.
  intros s.
  assert (Htick : detectionTick 1000 s).
  { unfold detectionTick, GESTURE_DETECTION_INTERVAL. cbn. repeat split. lia. }
  assert (Hover : (swipeThreshold
                   < Qabs (palm_x (palmCentroid (landmarks (openPalmAt 100))) - 0))%Q)
    by reflexivity.
  split; [exact Htick |]. split; [apply openPalmAt_shows |]. split; [exact Hover |].
  destruct (C6_palm_swipe s 1000 (openPalmAt 100) [] eq_refl Htick openPalmAt_shows)
    as (_ & Hswipe & _).
  destruct (Hswipe (mkPalm 0 0) eq_refl) as ((d & Hd & Hright & _) & _).
  - unfold palmSwipeTimeout. cbn. lia.
  - exact Hover.
  - exists d. split; [exact Hd |]. apply Hright. reflexivity.
Defined.

(** With a hand in view the gesture event is an edge: it is dispatched once
    when the label differs from [previousGesture], which then takes the
    label, and not at all when the label is [previousGesture]. *)
Lemma gesture_event_with_hand s now hand others f :
  length (landmarks hand) = 21%nat ->
  detectionTick now s ->
  shows (landmarks hand) f ->
  let r := detectHands now (hand :: others) s in
  (labelOf f <> previousGesture s ->
   gestureEvents (snd r) = [GestureEvent (labelOf f) now] /\
   previousGesture (fst r) = labelOf f) /\
  (labelOf f = previousGesture s ->
   gestureEvents (snd r) = [] /\ previousGesture (fst r) = previousGesture s).
Proof.
  intros wf Htick Hshows r.
  destruct (detectHands_hand s now hand others f wf Htick Hshows)
    as (s1 & swipes & E & Hsame & Hopen & Hother).
  subst r. rewrite E.
  assert (Hprev : previousGesture s1 = previousGesture s) by apply Hsame.
  rewrite <- Hprev. apply updateCurrentGesture_edge.
  destruct (gesture_eqb (labelOf f) open_palm) eqn:Eg.
  - apply gesture_eqb_eq in Eg.
    destruct (detectPalmSwipe_cases (landmarks hand) now s wf)
      as (sp & evp & Ep & _ & Hcases).
    rewrite (Hopen Eg) in Ep. injection Ep as <- <-.
    destruct Hcases as [(_ & _ & _ & -> & _) | (_ & -> & _)];
      intros e He; [| contradiction].
    destruct He as [<- | []]. eauto.
  - assert (Hne : labelOf f <> open_palm).
    { intros H. rewrite H in Eg. discriminate. }
    destruct (Hother Hne) as (_ & ->). intros e [].
Qed.

(** After a tick with a hand in view the stored previous label is the
    current label. *)
Lemma previous_is_current_with_hand s now hand others f :
  length (landmarks hand) = 21%nat ->
  detectionTick now s ->
  shows (landmarks hand) f ->
  let s' := fst (detectHands now (hand :: others) s) in
  previousGesture s' = currentGesture s'.
Proof.
  intros wf Htick Hshows s'.
  destruct (detectHands_hand s now hand others f wf Htick Hshows)
    as (s1 & swipes & E & _).
  subst s'. rewrite E. unfold updateCurrentGesture. cbn.
  destruct (gesture_eqb (labelOf f) (previousGesture s1)) eqn:Eg; cbn;
    [| reflexivity].
  apply gesture_eqb_eq in Eg. congruence.
Qed.

(** A tick with no hand in view: the label becomes [none], and nothing else
    changes and nothing is dispatched. *)
Lemma detectHands_no_hand s now :
  isDetecting s = true -> handposeModel s = true ->
  detectHands now [] s = (set_currentGesture none s, []).
Proof. intros Hd Hm. unfold detectHands. rewrite Hd, Hm. reflexivity. Qed.

(** C5, where the program departs from it.  A fist is shown (one gesture
    event), the hand leaves the view (the label changes to [none], but no
    event is dispatched and the previous label stays [fist]), and the fist
    comes back (the label changes from [none] to [fist], and again no event is
    dispatched). *)
Example C5_no_event_when_the_hand_leaves :
  let tick1 := detectHands 1000 [fistAt 0] started in
  let tick2 := detectHands 1200 [] (fst tick1) in
  let tick3 := detectHands 1400 [fistAt 0] (fst tick2) in
  (snd tick1 = [GestureEvent fist 1000] /\ currentGesture (fst tick1) = fist) /\
  (currentGesture (fst tick2) = none /\ snd tick2 = [] /\
   previousGesture (fst tick2) = fist) /\
  (currentGesture (fst tick3) = fist /\ snd tick3 = []) /\
  snd (run [(1000, [fistAt 0]); (1200, []); (1400, [fistAt 0])] started)
  = [GestureEvent fist 1000].
Proof. vm_compute. repeat split. Qed.

(** C10, where the program departs from it.  An open palm is tracked, the
    hand leaves the view (the label becomes [none], but the tracked palm
    position stays), and an open palm enters 200 pixels to the right: the
    stale position makes it a swipe. *)
Example C10_tracked_palm_survives_no_hand :
  let tick1 := detectHands 1000 [openPalmAt 0] started in
  let tick2 := detectHands 1200 [] (fst tick1) in
  let tick3 := detectHands 1400 [openPalmAt 200] (fst tick2) in
  (lastPalmPosition (fst tick1) = Some (palmCentroid (landmarks (openPalmAt 0)))) /\
  (currentGesture (fst tick2) = none /\
   lastPalmPosition (fst tick2) = lastPalmPosition (fst tick1)) /\
  snd tick3 = [SwipeEvent swipe_right 1400] /\
  snd (run [(1000, [openPalmAt 0]); (1200, []); (1400, [openPalmAt 200])] started)
  = [GestureEvent open_palm 1000; SwipeEvent swipe_right 1400].
Proof. vm_compute. repeat split. Qed.

(** The sibling paths do reset the tracked palm: every label but the open
    palm, and [stopCamera]. *)
Lemma tracked_palm_reset_elsewhere s now hand others f :
  length (landmarks hand) = 21%nat ->
  detectionTick now s ->
  shows (landmarks hand) f ->
  labelOf f <> open_palm ->
  lastPalmPosition (fst (detectHands now (hand :: others) s)) = None.
Proof.
  intros wf Htick Hshows Hne.
  destruct (detectHands_hand s now hand others f wf Htick Hshows)
    as (s1 & swipes & E & _ & _ & Hother).
  rewrite E. destruct (Hother Hne) as (-> & _).
  destruct (updateCurrentGesture_palm (labelOf f) now
              (set_lastPalmPosition None s) swipes) as (-> & _).
  reflexivity.
Qed.

Lemma stopCamera_resets s :
  isCameraActive s = true ->
  lastPalmPosition (stopCamera s) = None /\
  currentGesture (stopCamera s) = none /\ previousGesture (stopCamera s) = none.
Proof. intros H. unfold stopCamera. rewrite H. repeat split. Qed.

End HandGestureFacts.

Module AppFacts.
Import Geometry App.
Local Open Scope R_scope.

#[local] Opaque PARTICLE_COUNT.

(** ** Typed arrays *)

Lemma length_aset a i v : length (aset a i v) = length a.
Proof.
  revert i. induction a as [| x a IH]; intros [| i]; cbn; try reflexivity.
  now rewrite IH.
Qed.

Lemma aget_aset_same a i v : (i < length a)%nat -> aget (aset a i v) i = v.
Proof.
  unfold aget. revert i. induction a as [| x a IH]; intros [| i] H; cbn in *;
    try lia; [reflexivity |].
  apply IH. lia.
Qed.

Lemma aget_aset_other a i j v : i <> j -> aget (aset a i v) j = aget a j.
Proof.
  unfold aget. revert i j. induction a as [| x a IH]; intros [| i] [| j] H; cbn;
    try reflexivity; try lia.
  apply IH. lia.
Qed.

(** ** The particle loops *)

(** A loop whose body writes [g j] to the three coordinates of particle [i]
    writes [g j] to every coordinate of the particles it visits, and nothing
    else. *)
Section ParticleLoop.
Variables (O E : list R) (g : nat -> R) (body : nat -> Scene -> Scene).
Hypothesis body_writes : forall i sc,
  originalPositions sc = O -> explodedPositions sc = E ->
  body i sc =
  set_positions
    (aset (aset (aset (positions sc) (i * 3) (g (i * 3)))
                (i * 3 + 1) (g (i * 3 + 1)))
          (i * 3 + 2) (g (i * 3 + 2))) sc.

Lemma forParticles_writes n : forall i sc,
  originalPositions sc = O -> explodedPositions sc = E ->
  let sc' := forParticles n i body sc in
  originalPositions sc' = O /\ explodedPositions sc' = E /\
  velocities sc' = velocities sc /\
  particleRotationY sc' = particleRotationY sc /\
  ornamentRotationY sc' = ornamentRotationY sc /\
  photoRotationY sc' = photoRotationY sc /\
  length (positions sc') = length (positions sc) /\
  (forall j, (i * 3 <= j < (i + n) * 3)%nat -> (j < length (positions sc))%nat ->
             aget (positions sc') j = g j) /\
  (forall j, ~ (i * 3 <= j < (i + n) * 3)%nat ->
             aget (positions sc') j = aget (positions sc) j).
Proof.
  induction n as [| n IH]; intros i sc HO HE; cbn [forParticles].
  - repeat split; try assumption; try reflexivity. intros j Hj. lia.
  - rewrite (body_writes i sc HO HE).
    set (sc1 := set_positions _ sc).
    destruct (IH (S i) sc1 HO HE) as (IO & IE & IV & IP & IOr & IPh & IL & Iin & Iout).
    assert (L1 : length (positions sc1) = length (positions sc))
      by (subst sc1; cbn; now rewrite !length_aset).
    repeat split; try assumption.
    + now rewrite IL.
    + intros j Hj Hlen.
      destruct (Nat.lt_ge_cases j (S i * 3)) as [Hlo | Hhi].
      * rewrite Iout by lia. subst sc1. cbn [positions set_positions].
        assert (Hc : j = (i * 3)%nat \/ j = (i * 3 + 1)%nat \/ j = (i * 3 + 2)%nat) by lia.
        destruct Hc as [-> | [-> | ->]].
        -- rewrite !aget_aset_other by lia. now apply aget_aset_same.
        -- rewrite aget_aset_other by lia. apply aget_aset_same.
           now rewrite length_aset.
        -- apply aget_aset_same. now rewrite !length_aset.
      * apply Iin; [lia | now rewrite L1].
    + intros j Hj. rewrite Iout by lia. subst sc1. cbn [positions set_positions].
      rewrite !aget_aset_other by lia. reflexivity.
Qed.

End ParticleLoop.

Lemma list_eq_aget (a b : list R) :
  length a = length b -> (forall j, (j < length a)%nat -> aget a j = aget b j) -> a = b.
Proof.
  intros Hl H. apply (nth_ext a b 0 0 Hl). exact H.
Qed.

(** What a render of the particle interpolation leaves alone, and where it
    puts the particles at progress 1: on the exploded positions, the reverse
    one on the original positions. *)
Section Interpolation.
Variables (n : nat) (p : R) (sc : Scene).

Lemma explode_writes :
  exists sc', forParticles n 0 (explodeParticle p) sc = sc' /\
  originalPositions sc' = originalPositions sc /\
  explodedPositions sc' = explodedPositions sc /\
  velocities sc' = velocities sc /\
  particleRotationY sc' = particleRotationY sc /\
  ornamentRotationY sc' = ornamentRotationY sc /\
  photoRotationY sc' = photoRotationY sc /\
  length (positions sc') = length (positions sc) /\
  (forall j, (j < n * 3)%nat -> (j < length (positions sc))%nat ->
             aget (positions sc') j
             = aget (originalPositions sc) j
               + (aget (explodedPositions sc) j - aget (originalPositions sc) j) * p).
Proof.
  eexists. split; [reflexivity |].
  destruct (forParticles_writes (originalPositions sc) (explodedPositions sc)
              (fun j => aget (originalPositions sc) j
                        + (aget (explodedPositions sc) j - aget (originalPositions sc) j) * p)
              (explodeParticle p)) with (n := n) (i := 0%nat) (sc := sc)
    as (H1 & H2 & H3 & H4 & H5 & H6 & H7 & H8 & _).
  - intros i sc0 HO HE. unfold explodeParticle. now rewrite HO, HE.
  - reflexivity.
  - reflexivity.
  - split; [exact H1 |]. split; [exact H2 |]. split; [exact H3 |].
    split; [exact H4 |]. split; [exact H5 |]. split; [exact H6 |].
    split; [exact H7 |]. intros j Hj Hl. apply H8; [lia | exact Hl].
Qed.

Lemma collapse_writes :
  exists sc', forParticles n 0 (collapseParticle p) sc = sc' /\
  originalPositions sc' = originalPositions sc /\
  explodedPositions sc' = explodedPositions sc /\
  velocities sc' = velocities sc /\
  particleRotationY sc' = particleRotationY sc /\
  ornamentRotationY sc' = ornamentRotationY sc /\
  photoRotationY sc' = photoRotationY sc /\
  length (positions sc') = length (positions sc) /\
  (forall j, (j < n * 3)%nat -> (j < length (positions sc))%nat ->
             aget (positions sc') j
             = aget (explodedPositions sc) j
               + (aget (originalPositions sc) j - aget (explodedPositions sc) j) * p).
Proof.
  eexists. split; [reflexivity |].
  destruct (forParticles_writes (originalPositions sc) (explodedPositions sc)
              (fun j => aget (explodedPositions sc) j
                        + (aget (originalPositions sc) j - aget (explodedPositions sc) j) * p)
              (collapseParticle p)) with (n := n) (i := 0%nat) (sc := sc)
    as (H1 & H2 & H3 & H4 & H5 & H6 & H7 & H8 & _).
  - intros i sc0 HO HE. unfold collapseParticle. now rewrite HO, HE.
  - reflexivity.
  - reflexivity.
  - split; [exact H1 |]. split; [exact H2 |]. split; [exact H3 |].
    split; [exact H4 |]. split; [exact H5 |]. split; [exact H6 |].
    split; [exact H7 |]. intros j Hj Hl. apply H8; [lia | exact Hl].
Qed.

End Interpolation.

Lemma explode_complete n sc :
  length (positions sc) = (n * 3)%nat ->
  length (explodedPositions sc) = (n * 3)%nat ->
  positions (forParticles n 0 (explodeParticle 1) sc) = explodedPositions sc.
Proof.
  intros Lp Le.
  destruct (explode_writes n 1 sc) as (sc' & -> & _ & _ & _ & _ & _ & _ & HL & Hin).
  apply list_eq_aget; [congruence |].
  intros j Hj. rewrite Hin by lia. ring.
Qed.

Lemma collapse_complete n sc :
  length (positions sc) = (n * 3)%nat ->
  length (originalPositions sc) = (n * 3)%nat ->
  positions (forParticles n 0 (collapseParticle 1) sc) = originalPositions sc.
Proof.
  intros Lp Lo.
  destruct (collapse_writes n 1 sc) as (sc' & -> & _ & _ & _ & _ & _ & _ & HL & Hin).
  apply list_eq_aget; [congruence |].
  intros j Hj. rewrite Hin by lia. ring.
Qed.

(** The ripple keeps the buffers' lengths and touches neither the reference
    positions nor the rotations. *)
Lemma rippleParticle_frame mousePos i sc :
  originalPositions (rippleParticle mousePos i sc) = originalPositions sc /\
  explodedPositions (rippleParticle mousePos i sc) = explodedPositions sc /\
  particleRotationY (rippleParticle mousePos i sc) = particleRotationY sc /\
  ornamentRotationY (rippleParticle mousePos i sc) = ornamentRotationY sc /\
  photoRotationY (rippleParticle mousePos i sc) = photoRotationY sc /\
  length (positions (rippleParticle mousePos i sc)) = length (positions sc) /\
  length (velocities (rippleParticle mousePos i sc)) = length (velocities sc).
Proof.
  unfold rippleParticle. cbv zeta.
  cbn [originalPositions explodedPositions particleRotationY ornamentRotationY
       photoRotationY positions velocities set_positions set_velocities].
  rewrite !length_aset. repeat split.
Qed.

Lemma ripple_frame mousePos n : forall i sc,
  exists sc', forParticles n i (rippleParticle mousePos) sc = sc' /\
  originalPositions sc' = originalPositions sc /\
  explodedPositions sc' = explodedPositions sc /\
  particleRotationY sc' = particleRotationY sc /\
  ornamentRotationY sc' = ornamentRotationY sc /\
  photoRotationY sc' = photoRotationY sc /\
  length (positions sc') = length (positions sc) /\
  length (velocities sc') = length (velocities sc).
Proof.
  induction n as [| n IH]; intros i sc; cbn [forParticles].
  - exists sc. repeat split.
  - destruct (IH (S i) (rippleParticle mousePos i sc))
      as (sc' & E & H1 & H2 & H3 & H4 & H5 & H6 & H7).
    destruct (rippleParticle_frame mousePos i sc) as (G1 & G2 & G3 & G4 & G5 & G6 & G7).
    exists sc'. split; [exact E |].
    rewrite H1, H2, H3, H4, H5, H6, H7. repeat split; assumption.
Qed.

(** ** Rendering one tween *)

Lemma render_tween t tw sc st :
  site (snd (render t tw sc st)) = site tw /\
  startTime (snd (render t tw sc st)) = startTime tw.
Proof.
  unfold render. destruct (site tw) eqn:E; cbn [fst snd site startTime];
    rewrite ?E; split; reflexivity.
Qed.

Lemma render_frame t tw sc st :
  phase (snd (fst (render t tw sc st))) = phase st /\
  originalPositions (fst (fst (render t tw sc st))) = originalPositions sc /\
  explodedPositions (fst (fst (render t tw sc st))) = explodedPositions sc /\
  velocities (fst (fst (render t tw sc st))) = velocities sc /\
  length (positions (fst (fst (render t tw sc st)))) = length (positions sc).
Proof.
  unfold render. destruct (site tw); cbn [fst snd].
  - destruct (explode_writes PARTICLE_COUNT (progress t tw) sc)
      as (sc' & -> & H1 & H2 & H3 & _ & _ & _ & H7 & _). repeat split; assumption.
  - destruct (collapse_writes PARTICLE_COUNT (progress t tw) sc)
      as (sc' & -> & H1 & H2 & H3 & _ & _ & _ & H7 & _). repeat split; assumption.
  - repeat split.
  - destruct (finished t tw); repeat split.
Qed.

Lemma render_buffersOk t tw sc st :
  buffersOk sc -> buffersOk (fst (fst (render t tw sc st))).
Proof.
  intros (Lp & Lo & Le & Lv).
  destruct (render_frame t tw sc st) as (_ & H1 & H2 & H3 & H4).
  unfold buffersOk. rewrite H1, H2, H3, H4. repeat split; assumption.
Qed.

Lemma progress_finished t tw : finished t tw = true -> progress t tw = 1.
Proof. intros H. unfold progress. now rewrite H. Qed.

(** The particle positions. *)
Lemma render_positions_other t tw sc st :
  writesPositions tw = false ->
  positions (fst (fst (render t tw sc st))) = positions sc.
Proof.
  unfold writesPositions, render. destruct (site tw); intros H; try discriminate;
    reflexivity.
Qed.

Lemma render_positions_done t tw sc st :
  writesPositions tw = true -> finished t tw = true -> buffersOk sc ->
  positions (fst (fst (render t tw sc st)))
  = restingPositions (site tw) (originalPositions sc) (explodedPositions sc).
Proof.
  unfold writesPositions, render. intros Hk Hf (Lp & Lo & Le & _).
  rewrite (progress_finished _ _ Hf).
  destruct (site tw); try discriminate; cbn [fst snd restingPositions].
  - now apply explode_complete.
  - now apply collapse_complete.
Qed.

(** The rotation of the particle system and of the ornament group. *)
Lemma render_group_other t tw sc st :
  writesGroupRotation tw = false ->
  particleRotationY (fst (fst (render t tw sc st))) = particleRotationY sc /\
  ornamentRotationY (fst (fst (render t tw sc st))) = ornamentRotationY sc.
Proof.
  unfold writesGroupRotation, render. destruct (site tw); intros H; try discriminate;
    cbn [fst snd].
  - destruct (explode_writes PARTICLE_COUNT (progress t tw) sc)
      as (sc' & -> & _ & _ & _ & H4 & H5 & _). split; assumption.
  - destruct (collapse_writes PARTICLE_COUNT (progress t tw) sc)
      as (sc' & -> & _ & _ & _ & H4 & H5 & _). split; assumption.
  - split; reflexivity.
Qed.

Lemma render_group_done t tw sc st :
  writesGroupRotation tw = true -> finished t tw = true ->
  particleRotationY (fst (fst (render t tw sc st))) = 0 /\
  ornamentRotationY (fst (fst (render t tw sc st))) = 0.
Proof.
  unfold writesGroupRotation, render. intros Hk Hf.
  destruct (site tw); try discriminate. cbn [fst snd]. rewrite Hf.
  split; reflexivity.
Qed.

(** The rotation of the photo group and the store's [carouselRotation]. *)
Lemma render_photo_other t tw sc st :
  writesPhotoRotation tw = false ->
  photoRotationY (fst (fst (render t tw sc st))) = photoRotationY sc /\
  carouselRotation (snd (fst (render t tw sc st))) = carouselRotation st.
Proof.
  unfold writesPhotoRotation, render. destruct (site tw); intros H; try discriminate;
    cbn [fst snd].
  - destruct (explode_writes PARTICLE_COUNT (progress t tw) sc)
      as (sc' & -> & _ & _ & _ & _ & _ & H6 & _). split; [assumption | reflexivity].
  - destruct (collapse_writes PARTICLE_COUNT (progress t tw) sc)
      as (sc' & -> & _ & _ & _ & _ & _ & H6 & _). split; [assumption | reflexivity].
  - split; reflexivity.
Qed.

Lemma render_photo_done t tw sc st r :
  site tw = Carousel r -> finished t tw = true ->
  photoRotationY (fst (fst (render t tw sc st))) = r /\
  carouselRotation (snd (fst (render t tw sc st))) = r.
Proof.
  unfold render. intros Hs Hf. rewrite Hs. cbn [fst snd]. rewrite Hf.
  split; reflexivity.
Qed.

(** ** One tick of gsap *)

Lemma lastWriter_last kind tws tw :
  lastWriter kind (tws ++ [tw]) = if kind tw then Some tw else lastWriter kind tws.
Proof.
  induction tws as [| x tws IH]; cbn [app lastWriter].
  - reflexivity.
  - rewrite IH. destruct (kind tw); [reflexivity |].
    destruct (lastWriter kind tws); reflexivity.
Qed.

Lemma lastWriter_In kind tws l :
  lastWriter kind tws = Some l -> In l tws /\ kind l = true.
Proof.
  induction tws as [| x tws IH]; cbn [lastWriter]; [discriminate |].
  destruct (lastWriter kind tws) as [l' |].
  - intros H. injection H as <-. destruct (IH eq_refl) as (HIn & Hk).
    split; [now right | exact Hk].
  - destruct (kind x) eqn:Hk; [| discriminate].
    intros H. injection H as <-. split; [now left | exact Hk].
Qed.

Lemma renderAll_frame t : forall tws sc st,
  phase (snd (fst (renderAll t tws sc st))) = phase st /\
  originalPositions (fst (fst (renderAll t tws sc st))) = originalPositions sc /\
  explodedPositions (fst (fst (renderAll t tws sc st))) = explodedPositions sc /\
  velocities (fst (fst (renderAll t tws sc st))) = velocities sc /\
  length (positions (fst (fst (renderAll t tws sc st)))) = length (positions sc).
Proof.
  induction tws as [| tw rest IH]; intros sc st; cbn [renderAll].
  - repeat split.
  - pose proof (render_frame t tw sc st) as F.
    destruct (render t tw sc st) as [[sc1 st1] tw1]. cbn [fst snd] in F.
    specialize (IH sc1 st1).
    destruct (renderAll t rest sc1 st1) as [[sc2 st2] rem]. cbn [fst snd] in *.
    destruct F as (F0 & F1 & F2 & F3 & F4). destruct IH as (I0 & I1 & I2 & I3 & I4).
    repeat split; congruence.
Qed.

Lemma renderAll_buffersOk t tws sc st :
  buffersOk sc -> buffersOk (fst (fst (renderAll t tws sc st))).
Proof.
  intros (Lp & Lo & Le & Lv).
  destruct (renderAll_frame t tws sc st) as (_ & H1 & H2 & H3 & H4).
  unfold buffersOk. rewrite H1, H2, H3, H4. repeat split; assumption.
Qed.

(** The tweens that stay in flight keep their order and their start. *)
Lemma renderAll_starts t (Q : Z -> Prop) : forall tws sc st,
  Forall Q (map startTime tws) ->
  Forall Q (map startTime (snd (renderAll t tws sc st))).
Proof.
  induction tws as [| tw rest IH]; intros sc st H; cbn [renderAll].
  - constructor.
  - pose proof (render_tween t tw sc st) as (_ & T).
    destruct (render t tw sc st) as [[sc1 st1] tw1]. cbn [fst snd] in T.
    specialize (IH sc1 st1).
    destruct (renderAll t rest sc1 st1) as [[sc2 st2] rem]. cbn [fst snd] in *.
    cbn [map] in H. inversion H as [| ? ? Hx Hrest]; subst.
    destruct (finished t tw); [now apply IH |].
    cbn [map]. constructor; [now rewrite T | now apply IH].
Qed.

Lemma renderAll_sorted t : forall tws sc st,
  StronglySorted Z.le (map startTime tws) ->
  StronglySorted Z.le (map startTime (snd (renderAll t tws sc st))).
Proof.
  induction tws as [| tw rest IH]; intros sc st H; cbn [renderAll].
  - constructor.
  - pose proof (render_tween t tw sc st) as (_ & T).
    pose proof (renderAll_starts t (Z.le (startTime tw)) rest
                  (fst (fst (render t tw sc st))) (snd (fst (render t tw sc st)))) as S.
    destruct (render t tw sc st) as [[sc1 st1] tw1]. cbn [fst snd] in T, S.
    specialize (IH sc1 st1).
    destruct (renderAll t rest sc1 st1) as [[sc2 st2] rem]. cbn [fst snd] in *.
    cbn [map] in H. inversion H as [| ? ? Hs Hall]; subst.
    destruct (finished t tw); [now apply IH |].
    cbn [map]. constructor; [now apply IH | rewrite T; now apply S].
Qed.

(** What a tick does to the state that one kind of tween writes: if the last
    tween of the kind has finished, the state is where that tween leaves it
    and no tween of the kind stays in flight. *)
Section LastWriter.
Variables (kind : Tween -> bool) (D : Z) (X : Type) (obs : Scene -> Store -> X).
Variables (goal : TweenSite -> list R -> list R -> X) (t : Z).
Hypothesis kind_site : forall a b, site a = site b -> kind a = kind b.
Hypothesis kind_duration : forall tw, kind tw = true -> duration (site tw) = D.
Hypothesis other : forall tw sc st,
  kind tw = false ->
  obs (fst (fst (render t tw sc st))) (snd (fst (render t tw sc st))) = obs sc st.
Hypothesis done : forall tw sc st,
  kind tw = true -> finished t tw = true -> buffersOk sc ->
  obs (fst (fst (render t tw sc st))) (snd (fst (render t tw sc st)))
  = goal (site tw) (originalPositions sc) (explodedPositions sc).

Lemma renderAll_obs : forall tws sc st,
  buffersOk sc ->
  match lastWriter kind tws with
  | None =>
      obs (fst (fst (renderAll t tws sc st))) (snd (fst (renderAll t tws sc st)))
      = obs sc st
  | Some l =>
      finished t l = true ->
      obs (fst (fst (renderAll t tws sc st))) (snd (fst (renderAll t tws sc st)))
      = goal (site l) (originalPositions sc) (explodedPositions sc)
  end.
Proof.
  induction tws as [| tw rest IH]; intros sc st Hok; cbn [renderAll lastWriter].
  - reflexivity.
  - pose proof (render_frame t tw sc st) as (_ & F1 & F2 & _).
    pose proof (render_buffersOk t tw sc st Hok) as Hok1.
    pose proof (other tw sc st) as Hother.
    pose proof (done tw sc st) as Hdone.
    destruct (render t tw sc st) as [[sc1 st1] tw1]. cbn [fst snd] in *.
    specialize (IH sc1 st1 Hok1).
    destruct (renderAll t rest sc1 st1) as [[sc2 st2] rem]. cbn [fst snd] in *.
    destruct (lastWriter kind rest) as [l |].
    + intros Hl. rewrite (IH Hl), F1, F2. reflexivity.
    + destruct (kind tw).
      * intros Hf. rewrite IH. now apply Hdone.
      * rewrite IH. now apply Hother.
Qed.

Lemma renderAll_remaining : forall tws sc st,
  StronglySorted Z.le (map startTime tws) ->
  match lastWriter kind tws with
  | None => lastWriter kind (snd (renderAll t tws sc st)) = None
  | Some l =>
      (finished t l = true -> lastWriter kind (snd (renderAll t tws sc st)) = None) /\
      (finished t l = false ->
       exists l', lastWriter kind (snd (renderAll t tws sc st)) = Some l' /\
                  site l' = site l)
  end.
Proof.
  induction tws as [| tw rest IH]; intros sc st Hs; cbn [renderAll lastWriter].
  - reflexivity.
  - pose proof (render_tween t tw sc st) as (T1 & T2).
    destruct (render t tw sc st) as [[sc1 st1] tw1]. cbn [fst snd] in *.
    cbn [map] in Hs. inversion Hs as [| ? ? Hsorted Hall]; subst.
    specialize (IH sc1 st1 Hsorted).
    destruct (renderAll t rest sc1 st1) as [[sc2 st2] rem]. cbn [fst snd] in *.
    assert (K1 : kind tw1 = kind tw) by (now apply kind_site).
    destruct (lastWriter kind rest) as [l |] eqn:El.
    + destruct IH as (IHdone & IHrun). split.
      * intros Hl. specialize (IHdone Hl).
        destruct (finished t tw) eqn:Hf; [exact IHdone |].
        cbn [lastWriter]. rewrite IHdone, K1.
        destruct (kind tw) eqn:Hk; [| reflexivity].
        exfalso. destruct (lastWriter_In _ _ _ El) as (HIn & Hkl).
        rewrite Forall_forall in Hall.
        specialize (Hall (startTime l) (in_map startTime _ _ HIn)).
        unfold finished in Hf, Hl.
        rewrite (kind_duration _ Hk) in Hf. rewrite (kind_duration _ Hkl) in Hl.
        apply Z.leb_le in Hl. apply Z.leb_gt in Hf. lia.
      * intros Hl. destruct (IHrun Hl) as (l' & E' & S').
        exists l'. split; [| exact S'].
        destruct (finished t tw); [exact E' |]. cbn [lastWriter]. now rewrite E'.
    + destruct (kind tw) eqn:Hk.
      * split; intros Hf; rewrite Hf.
        -- exact IH.
        -- exists tw1. cbn [lastWriter]. rewrite IH, K1. split; [reflexivity | exact T1].
      * destruct (finished t tw); [exact IH |].
        cbn [lastWriter]. now rewrite IH, K1.
Qed.

End LastWriter.

(** The three kinds of tween. *)
Lemma tick_positions t tws sc st :
  buffersOk sc ->
  match lastWriter writesPositions tws with
  | None => positions (fst (fst (renderAll t tws sc st))) = positions sc
  | Some l =>
      finished t l = true ->
      positions (fst (fst (renderAll t tws sc st)))
      = restingPositions (site l) (originalPositions sc) (explodedPositions sc)
  end.
Proof.
  apply (renderAll_obs writesPositions (list R) (fun sc _ => positions sc)
           restingPositions t).
  - intros tw sc0 st0. apply render_positions_other.
  - intros tw sc0 st0. apply render_positions_done.
Qed.

Lemma tick_group t tws sc st :
  buffersOk sc ->
  match lastWriter writesGroupRotation tws with
  | None =>
      (particleRotationY (fst (fst (renderAll t tws sc st))),
       ornamentRotationY (fst (fst (renderAll t tws sc st))))
      = (particleRotationY sc, ornamentRotationY sc)
  | Some l =>
      finished t l = true ->
      (particleRotationY (fst (fst (renderAll t tws sc st))),
       ornamentRotationY (fst (fst (renderAll t tws sc st)))) = (0, 0)
  end.
Proof.
  apply (renderAll_obs writesGroupRotation (R * R)
           (fun sc _ => (particleRotationY sc, ornamentRotationY sc))
           (fun _ _ _ => (0, 0)) t).
  - intros tw sc0 st0 H. destruct (render_group_other t tw sc0 st0 H) as (-> & ->).
    reflexivity.
  - intros tw sc0 st0 Hk Hf _. destruct (render_group_done t tw sc0 st0 Hk Hf) as (-> & ->).
    reflexivity.
Qed.

Lemma tick_photo t tws sc st :
  buffersOk sc ->
  match lastWriter writesPhotoRotation tws with
  | None =>
      (photoRotationY (fst (fst (renderAll t tws sc st))),
       carouselRotation (snd (fst (renderAll t tws sc st))))
      = (photoRotationY sc, carouselRotation st)
  | Some l =>
      finished t l = true ->
      (photoRotationY (fst (fst (renderAll t tws sc st))),
       carouselRotation (snd (fst (renderAll t tws sc st))))
      = match site l with
        | Carousel r => (r, r)
        | _ => (0, 0)
        end
  end.
Proof.
  apply (renderAll_obs writesPhotoRotation (R * R)
           (fun sc st => (photoRotationY sc, carouselRotation st))
           (fun s _ _ => match s with Carousel r => (r, r) | _ => (0, 0) end) t).
  - intros tw sc0 st0 H. destruct (render_photo_other t tw sc0 st0 H) as (-> & ->).
    reflexivity.
  - intros tw sc0 st0 Hk Hf _. unfold writesPhotoRotation in Hk.
    destruct (site tw) as [| | | r] eqn:Es; try discriminate.
    destruct (render_photo_done t tw sc0 st0 r Es Hf) as (-> & ->). reflexivity.
Qed.

Lemma kind_site_positions a b : site a = site b -> writesPositions a = writesPositions b.
Proof. unfold writesPositions. now intros ->. Qed.
Lemma kind_site_group a b : site a = site b -> writesGroupRotation a = writesGroupRotation b.
Proof. unfold writesGroupRotation. now intros ->. Qed.
Lemma kind_site_photo a b : site a = site b -> writesPhotoRotation a = writesPhotoRotation b.
Proof. unfold writesPhotoRotation. now intros ->. Qed.

Lemma duration_positions tw : writesPositions tw = true -> duration (site tw) = 2000%Z.
Proof. unfold writesPositions. destruct (site tw); try discriminate; reflexivity. Qed.
Lemma duration_group tw : writesGroupRotation tw = true -> duration (site tw) = 2000%Z.
Proof. unfold writesGroupRotation. destruct (site tw); try discriminate; reflexivity. Qed.
Lemma duration_photo tw : writesPhotoRotation tw = true -> duration (site tw) = 800%Z.
Proof. unfold writesPhotoRotation. destruct (site tw); try discriminate; reflexivity. Qed.

(** ** The functions of the program on a world *)

Lemma phase_eqb_eq a b : phase_eqb a b = true <-> a = b.
Proof. destruct a, b; cbn; split; congruence. Qed.

Lemma triggerBlooming_tree w :
  phase (store w) = tree ->
  triggerBlooming w =
  mkWorld (clock w) (mkStore blooming (carouselRotation (store w))) (scene w)
          (tweens w ++ [mkTween ExplodeParticles (clock w) None])
          (timers w ++ [mkTimer (clock w + 2500) nebula])
          (uiLog w ++ [blooming]).
Proof. intros H. unfold triggerBlooming. rewrite H. reflexivity. Qed.

Lemma triggerBlooming_other w : phase (store w) <> tree -> triggerBlooming w = w.
Proof.
  intros H. unfold triggerBlooming.
  destruct (phase (store w)); try reflexivity. contradiction.
Qed.

Lemma triggerCollapsing_nebula w :
  phase (store w) = nebula ->
  triggerCollapsing w =
  mkWorld (clock w) (mkStore collapsing (carouselRotation (store w))) (scene w)
          ((tweens w ++ [mkTween CollapseParticles (clock w) None])
           ++ [mkTween ResetRotation (clock w) None])
          (timers w ++ [mkTimer (clock w + 2500) tree])
          (uiLog w ++ [collapsing]).
Proof. intros H. unfold triggerCollapsing. rewrite H. reflexivity. Qed.

Lemma triggerCollapsing_other w : phase (store w) <> nebula -> triggerCollapsing w = w.
Proof.
  intros H. unfold triggerCollapsing.
  destruct (phase (store w)); try reflexivity. contradiction.
Qed.

Lemma rotateCarousel_nebula d w :
  phase (store w) = nebula ->
  rotateCarousel d w =
  mkWorld (clock w) (store w) (scene w)
          (tweens w ++ [mkTween (Carousel (carouselRotation (store w)
                                           + d * (PI * 2 / PHOTO_COUNT)))
                                (clock w) None])
          (timers w) (uiLog w).
Proof. intros H. unfold rotateCarousel. rewrite H. reflexivity. Qed.

Lemma rotateCarousel_other d w : phase (store w) <> nebula -> rotateCarousel d w = w.
Proof.
  intros H. unfold rotateCarousel.
  destruct (phase (store w)); try reflexivity. contradiction.
Qed.

Lemma gsapTick_unfold t w :
  let r := renderAll (Z.max (clock w) t) (tweens w) (scene w) (store w) in
  gsapTick t w =
  mkWorld (Z.max (clock w) t) (snd (fst r)) (fst (fst r)) (snd r) (timers w) (uiLog w).
Proof.
  unfold gsapTick, advance. cbn [clock tweens scene store set_clock].
  destruct (renderAll _ _ _ _) as [[sc st] tws]. reflexivity.
Qed.

Lemma timerTask_none t w :
  timers w = [] ->
  timerTask t w =
  mkWorld (Z.max (clock w) t) (store w) (scene w) (tweens w) [] (uiLog w).
Proof. intros H. unfold timerTask, advance. cbn. rewrite H. reflexivity. Qed.

Lemma timerTask_single t w d p :
  timers w = [mkTimer d p] ->
  timerTask t w =
  if (d <=? Z.max (clock w) t)%Z then
    mkWorld (Z.max (clock w) t) (mkStore p (carouselRotation (store w))) (scene w)
            (tweens w) [] (uiLog w ++ [p])
  else
    mkWorld (Z.max (clock w) t) (store w) (scene w) (tweens w) [mkTimer d p] (uiLog w).
Proof.
  intros H. unfold timerTask, advance. cbn. rewrite H. cbn.
  destruct (d <=? Z.max (clock w) t)%Z; reflexivity.
Qed.

Lemma animate_unfold m w :
  animate m w =
  match phase (store w) with
  | tree => set_scene (applyRippleEffect m (scene w)) w
  | nebula =>
      set_scene (set_ornamentRotationY (photoRotationY (scene w))
                   (set_particleRotationY (photoRotationY (scene w)) (scene w))) w
  | _ => w
  end.
Proof. unfold animate. destruct (phase (store w)); reflexivity. Qed.

Lemma last_default (A : Type) (x : A) (l : list A) (d d' : A) :
  last (x :: l) d = last (x :: l) d'.
Proof.
  revert x. induction l as [| y l IH]; intros x; [reflexivity |].
  change (last (y :: l) d = last (y :: l) d'). apply IH.
Qed.

Lemma followsCycle_app from log p :
  followsCycle from (log ++ [p])
  = followsCycle from log && phaseEdge (last log from) p.
Proof.
  revert from. induction log as [| q log IH]; intros from; cbn [app followsCycle].
  - cbn. now rewrite andb_true_r.
  - rewrite IH, andb_assoc. f_equal. f_equal.
    destruct log as [| r log]; [reflexivity |].
    change (last (q :: r :: log) from) with (last (r :: log) from).
    apply last_default.
Qed.

Lemma tweensOk_later now now' tws :
  (now <= now')%Z -> tweensOk now tws -> tweensOk now' tws.
Proof.
  intros Hle (Hall & Hs). split; [| exact Hs].
  eapply Forall_impl; [| exact Hall]. cbn. intros; lia.
Qed.

Lemma tweensOk_new now tws s :
  tweensOk now tws -> tweensOk now (tws ++ [mkTween s now None]).
Proof.
  intros (Hall & Hs). unfold tweensOk. rewrite map_app. cbn [map startTime]. split.
  - apply Forall_app. split; [exact Hall |]. constructor; [lia | constructor].
  - clear -Hall Hs. induction (map startTime tws) as [| x l IH]; cbn.
    + constructor; constructor.
    + inversion Hall; subst. inversion Hs; subst.
      constructor; [now apply IH |].
      apply Forall_app. split; [assumption |]. constructor; [assumption | constructor].
Qed.

(** ** The invariant *)

Lemma invariant_initial original exploded :
  length original = (PARTICLE_COUNT * 3)%nat ->
  length exploded = (PARTICLE_COUNT * 3)%nat ->
  invariant (initial original exploded).
Proof.
  intros Lo Le. unfold invariant, initial, buffersOk, tweensOk, timersOk, positionsOk,
    settled. cbn [clock store scene tweens timers uiLog phase positions originalPositions
    explodedPositions velocities particleRotationY ornamentRotationY map lastWriter
    followsCycle last].
  rewrite repeat_length.
  repeat split; try assumption; constructor.
Qed.

Lemma invariant_triggerBlooming w : invariant w -> invariant (triggerBlooming w).
Proof.
  intros Hinv. destruct (phase_eqb (phase (store w)) tree) eqn:Ep.
  2:{ rewrite triggerBlooming_other; [exact Hinv |].
      intros H. apply phase_eqb_eq in H. congruence. }
  apply phase_eqb_eq in Ep. rewrite (triggerBlooming_tree w Ep).
  destruct Hinv as (Hb & Htw & Htm & (Hcyc & Hlast) & Hpos & Hgrp).
  unfold invariant, timersOk, positionsOk, settled in *. fields. rewrite Ep in *.
  split; [exact Hb |]. split; [now apply tweensOk_new |].
  split; [rewrite Htm; now exists (clock w + 2500)%Z |].
  split; [split |].
  - rewrite followsCycle_app, Hcyc, Hlast. reflexivity.
  - apply last_last.
  - split.
    + rewrite lastWriter_last. reflexivity.
    + intros _ Hs. rewrite lastWriter_last in Hs. cbn in Hs.
      apply Hgrp; [discriminate | exact Hs].
Qed.

Lemma invariant_triggerCollapsing w : invariant w -> invariant (triggerCollapsing w).
Proof.
  intros Hinv. destruct (phase_eqb (phase (store w)) nebula) eqn:Ep.
  2:{ rewrite triggerCollapsing_other; [exact Hinv |].
      intros H. apply phase_eqb_eq in H. congruence. }
  apply phase_eqb_eq in Ep. rewrite (triggerCollapsing_nebula w Ep).
  destruct Hinv as (Hb & Htw & Htm & (Hcyc & Hlast) & Hpos & Hgrp).
  unfold invariant, timersOk, positionsOk, settled in *. fields. rewrite Ep in *.
  split; [exact Hb |]. split; [now apply tweensOk_new, tweensOk_new |].
  split; [rewrite Htm; now exists (clock w + 2500)%Z |].
  split; [split |].
  - rewrite followsCycle_app, Hcyc, Hlast. reflexivity.
  - apply last_last.
  - split.
    + rewrite !lastWriter_last. reflexivity.
    + intros _ Hs. rewrite lastWriter_last in Hs. discriminate Hs.
Qed.

Lemma invariant_rotateCarousel d w : invariant w -> invariant (rotateCarousel d w).
Proof.
  intros Hinv. destruct (phase_eqb (phase (store w)) nebula) eqn:Ep.
  2:{ rewrite rotateCarousel_other; [exact Hinv |].
      intros H. apply phase_eqb_eq in H. congruence. }
  apply phase_eqb_eq in Ep. rewrite (rotateCarousel_nebula d w Ep).
  destruct Hinv as (Hb & Htw & Htm & (Hcyc & Hlast) & Hpos & Hgrp).
  unfold invariant, timersOk, positionsOk, settled in *. fields. rewrite Ep in *.
  split; [exact Hb |]. split; [now apply tweensOk_new |].
  split; [exact Htm |]. split; [split; assumption |].
  split.
  - rewrite lastWriter_last. exact Hpos.
  - intros H. contradiction.
Qed.

Lemma invariant_animate m w : invariant w -> invariant (animate m w).
Proof.
  intros Hinv. rewrite animate_unfold.
  destruct (phase (store w)) eqn:Ep; [| exact Hinv | | exact Hinv];
    destruct Hinv as (Hb & Htw & Htm & (Hcyc & Hlast) & Hpos & Hgrp).
  - (* tree: the ripple *)
    unfold applyRippleEffect.
    destruct (ripple_frame m PARTICLE_COUNT 0 (scene w))
      as (sc' & -> & H1 & H2 & H3 & H4 & H5 & H6 & H7).
    destruct Hb as (Lp & Lo & Le & Lv).
    unfold invariant, buffersOk, timersOk, positionsOk, settled in *. fields.
    rewrite Ep in *. rewrite H1, H2, H3, H4, H6, H7.
    split; [repeat split; assumption |]. split; [exact Htw |].
    split; [exact Htm |]. split; [split; assumption |].
    split; [destruct (lastWriter writesPositions (tweens w)); exact I | exact Hgrp].
  - (* nebula: the groups follow the photo group *)
    unfold invariant, buffersOk, timersOk, positionsOk, settled in *. fields.
    rewrite Ep in *.
    cbn [positions originalPositions explodedPositions velocities
         set_ornamentRotationY set_particleRotationY].
    split; [exact Hb |]. split; [exact Htw |].
    split; [exact Htm |]. split; [split; assumption |].
    split; [exact Hpos | intros H; contradiction].
Qed.

Lemma invariant_gsapTick t w : invariant w -> invariant (gsapTick t w).
Proof.
  intros (Hb & Htw & Htm & (Hcyc & Hlast) & Hpos & Hgrp).
  rewrite gsapTick_unfold. cbv zeta.
  set (T := Z.max (clock w) t).
  pose proof (renderAll_frame T (tweens w) (scene w) (store w)) as (F0 & F1 & F2 & F3 & F4).
  pose proof (renderAll_buffersOk T (tweens w) (scene w) (store w) Hb) as Hb'.
  pose proof (tick_positions T (tweens w) (scene w) (store w) Hb) as Tp.
  pose proof (tick_group T (tweens w) (scene w) (store w) Hb) as Tg.
  pose proof (renderAll_remaining writesPositions 2000%Z T kind_site_positions
                duration_positions (tweens w) (scene w) (store w) (proj2 Htw)) as Rp.
  pose proof (renderAll_remaining writesGroupRotation 2000%Z T kind_site_group
                duration_group (tweens w) (scene w) (store w) (proj2 Htw)) as Rg.
  pose proof (renderAll_starts T (fun s => (s <= T)%Z) (tweens w) (scene w) (store w)) as Hst.
  pose proof (renderAll_sorted T (tweens w) (scene w) (store w) (proj2 Htw)) as Hso.
  destruct (renderAll T (tweens w) (scene w) (store w)) as [[sc' st'] rem].
  cbn [fst snd] in *.
  unfold invariant, timersOk, positionsOk, settled in *. fields.
  rewrite F0.
  split; [exact Hb' |].
  split.
  { split; [| exact Hso]. apply Hst.
    eapply Forall_impl; [| exact (proj1 Htw)]. cbn. intros a Ha. subst T. lia. }
  split; [exact Htm |]. split; [split; assumption |].
  split.
  - destruct (lastWriter writesPositions (tweens w)) as [l |].
    + destruct Rp as (Rdone & Rrun).
      destruct (finished T l) eqn:Hf.
      * rewrite (Rdone eq_refl). specialize (Tp eq_refl). rewrite Tp, F1, F2.
        destruct (phase (store w)); try exact I; rewrite Hpos; reflexivity.
      * destruct (Rrun eq_refl) as (l' & -> & ->). exact Hpos.
    + rewrite Rp, Tp, F1, F2. exact Hpos.
  - intros Hph Hs.
    destruct (lastWriter writesGroupRotation (tweens w)) as [l |].
    + destruct Rg as (Rdone & Rrun).
      destruct (finished T l) eqn:Hf.
      * specialize (Tg eq_refl). injection Tg as -> ->. split; reflexivity.
      * destruct (Rrun eq_refl) as (l' & El' & _). congruence.
    + injection Tg as -> ->. apply Hgrp; [exact Hph | reflexivity].
Qed.

Lemma invariant_timerTask t w : invariant w -> invariant (timerTask t w).
Proof.
  intros (Hb & Htw & Htm & (Hcyc & Hlast) & Hpos & Hgrp).
  assert (Hlater : tweensOk (Z.max (clock w) t) (tweens w))
    by (apply (tweensOk_later (clock w)); [lia | exact Htw]).
  unfold timersOk in Htm.
  destruct (phase (store w)) eqn:Ep.
  - rewrite (timerTask_none t w Htm).
    unfold invariant, timersOk, positionsOk, settled in *. fields. rewrite Ep in *.
    split; [exact Hb |]. split; [exact Hlater |]. split; [reflexivity |].
    split; [split; assumption |]. split; [exact Hpos | exact Hgrp].
  - destruct Htm as (d & Htm). rewrite (timerTask_single t w d nebula Htm).
    destruct (d <=? Z.max (clock w) t)%Z;
      unfold invariant, timersOk, positionsOk, settled in *; fields; rewrite ?Ep in *.
    + split; [exact Hb |]. split; [exact Hlater |]. split; [reflexivity |].
      split; [split |].
      * rewrite followsCycle_app, Hcyc, Hlast. reflexivity.
      * apply last_last.
      * split; [exact Hpos | intros H; contradiction].
    + split; [exact Hb |]. split; [exact Hlater |]. split; [now exists d |].
      split; [split; assumption |]. split; assumption.
  - rewrite (timerTask_none t w Htm).
    unfold invariant, timersOk, positionsOk, settled in *. fields. rewrite Ep in *.
    split; [exact Hb |]. split; [exact Hlater |]. split; [reflexivity |].
    split; [split; assumption |]. split; [exact Hpos | intros H; contradiction].
  - destruct Htm as (d & Htm). rewrite (timerTask_single t w d tree Htm).
    destruct (d <=? Z.max (clock w) t)%Z;
      unfold invariant, timersOk, positionsOk, settled in *; fields; rewrite ?Ep in *.
    + split; [exact Hb |]. split; [exact Hlater |]. split; [reflexivity |].
      split; [split |].
      * rewrite followsCycle_app, Hcyc, Hlast. reflexivity.
      * apply last_last.
      * split.
        -- destruct (lastWriter writesPositions (tweens w)); exact I.
        -- intros _ Hs. apply Hgrp; [discriminate | exact Hs].
    + split; [exact Hb |]. split; [exact Hlater |]. split; [now exists d |].
      split; [split; assumption |]. split; assumption.
Qed.

Lemma invariant_step e w : invariant w -> invariant (step e w).
Proof.
  destruct e; cbn [step].
  - apply invariant_triggerBlooming.
  - apply invariant_triggerCollapsing.
  - apply invariant_rotateCarousel.
  - apply invariant_animate.
  - apply invariant_gsapTick.
  - apply invariant_timerTask.
Qed.

Lemma reachable_invariant w : reachable w -> invariant w.
Proof.
  induction 1 as [original exploded Lo Le | w e _ IH].
  - now apply invariant_initial.
  - now apply invariant_step.
Qed.

Lemma reachable_run evs : forall w, reachable w -> reachable (run evs w).
Proof.
  unfold run. induction evs as [| e evs IH]; intros w H; cbn [fold_left].
  - exact H.
  - apply IH. now constructor.
Qed.

(** ** Steps and runs *)

Lemma step_references e w :
  invariant w ->
  originalPositions (scene (step e w)) = originalPositions (scene w) /\
  explodedPositions (scene (step e w)) = explodedPositions (scene w).
Proof.
  intros Hinv. destruct e as [| | d | m | t | t]; cbn [step].
  - unfold triggerBlooming. destruct (negb _); split; reflexivity.
  - unfold triggerCollapsing. destruct (negb _); split; reflexivity.
  - unfold rotateCarousel. destruct (negb _); split; reflexivity.
  - rewrite animate_unfold.
    destruct (phase (store w)); [| split; reflexivity | split; reflexivity
                                 | split; reflexivity].
    unfold applyRippleEffect.
    destruct (ripple_frame m PARTICLE_COUNT 0 (scene w)) as (sc' & -> & H1 & H2 & _).
    fields. split; assumption.
  - rewrite gsapTick_unfold. cbv zeta. fields.
    destruct (renderAll_frame (Z.max (clock w) t) (tweens w) (scene w) (store w))
      as (_ & H1 & H2 & _). split; assumption.
  - destruct Hinv as (_ & _ & Htm & _). unfold timersOk in Htm.
    destruct (phase (store w)).
    + rewrite (timerTask_none t w Htm). split; reflexivity.
    + destruct Htm as (d & Htm). rewrite (timerTask_single t w d _ Htm).
      destruct (_ <=? _)%Z; split; reflexivity.
    + rewrite (timerTask_none t w Htm). split; reflexivity.
    + destruct Htm as (d & Htm). rewrite (timerTask_single t w d _ Htm).
      destruct (_ <=? _)%Z; split; reflexivity.
Qed.

Lemma run_references evs : forall w,
  invariant w ->
  originalPositions (scene (run evs w)) = originalPositions (scene w) /\
  explodedPositions (scene (run evs w)) = explodedPositions (scene w).
Proof.
  unfold run. induction evs as [| e evs IH]; intros w Hinv; cbn [fold_left].
  - split; reflexivity.
  - destruct (IH (step e w) (invariant_step e w Hinv)) as (-> & ->).
    now apply step_references.
Qed.

Lemma invariant_run evs : forall w, invariant w -> invariant (run evs w).
Proof.
  unfold run. induction evs as [| e evs IH]; intros w H; cbn [fold_left].
  - exact H.
  - apply IH. now apply invariant_step.
Qed.

(** The phase after one event is the phase before it or the next one on the
    cycle. *)
Lemma step_phase e w :
  invariant w ->
  phase (store (step e w)) = phase (store w) \/
  phaseEdge (phase (store w)) (phase (store (step e w))) = true.
Proof.
  intros Hinv. destruct e as [| | d | m | t | t]; cbn [step].
  - unfold triggerBlooming. destruct (phase (store w)) eqn:Ep; cbn; rewrite ?Ep; auto.
  - unfold triggerCollapsing. destruct (phase (store w)) eqn:Ep; cbn; rewrite ?Ep; auto.
  - unfold rotateCarousel. destruct (phase (store w)) eqn:Ep; cbn; rewrite ?Ep; auto.
  - left. unfold animate.
    destruct (phase_eqb (phase (store w)) tree), (phase_eqb (phase (store w)) nebula);
      reflexivity.
  - left. rewrite gsapTick_unfold. cbv zeta. fields.
    apply (renderAll_frame (Z.max (clock w) t) (tweens w) (scene w) (store w)).
  - destruct Hinv as (_ & _ & Htm & _). unfold timersOk in Htm.
    destruct (phase (store w)) eqn:Ep.
    + rewrite (timerTask_none t w Htm). fields. auto.
    + destruct Htm as (d & Htm). rewrite (timerTask_single t w d _ Htm).
      destruct (_ <=? _)%Z; fields; auto.
    + rewrite (timerTask_none t w Htm). fields. auto.
    + destruct Htm as (d & Htm). rewrite (timerTask_single t w d _ Htm).
      destruct (_ <=? _)%Z; fields; auto.
Qed.

(** While the phase is blooming or collapsing, everything but the timer task
    leaves the phase, the pending timer and the notifications alone, and an
    idle carousel stays idle where it is. *)
Lemma transient_step e w :
  invariant w -> notTimerTask e ->
  phase (store w) = blooming \/ phase (store w) = collapsing ->
  phase (store (step e w)) = phase (store w) /\
  timers (step e w) = timers w /\
  uiLog (step e w) = uiLog w /\
  (clock w <= clock (step e w))%Z /\
  (settled writesPhotoRotation w ->
   settled writesPhotoRotation (step e w) /\
   photoRotationY (scene (step e w)) = photoRotationY (scene w) /\
   carouselRotation (store (step e w)) = carouselRotation (store w)).
Proof.
  assert (Hsame : phase (store w) = phase (store w) /\ timers w = timers w /\
                  uiLog w = uiLog w /\ (clock w <= clock w)%Z /\
                  (settled writesPhotoRotation w ->
                   settled writesPhotoRotation w /\
                   photoRotationY (scene w) = photoRotationY (scene w) /\
                   carouselRotation (store w) = carouselRotation (store w))).
  { split; [reflexivity |]. split; [reflexivity |]. split; [reflexivity |].
    split; [lia |]. intros Hs. split; [exact Hs |]. split; reflexivity. }
  intros Hinv Hnt Hph. destruct e as [| | d | m | t | t]; cbn [step]; try contradiction.
  - rewrite triggerBlooming_other by (destruct Hph as [-> | ->]; discriminate).
    exact Hsame.
  - rewrite triggerCollapsing_other by (destruct Hph as [-> | ->]; discriminate).
    exact Hsame.
  - rewrite rotateCarousel_other by (destruct Hph as [-> | ->]; discriminate).
    exact Hsame.
  - assert (E : animate m w = w)
      by (rewrite animate_unfold; destruct Hph as [-> | ->]; reflexivity).
    rewrite E. exact Hsame.
  - destruct Hinv as (Hb & Htw & _).
    rewrite gsapTick_unfold. cbv zeta. unfold settled. fields.
    set (T := Z.max (clock w) t).
    pose proof (renderAll_frame T (tweens w) (scene w) (store w)) as (F0 & _).
    pose proof (tick_photo T (tweens w) (scene w) (store w) Hb) as Tp.
    pose proof (renderAll_remaining writesPhotoRotation 800%Z T kind_site_photo
                  duration_photo (tweens w) (scene w) (store w) (proj2 Htw)) as Rp.
    destruct (renderAll T (tweens w) (scene w) (store w)) as [[sc' st'] rem].
    cbn [fst snd] in *.
    split; [exact F0 |]. split; [reflexivity |]. split; [reflexivity |].
    split; [subst T; lia |].
    intros Hs. rewrite Hs in Tp, Rp. injection Tp as -> ->.
    split; [exact Rp | split; reflexivity].
Qed.

Lemma transient_run evs : forall w,
  invariant w -> Forall notTimerTask evs ->
  phase (store w) = blooming \/ phase (store w) = collapsing ->
  phase (store (run evs w)) = phase (store w) /\
  timers (run evs w) = timers w /\
  uiLog (run evs w) = uiLog w /\
  (clock w <= clock (run evs w))%Z /\
  (settled writesPhotoRotation w ->
   settled writesPhotoRotation (run evs w) /\
   photoRotationY (scene (run evs w)) = photoRotationY (scene w) /\
   carouselRotation (store (run evs w)) = carouselRotation (store w)).
Proof.
  unfold run. induction evs as [| e evs IH]; intros w Hinv Hall Hph; cbn [fold_left].
  - split; [reflexivity |]. split; [reflexivity |]. split; [reflexivity |].
    split; [lia |]. intros Hs. split; [exact Hs |]. split; reflexivity.
  - inversion Hall as [| ? ? He Hrest]; subst.
    destruct (transient_step e w Hinv He Hph) as (S1 & S2 & S3 & S4 & S5).
    destruct (IH (step e w) (invariant_step e w Hinv) Hrest) as (I1 & I2 & I3 & I4 & I5).
    { rewrite S1. exact Hph. }
    rewrite I1, I2, I3, S1, S2, S3.
    split; [reflexivity |]. split; [reflexivity |]. split; [reflexivity |].
    split; [lia |].
    intros Hs. destruct (S5 Hs) as (Hs' & P1 & C1).
    destruct (I5 Hs') as (Hs'' & P2 & C2).
    split; [exact Hs'' |]. split; congruence.
Qed.

(** A transient phase, once entered: any events but the timer task keep it,
    and the timer task ends it when the 2.5 seconds have passed. *)
Lemma bloom_then_exit w evs t :
  invariant w -> phase (store w) = tree -> Forall notTimerTask evs ->
  let b := run evs (triggerBlooming w) in
  phase (store b) = blooming /\
  timers b = [mkTimer (clock w + 2500) nebula] /\
  uiLog b = uiLog w ++ [blooming] /\
  timerTask t b =
  (if (clock w + 2500 <=? Z.max (clock b) t)%Z then
     mkWorld (Z.max (clock b) t) (mkStore nebula (carouselRotation (store b)))
             (scene b) (tweens b) [] (uiLog w ++ [blooming; nebula])
   else
     mkWorld (Z.max (clock b) t) (store b) (scene b) (tweens b)
             [mkTimer (clock w + 2500) nebula] (uiLog b)) /\
  ((clock w + 2500 <= t)%Z -> (clock w + 2500 <=? Z.max (clock b) t)%Z = true).
Proof.
  intros Hinv Ep Hall b.
  assert (Hinv1 : invariant (triggerBlooming w)) by now apply invariant_triggerBlooming.
  assert (Htm0 : timers w = []).
  { destruct Hinv as (_ & _ & Htm & _). unfold timersOk in Htm. now rewrite Ep in Htm. }
  assert (E1 := triggerBlooming_tree w Ep).
  destruct (transient_run evs (triggerBlooming w) Hinv1 Hall) as (P & Tm & Lg & Ck & _).
  { left. rewrite E1. reflexivity. }
  fold b in P, Tm, Lg, Ck. rewrite E1 in P, Tm, Lg, Ck. fields. rewrite Htm0 in Tm.
  cbn [app] in Tm.
  split; [exact P |]. split; [exact Tm |]. split; [exact Lg |]. split.
  - rewrite (timerTask_single t b _ _ Tm), Lg, <- app_assoc. reflexivity.
  - intros Ht. apply Z.leb_le. lia.
Qed.

Lemma collapse_then_exit w evs t :
  invariant w -> phase (store w) = nebula -> Forall notTimerTask evs ->
  let c := run evs (triggerCollapsing w) in
  phase (store c) = collapsing /\
  timers c = [mkTimer (clock w + 2500) tree] /\
  uiLog c = uiLog w ++ [collapsing] /\
  timerTask t c =
  (if (clock w + 2500 <=? Z.max (clock c) t)%Z then
     mkWorld (Z.max (clock c) t) (mkStore tree (carouselRotation (store c)))
             (scene c) (tweens c) [] (uiLog w ++ [collapsing; tree])
   else
     mkWorld (Z.max (clock c) t) (store c) (scene c) (tweens c)
             [mkTimer (clock w + 2500) tree] (uiLog c)) /\
  ((clock w + 2500 <= t)%Z -> (clock w + 2500 <=? Z.max (clock c) t)%Z = true).
Proof.
  intros Hinv Ep Hall c.
  assert (Hinv1 : invariant (triggerCollapsing w)) by now apply invariant_triggerCollapsing.
  assert (Htm0 : timers w = []).
  { destruct Hinv as (_ & _ & Htm & _). unfold timersOk in Htm. now rewrite Ep in Htm. }
  assert (E1 := triggerCollapsing_nebula w Ep).
  destruct (transient_run evs (triggerCollapsing w) Hinv1 Hall) as (P & Tm & Lg & Ck & _).
  { right. rewrite E1. reflexivity. }
  fold c in P, Tm, Lg, Ck. rewrite E1 in P, Tm, Lg, Ck. fields. rewrite Htm0 in Tm.
  cbn [app] in Tm.
  split; [exact P |]. split; [exact Tm |]. split; [exact Lg |]. split.
  - rewrite (timerTask_single t c _ _ Tm), Lg, <- app_assoc. reflexivity.
  - intros Ht. apply Z.leb_le. lia.
Qed.

(** ** The carousel *)

Lemma gsapTick_carousel t w l r :
  invariant w ->
  lastWriter writesPhotoRotation (tweens w) = Some l ->
  site l = Carousel r ->
  (startTime l + 800 <= Z.max (clock w) t)%Z ->
  phase (store (gsapTick t w)) = phase (store w) /\
  photoRotationY (scene (gsapTick t w)) = r /\
  carouselRotation (store (gsapTick t w)) = r /\
  settled writesPhotoRotation (gsapTick t w).
Proof.
  intros (Hb & Htw & _) El Es Hlate.
  rewrite gsapTick_unfold. cbv zeta. unfold settled. fields.
  set (T := Z.max (clock w) t) in *.
  assert (Hf : finished T l = true).
  { unfold finished. rewrite Es. cbn [duration]. now apply Z.leb_le. }
  pose proof (renderAll_frame T (tweens w) (scene w) (store w)) as (F0 & _).
  pose proof (tick_photo T (tweens w) (scene w) (store w) Hb) as Tp.
  pose proof (renderAll_remaining writesPhotoRotation 800%Z T kind_site_photo
                duration_photo (tweens w) (scene w) (store w) (proj2 Htw)) as Rp.
  rewrite El in Tp, Rp. specialize (Tp Hf). rewrite Es in Tp.
  destruct Rp as (Rdone & _). specialize (Rdone Hf).
  destruct (renderAll T (tweens w) (scene w) (store w)) as [[sc' st'] rem].
  cbn [fst snd] in *. injection Tp as -> ->.
  split; [exact F0 |]. split; [reflexivity |]. split; [reflexivity | exact Rdone].
Qed.

(** One call of [rotateCarousel] in the nebula, its tween left to finish. *)
Lemma rotate_once d wait m w :
  invariant w -> phase (store w) = nebula -> (800 <= wait)%Z ->
  let w' := run [RotateCarousel d; GsapTick (clock w + wait); Animate m] w in
  invariant w' /\ phase (store w') = nebula /\
  photoRotationY (scene w') = carouselRotation (store w) + d * (PI * 2 / PHOTO_COUNT) /\
  carouselRotation (store w') = carouselRotation (store w) + d * (PI * 2 / PHOTO_COUNT) /\
  particleRotationY (scene w') = photoRotationY (scene w') /\
  ornamentRotationY (scene w') = photoRotationY (scene w') /\
  settled writesPhotoRotation w'.
Proof.
  intros Hinv Ep Hwait w'.
  assert (Hinv' : invariant w') by (subst w'; now apply invariant_run).
  subst w'. unfold run in *. cbn [fold_left step] in *.
  set (w1 := rotateCarousel d w) in *.
  assert (Hinv1 : invariant w1) by now apply invariant_rotateCarousel.
  assert (E1 := rotateCarousel_nebula d w Ep). fold w1 in E1.
  destruct (gsapTick_carousel (clock w + wait) w1
              (mkTween (Carousel (carouselRotation (store w) + d * (PI * 2 / PHOTO_COUNT)))
                       (clock w) None)
              (carouselRotation (store w) + d * (PI * 2 / PHOTO_COUNT)) Hinv1)
    as (P & Ph & Cr & St).
  { rewrite E1. fields. rewrite lastWriter_last. reflexivity. }
  { reflexivity. }
  { rewrite E1. fields. cbn [startTime]. lia. }
  set (w2 := gsapTick (clock w + wait) w1) in *.
  assert (Ep2 : phase (store w2) = nebula) by (rewrite P, E1; fields; exact Ep).
  split; [exact Hinv' |].
  rewrite animate_unfold, Ep2. unfold settled in *. fields.
  cbn [photoRotationY particleRotationY ornamentRotationY set_ornamentRotationY
       set_particleRotationY].
  repeat split; assumption.
Qed.

Lemma rotations_all d m : forall waits w,
  invariant w -> phase (store w) = nebula -> Forall (fun wait => (800 <= wait)%Z) waits ->
  waits <> [] ->
  let w' := rotations d waits m w in
  phase (store w') = nebula /\
  photoRotationY (scene w')
  = carouselRotation (store w) + INR (length waits) * (d * (PI * 2 / PHOTO_COUNT)) /\
  carouselRotation (store w')
  = carouselRotation (store w) + INR (length waits) * (d * (PI * 2 / PHOTO_COUNT)) /\
  particleRotationY (scene w') = photoRotationY (scene w') /\
  ornamentRotationY (scene w') = photoRotationY (scene w').
Proof.
  induction waits as [| wait rest IH]; intros w Hinv Ep Hall Hne; [contradiction |].
  inversion Hall as [| ? ? Hwait Hrest]; subst.
  cbn [rotations].
  destruct (rotate_once d wait m w Hinv Ep Hwait) as (Hinv1 & Ep1 & Ph1 & Cr1 & Pa1 & Or1 & _).
  set (w1 := run _ w) in *.
  destruct rest as [| wait' rest'].
  - cbn [rotations length]. replace (INR 1) with 1 by reflexivity.
    split; [exact Ep1 |].
    split; [rewrite Ph1; ring |]. split; [rewrite Cr1; ring |].
    split; assumption.
  - destruct (IH w1 Hinv1 Ep1 Hrest) as (Q & Ph & Cr & Pa & Or); [discriminate |].
    change (length (wait :: wait' :: rest')) with (S (length (wait' :: rest'))).
    rewrite S_INR.
    split; [exact Q |].
    split; [rewrite Ph, Cr1; ring |]. split; [rewrite Cr, Cr1; ring |].
    split; assumption.
Qed.

(** ** The sample worlds *)

Lemma sampleWorld_reachable : reachable sampleWorld.
Proof. apply reachable_initial; apply repeat_length. Qed.

Lemma sampleNebula_reachable : reachable sampleNebula.
Proof. apply reachable_run, sampleWorld_reachable. Qed.

Lemma no_timer_task_gsap t : Forall notTimerTask [GsapTick t].
Proof. repeat constructor. Qed.

(** ** The phase machine *)

(** After an [init()] that no key disturbs, the phase only ever moves along
    the cycle tree, blooming, nebula, collapsing, tree: the history of the
    phase notifications follows the cycle and every event keeps the phase or
    takes one edge of it.
    [triggerBlooming] changes the phase only from tree (to blooming) and
    [triggerCollapsing] only from nebula (to collapsing); while the phase is
    blooming or collapsing both change nothing at all.  Blooming ends in
    nebula, and collapsing in tree, when the timer task runs 2500 ms or more
    after the trigger, and not before.  Blooming triggered twice yields one
    change to blooming and one to nebula. *)
Theorem phase_cycle_after_init :
  forall w : World, reachable w ->
    (followsCycle tree (uiLog w) = true /\ last (uiLog w) tree = phase (store w)) /\
    (forall e, phase (store (step e w)) = phase (store w) \/
               phaseEdge (phase (store w)) (phase (store (step e w))) = true) /\
    phase (store (triggerBlooming w))
    = (if phase_eqb (phase (store w)) tree then blooming else phase (store w)) /\
    phase (store (triggerCollapsing w))
    = (if phase_eqb (phase (store w)) nebula then collapsing else phase (store w)) /\
    (phase (store w) = blooming \/ phase (store w) = collapsing ->
     triggerBlooming w = w /\ triggerCollapsing w = w) /\
    (phase (store w) = tree ->
     forall evs t, Forall notTimerTask evs ->
       let b := run evs (triggerBlooming w) in
       phase (store b) = blooming /\
       phase (store (timerTask t b))
       = (if (clock w + 2500 <=? Z.max (clock b) t)%Z then nebula else blooming) /\
       ((clock w + 2500 <= t)%Z ->
        phase (store (timerTask t b)) = nebula /\
        uiLog (timerTask t b) = uiLog w ++ [blooming; nebula])) /\
    (phase (store w) = nebula ->
     forall evs t, Forall notTimerTask evs ->
       let c := run evs (triggerCollapsing w) in
       phase (store c) = collapsing /\
       phase (store (timerTask t c))
       = (if (clock w + 2500 <=? Z.max (clock c) t)%Z then tree else collapsing) /\
       ((clock w + 2500 <= t)%Z ->
        phase (store (timerTask t c)) = tree /\
        uiLog (timerTask t c) = uiLog w ++ [collapsing; tree])) /\
    (phase (store w) = tree ->
     forall t, (clock w + 2500 <= t)%Z ->
       uiLog (timerTask t (triggerBlooming (triggerBlooming w)))
       = uiLog w ++ [blooming; nebula]).
Proof.
  intros w Hr. pose proof (reachable_invariant w Hr) as Hinv.
  split; [apply Hinv |].
  split; [intros e; now apply step_phase |].
  split; [unfold triggerBlooming; destruct (phase (store w)) eqn:Ep; cbn;
          rewrite ?Ep; reflexivity |].
  split; [unfold triggerCollapsing; destruct (phase (store w)) eqn:Ep; cbn;
          rewrite ?Ep; reflexivity |].
  split.
  { intros Hph. split.
    - apply triggerBlooming_other. destruct Hph as [-> | ->]; discriminate.
    - apply triggerCollapsing_other. destruct Hph as [-> | ->]; discriminate. }
  split.
  { intros Ep evs t Hall b.
    destruct (bloom_then_exit w evs t Hinv Ep Hall) as (P & _ & _ & E & Hdue).
    fold b in P, E, Hdue. split; [exact P |]. rewrite E. split.
    - destruct (_ <=? _)%Z; fields; [reflexivity | exact P].
    - intros Ht. rewrite (Hdue Ht). fields. split; reflexivity. }
  split.
  { intros Ep evs t Hall c.
    destruct (collapse_then_exit w evs t Hinv Ep Hall) as (P & _ & _ & E & Hdue).
    fold c in P, E, Hdue. split; [exact P |]. rewrite E. split.
    - destruct (_ <=? _)%Z; fields; [reflexivity | exact P].
    - intros Ht. rewrite (Hdue Ht). fields. split; reflexivity. }
  intros Ep t Ht.
  destruct (bloom_then_exit w [TriggerBlooming] t Hinv Ep) as (_ & _ & _ & E & Hdue).
  { repeat constructor. }
  unfold run in E, Hdue. cbn [fold_left step] in E, Hdue.
  rewrite E, (Hdue Ht). reflexivity.
Qed.

Lemma phase_cycle_after_init_sample :
  phase (store sampleWorld) = tree /\ (clock sampleWorld + 2500 <= 2600)%Z /\
  uiLog (timerTask 2600 (triggerBlooming (triggerBlooming sampleWorld)))
  = [blooming; nebula].
Proof.
  split; [reflexivity |]. split; [cbn; lia |].
  apply (phase_cycle_after_init sampleWorld sampleWorld_reachable).
  - reflexivity.
  - cbn. lia.
Defined.

(** ** The round trip of the particles *)

(** C3. From the tree phase, wherever the ripple has left the particles:
    blooming is triggered and its interpolation runs to completion (no
    particle tween is left in flight), the timer takes the phase to nebula,
    where every particle is on its exploded position; collapsing is triggered
    and its interpolation runs to completion, the timer takes the phase back
    to tree.  Then every particle is on its original position, hence within
    any epsilon of it. *)
Theorem C3_round_trip :
  forall (w : World) (evs1 evs2 evs3 : list Event) (t1 t3 : Z),
    reachable w -> phase (store w) = tree ->
    Forall notTimerTask evs1 -> Forall notTimerTask evs3 ->
    let b := run evs1 (triggerBlooming w) in
    settled writesPositions b -> (clock w + 2500 <= t1)%Z ->
    let n := run evs2 (timerTask t1 b) in
    phase (store n) = nebula ->
    let c := run evs3 (triggerCollapsing n) in
    settled writesPositions c -> (clock n + 2500 <= t3)%Z ->
    let w' := timerTask t3 c in
    phase (store (timerTask t1 b)) = nebula /\
    positions (scene (timerTask t1 b)) = explodedPositions (scene w) /\
    phase (store w') = tree /\
    positions (scene w') = originalPositions (scene w) /\
    (forall eps j, 0 < eps ->
       Rabs (aget (positions (scene w')) j - aget (originalPositions (scene w)) j) < eps).
Proof.
  intros w evs1 evs2 evs3 t1 t3 Hr Ep Hall1 Hall3 b Hb Ht1 n Epn c Hc Ht3 w'.
  pose proof (reachable_invariant w Hr) as Hinv.
  assert (Hrb : reachable b).
  { subst b. apply reachable_run. now apply (reachable_step w TriggerBlooming). }
  assert (Hrn : reachable n).
  { subst n. apply reachable_run. now apply (reachable_step b (TimerTask t1)). }
  assert (Hrc : reachable c).
  { subst c. apply reachable_run. now apply (reachable_step n TriggerCollapsing). }
  pose proof (reachable_invariant b Hrb) as Hinvb.
  pose proof (reachable_invariant n Hrn) as Hinvn.
  pose proof (reachable_invariant c Hrc) as Hinvc.
  (* the reference positions never change *)
  assert (Rb : originalPositions (scene b) = originalPositions (scene w) /\
               explodedPositions (scene b) = explodedPositions (scene w)).
  { subst b. destruct (run_references evs1 (triggerBlooming w)) as (-> & ->).
    - now apply invariant_triggerBlooming.
    - apply (step_references TriggerBlooming w Hinv). }
  assert (Rn : originalPositions (scene n) = originalPositions (scene w)).
  { subst n. destruct (run_references evs2 (timerTask t1 b)) as (-> & _).
    - now apply invariant_timerTask.
    - destruct (step_references (TimerTask t1) b Hinvb) as (E & _).
      cbn [step] in E. rewrite E. apply Rb. }
  assert (Rc : originalPositions (scene c) = originalPositions (scene w)).
  { subst c. destruct (run_references evs3 (triggerCollapsing n)) as (-> & _).
    - now apply invariant_triggerCollapsing.
    - destruct (step_references TriggerCollapsing n Hinvn) as (E & _).
      cbn [step] in E. rewrite E. exact Rn. }
  (* blooming, run to completion, then the timer *)
  destruct (bloom_then_exit w evs1 t1 Hinv Ep Hall1) as (Pb & _ & _ & Eb & Hdue1).
  fold b in Pb, Eb, Hdue1. rewrite (Hdue1 Ht1) in Eb.
  assert (Posb : positions (scene b) = explodedPositions (scene b)).
  { destruct Hinvb as (_ & _ & _ & _ & Hpos & _).
    unfold positionsOk in Hpos. unfold settled in Hb. now rewrite Hb, Pb in Hpos. }
  (* collapsing, run to completion, then the timer *)
  destruct (collapse_then_exit n evs3 t3 Hinvn Epn Hall3) as (Pc & _ & _ & Ec & Hdue3).
  fold c in Pc, Ec, Hdue3. rewrite (Hdue3 Ht3) in Ec.
  assert (Posc : positions (scene c) = originalPositions (scene c)).
  { destruct Hinvc as (_ & _ & _ & _ & Hpos & _).
    unfold positionsOk in Hpos. unfold settled in Hc. now rewrite Hc, Pc in Hpos. }
  assert (Final : positions (scene w') = originalPositions (scene w)).
  { subst w'. rewrite Ec. fields. now rewrite Posc. }
  split; [rewrite Eb; reflexivity |].
  split; [rewrite Eb; fields; rewrite Posb; apply Rb |].
  split; [subst w'; rewrite Ec; reflexivity |].
  split; [exact Final |].
  intros eps j Heps. rewrite Final.
  unfold Rminus. rewrite Rplus_opp_r, Rabs_R0. exact Heps.
Qed.

Lemma C3_witness :
  let b := run [GsapTick 2000] (triggerBlooming sampleWorld) in
  let n := run [] (timerTask 2500 b) in
  let c := run [GsapTick 4500] (triggerCollapsing n) in
  settled writesPositions b /\ phase (store n) = nebula /\ settled writesPositions c /\
  phase (store (timerTask 5000 c)) = tree /\
  positions (scene (timerTask 5000 c)) = originalPositions (scene sampleWorld).
Proof.
  cbv zeta.
  split; [reflexivity |]. split; [reflexivity |]. split; [reflexivity |].
  destruct (C3_round_trip sampleWorld [GsapTick 2000] [] [GsapTick 4500] 2500 5000)
    as (_ & _ & Hphase & Hpos & _).
  - apply sampleWorld_reachable.
  - reflexivity.
  - apply no_timer_task_gsap.
  - apply no_timer_task_gsap.
  - reflexivity.
  - cbn. lia.
  - reflexivity.
  - reflexivity.
  - cbn. lia.
  - split; [exact Hphase | exact Hpos].
Defined.

(** ** The carousel and the end of collapsing *)

Lemma step_angle : PI * 2 / PHOTO_COUNT = 2 * PI / 24.
Proof. unfold PHOTO_COUNT. field. Qed.

(** C7. [rotateCarousel] does nothing unless the phase is nebula.  In nebula
    it starts a tween of the photo group to the store's carousel rotation
    plus [direction * (2 PI / 24)], and when that tween has finished the photo
    group and the store are at that angle.  Called 24 times with direction 1,
    each tween left to finish, it takes the ring once around: the rotation is
    the original one plus 2 PI. *)
Theorem C7_carousel :
  forall w : World, reachable w ->
    (phase (store w) <> nebula -> forall d, rotateCarousel d w = w) /\
    (phase (store w) = nebula ->
     (forall d, exists target,
        target = carouselRotation (store w) + d * (2 * PI / 24) /\
        rotateCarousel d w
        = set_tweens (tweens w ++ [mkTween (Carousel target) (clock w) None]) w) /\
     (forall d wait m, (800 <= wait)%Z ->
        let w' := run [RotateCarousel d; GsapTick (clock w + wait); Animate m] w in
        photoRotationY (scene w') = carouselRotation (store w) + d * (2 * PI / 24) /\
        carouselRotation (store w') = carouselRotation (store w) + d * (2 * PI / 24)) /\
     (photoRotationY (scene w) = carouselRotation (store w) ->
      forall waits m,
        length waits = 24%nat -> Forall (fun wait => (800 <= wait)%Z) waits ->
        let w' := rotations 1 waits m w in
        phase (store w') = nebula /\
        photoRotationY (scene w') = photoRotationY (scene w) + 2 * PI /\
        carouselRotation (store w') = carouselRotation (store w) + 2 * PI /\
        particleRotationY (scene w') = photoRotationY (scene w') /\
        ornamentRotationY (scene w') = photoRotationY (scene w') /\
        exists k : Z, photoRotationY (scene w') = photoRotationY (scene w) + IZR k * (2 * PI))).
Proof.
  intros w Hr. pose proof (reachable_invariant w Hr) as Hinv.
  split; [intros Hph d; now apply rotateCarousel_other |].
  intros Ep. split; [| split].
  - intros d. eexists. split; [reflexivity |].
    rewrite (rotateCarousel_nebula d w Ep), step_angle. reflexivity.
  - intros d wait m Hwait w'.
    destruct (rotate_once d wait m w Hinv Ep Hwait) as (_ & _ & Ph & Cr & _).
    fold w' in Ph, Cr. rewrite Ph, Cr, step_angle. split; reflexivity.
  - intros Hsync waits m Hlen Hall w'.
    destruct (rotations_all 1 m waits w Hinv Ep Hall) as (P & Ph & Cr & Pa & Or).
    { intros ->. discriminate Hlen. }
    fold w' in P, Ph, Cr, Pa, Or. rewrite Hlen, step_angle in Ph, Cr.
    assert (Hturn : INR 24 * (1 * (2 * PI / 24)) = 2 * PI).
    { replace (INR 24) with 24 by (cbn; ring). field. }
    rewrite Hturn in Ph, Cr.
    split; [exact P |]. split; [rewrite Ph, Hsync; reflexivity |].
    split; [exact Cr |]. split; [exact Pa |]. split; [exact Or |].
    exists 1%Z. rewrite Ph, Hsync. ring.
Qed.

Lemma C7_witness :
  phase (store sampleNebula) = nebula /\
  photoRotationY (scene sampleNebula) = carouselRotation (store sampleNebula) /\
  photoRotationY (scene (rotations 1 (repeat 800%Z 24) (mkVector3 0 0 0) sampleNebula))
  = photoRotationY (scene sampleNebula) + 2 * PI.
Proof.
  assert (Hphase : phase (store sampleNebula) = nebula) by reflexivity.
  assert (Hsync : photoRotationY (scene sampleNebula)
                  = carouselRotation (store sampleNebula))
    by (transitivity 0; reflexivity).
  assert (Hwaits : Forall (fun wait => (800 <= wait)%Z) (repeat 800%Z 24))
    by (repeat constructor; lia).
  split; [exact Hphase |]. split; [exact Hsync |].
  destruct (C7_carousel sampleNebula sampleNebula_reachable) as (_ & Hneb).
  destruct (Hneb Hphase) as (_ & _ & Hturn).
  destruct (Hturn Hsync (repeat 800%Z 24) (mkVector3 0 0 0) eq_refl Hwaits)
    as (_ & Hring & _).
  exact Hring.
Defined.

(** What collapsing resets.  Entering the collapsing phase starts the
    reverse interpolation of the particles and a tween of the rotation of the
    particle system and of the ornament group to 0.  When both have run to
    completion and the timer has taken the phase to tree, every particle is
    on its original position and these two rotations are 0.  The rotation of
    the photo group and the store's [carouselRotation] are not reset: with the
    carousel idle they are what they were in the nebula. *)
Theorem collapse_completes :
  forall (w : World) (evs : list Event) (t : Z),
    reachable w -> phase (store w) = nebula -> Forall notTimerTask evs ->
    let c := run evs (triggerCollapsing w) in
    settled writesPositions c -> settled writesGroupRotation c ->
    (clock w + 2500 <= t)%Z ->
    let w' := timerTask t c in
    tweens (triggerCollapsing w)
    = tweens w ++ [mkTween CollapseParticles (clock w) None;
                   mkTween ResetRotation (clock w) None] /\
    phase (store c) = collapsing /\
    phase (store w') = tree /\
    positions (scene w') = originalPositions (scene w) /\
    particleRotationY (scene w') = 0 /\
    ornamentRotationY (scene w') = 0 /\
    (settled writesPhotoRotation w ->
     photoRotationY (scene w') = photoRotationY (scene w) /\
     carouselRotation (store w') = carouselRotation (store w)).
Proof.
  intros w evs t Hr Ep Hall c Hpos Hgrp Ht w'.
  pose proof (reachable_invariant w Hr) as Hinv.
  assert (Hinv1 : invariant (triggerCollapsing w)) by now apply invariant_triggerCollapsing.
  assert (Hinvc : invariant c) by (subst c; now apply invariant_run).
  assert (E1 := triggerCollapsing_nebula w Ep).
  destruct (collapse_then_exit w evs t Hinv Ep Hall) as (Pc & _ & _ & Ec & Hdue).
  fold c in Pc, Ec, Hdue. rewrite (Hdue Ht) in Ec.
  destruct (transient_run evs (triggerCollapsing w) Hinv1 Hall) as (_ & _ & _ & _ & Hphoto).
  { right. rewrite E1. reflexivity. }
  fold c in Hphoto.
  assert (Rc : originalPositions (scene c) = originalPositions (scene w)).
  { subst c. destruct (run_references evs (triggerCollapsing w) Hinv1) as (-> & _).
    rewrite E1. reflexivity. }
  destruct Hinvc as (_ & _ & _ & _ & Hp & Hg).
  unfold positionsOk in Hp. unfold settled in Hpos. rewrite Hpos, Pc in Hp.
  destruct (Hg ltac:(rewrite Pc; discriminate) Hgrp) as (G1 & G2).
  split; [rewrite E1, <- app_assoc; reflexivity |].
  split; [exact Pc |].
  subst w'. rewrite Ec. fields.
  split; [reflexivity |]. split; [now rewrite Hp |].
  split; [exact G1 |]. split; [exact G2 |].
  intros Hs. destruct Hphoto as (_ & P & C).
  { unfold settled in *. rewrite E1. fields. rewrite !lastWriter_last. exact Hs. }
  rewrite P, C, E1. split; reflexivity.
Qed.

Lemma collapse_completes_sample :
  let c := run [GsapTick 4500] (triggerCollapsing sampleNebula) in
  settled writesPositions c /\ settled writesGroupRotation c /\
  settled writesPhotoRotation sampleNebula /\
  phase (store (timerTask 5000 c)) = tree /\
  positions (scene (timerTask 5000 c)) = originalPositions (scene sampleNebula) /\
  particleRotationY (scene (timerTask 5000 c)) = 0 /\
  ornamentRotationY (scene (timerTask 5000 c)) = 0 /\
  photoRotationY (scene (timerTask 5000 c)) = photoRotationY (scene sampleNebula).
Proof.
  cbv zeta.
  assert (Hpos : settled writesPositions
                   (run [GsapTick 4500] (triggerCollapsing sampleNebula)))
    by reflexivity.
  assert (Hgrp : settled writesGroupRotation
                   (run [GsapTick 4500] (triggerCollapsing sampleNebula)))
    by reflexivity.
  assert (Hidle : settled writesPhotoRotation sampleNebula) by reflexivity.
  assert (Hphase : phase (store sampleNebula) = nebula) by reflexivity.
  assert (Hclock : clock sampleNebula = 2500%Z) by reflexivity.
  assert (Hlate : (clock sampleNebula + 2500 <= 5000)%Z) by (rewrite Hclock; lia).
  split; [exact Hpos |]. split; [exact Hgrp |]. split; [exact Hidle |].
  destruct (collapse_completes sampleNebula [GsapTick 4500] 5000 sampleNebula_reachable
              Hphase (no_timer_task_gsap 4500) Hpos Hgrp Hlate)
    as (_ & _ & Htree & Horigin & Hp & Ho & Hphoto).
  destruct (Hphoto Hidle) as (Hring & _).
  split; [exact Htree |]. split; [exact Horigin |]. split; [exact Hp |].
  split; [exact Ho | exact Hring].
Defined.

(** C8.  The carousel is not reset by collapsing.  After one step of the
    carousel in the nebula (the particle system and the ornament group follow
    the photo group on the next frame) and a complete collapse, the phase is
    tree, no tween is in flight, the particle system and the ornament group
    are back at 0, and both the rotation of the photo group and the store's
    [carouselRotation] are still 2 PI / 24, not 0.  The next bloom shows it:
    the nebula is entered with the particle system and the ornament group at
    0, and the first frame of [animate] throws them to the angle the photo
    group was left at. *)
Example C8_carousel_rotation_not_reset :
  let collapsed := run [RotateCarousel 1; GsapTick 3300; Animate (mkVector3 0 0 0);
                        TriggerCollapsing; GsapTick 5300; TimerTask 5800] sampleNebula in
  let again := run [TriggerBlooming; GsapTick 7800; TimerTask 8300] collapsed in
  let frame := animate (mkVector3 0 0 0) again in
  (phase (store collapsed) = tree /\ tweens collapsed = [] /\ timers collapsed = [] /\
   particleRotationY (scene collapsed) = 0 /\ ornamentRotationY (scene collapsed) = 0 /\
   photoRotationY (scene collapsed) = 2 * PI / 24 /\
   carouselRotation (store collapsed) = 2 * PI / 24 /\
   photoRotationY (scene collapsed) <> 0 /\ carouselRotation (store collapsed) <> 0) /\
  (phase (store again) = nebula /\ tweens again = [] /\
   particleRotationY (scene again) = 0 /\ ornamentRotationY (scene again) = 0 /\
   photoRotationY (scene again) = 2 * PI / 24) /\
  (particleRotationY (scene frame) = 2 * PI / 24 /\
   ornamentRotationY (scene frame) = 2 * PI / 24 /\
   particleRotationY (scene frame) <> particleRotationY (scene again)).
Proof.
  cbv zeta.
  set (collapsed := run _ sampleNebula).
  set (again := run _ collapsed).
  assert (Ephoto : photoRotationY (scene collapsed) = 0 + 1 * (PI * 2 / PHOTO_COUNT))
    by reflexivity.
  assert (Estore : carouselRotation (store collapsed) = 0 + 1 * (PI * 2 / PHOTO_COUNT))
    by reflexivity.
  assert (Eagain : photoRotationY (scene again) = 0 + 1 * (PI * 2 / PHOTO_COUNT))
    by reflexivity.
  assert (Pagain : phase (store again) = nebula) by reflexivity.
  assert (Ragain : particleRotationY (scene again) = 0) by reflexivity.
  assert (Hangle : 0 + 1 * (PI * 2 / PHOTO_COUNT) = 2 * PI / 24)
    by (rewrite step_angle; ring).
  pose proof PI_RGT_0 as Hpi.
  split.
  { split; [reflexivity |]. split; [reflexivity |]. split; [reflexivity |].
    split; [reflexivity |]. split; [reflexivity |].
    rewrite Ephoto, Estore, Hangle.
    split; [reflexivity |]. split; [reflexivity |]. split; lra. }
  split.
  { split; [exact Pagain |]. split; [reflexivity |]. split; [exact Ragain |].
    split; [reflexivity |]. rewrite Eagain. exact Hangle. }
  rewrite animate_unfold, Pagain.
  cbn [scene set_scene particleRotationY ornamentRotationY set_particleRotationY
       set_ornamentRotationY].
  rewrite Ragain, Eagain, Hangle.
  split; [reflexivity |]. split; [reflexivity |]. lra.
Qed.

End AppFacts.

Module BootFacts.
Import App Boot.
Local Open Scope R_scope.

#[local] Opaque PARTICLE_COUNT.

(** ** An [init()] that no key disturbs *)

Lemma init_undisturbed original exploded :
  step (InitDone original exploded) loaded = Running (initial original exploded).
Proof. reflexivity. Qed.

Lemma run_Running evs w : run (map Do evs) (Running w) = Running (App.run evs w).
Proof.
  revert w. induction evs as [| e evs IH]; intros w; [reflexivity |].
  change (run (map Do (e :: evs)) (Running w))
    with (run (map Do evs) (step (Do e) (Running w))).
  change (App.run (e :: evs) w) with (App.run evs (App.step e w)).
  rewrite <- IH. f_equal. destruct e; reflexivity.
Qed.

(** After such an [init()] the page is in the worlds of [reachable]. *)
Lemma reachable_after_init original exploded evs :
  length original = (PARTICLE_COUNT * 3)%nat ->
  length exploded = (PARTICLE_COUNT * 3)%nat ->
  exists w, run (InitDone original exploded :: map Do evs) loaded = Running w /\
            reachable w.
Proof.
  intros Lo Le. exists (App.run evs (initial original exploded)). split.
  - change (run (InitDone original exploded :: map Do evs) loaded)
      with (run (map Do evs) (step (InitDone original exploded) loaded)).
    rewrite init_undisturbed. apply run_Running.
  - apply AppFacts.reachable_run. now constructor.
Qed.

(** ** A key pressed while [init()] runs *)

Lemma stuckInBlooming_step e p : stuckInBlooming p -> stuckInBlooming (step e p).
Proof.
  intros (Hp & Hl & Ht & Htw).
  destruct p as [st log | w]; cbn [storeOf uiLogOf timersOf] in *.
  - destruct e as [original exploded | e].
    + cbn [step]. repeat split; cbn; assumption || reflexivity.
    + destruct e; cbn [step triggerBlooming triggerCollapsing rotateCarousel];
        rewrite ?Hp; cbn [phase_eqb negb fst];
        repeat split; cbn [storeOf uiLogOf timersOf]; assumption.
  - assert (Hnt : phase (store w) <> tree) by (rewrite Hp; discriminate).
    assert (Hnn : phase (store w) <> nebula) by (rewrite Hp; discriminate).
    destruct e as [original exploded | e].
    + cbn [step]. repeat split; assumption.
    + assert (E : step (Do e) (Running w) = Running (App.step e w))
        by (destruct e; reflexivity).
      rewrite E. clear E.
      destruct e as [| | d | m | t | t]; cbn [App.step].
      * rewrite (AppFacts.triggerBlooming_other w Hnt). repeat split; assumption.
      * rewrite (AppFacts.triggerCollapsing_other w Hnn). repeat split; assumption.
      * rewrite (AppFacts.rotateCarousel_other d w Hnn). repeat split; assumption.
      * rewrite AppFacts.animate_unfold, Hp. repeat split; assumption.
      * pose proof (AppFacts.gsapTick_unfold t w) as E. cbv zeta in E.
        rewrite Htw in E. cbn [renderAll fst snd] in E. rewrite E.
        repeat split; cbn; assumption || reflexivity.
      * rewrite (AppFacts.timerTask_none t w Ht).
        repeat split; cbn; assumption || reflexivity.
Qed.

Lemma stuckInBlooming_run evs p : stuckInBlooming p -> stuckInBlooming (run evs p).
Proof.
  revert p. induction evs as [| e evs IH]; intros p H; [exact H |].
  change (run (e :: evs) p) with (run evs (step e p)).
  apply IH. now apply stuckInBlooming_step.
Qed.

(** C1.  The phase does not always leave blooming.  The key o calls
    [triggerBlooming] from the moment the module is evaluated; pressed while
    [init()] is still waiting for the environment map, the call sets the
    phase to blooming, updates the user interface, and throws before it
    reaches [setTimeout].  From then on the phase is blooming whatever
    happens: [init()] getting through, further triggers, frames, ticks and
    timer tasks at any time; nebula is never announced.  (After an [init()]
    that no key disturbs, the same trigger is followed by nebula when the
    timer task runs 2500 ms later.) *)
Theorem C1_blooming_before_init_never_ends :
  forall evs : list PageEvent,
    triggerBlooming loaded = (keyBeforeInit, Throws) /\
    phase (storeOf keyBeforeInit) = blooming /\
    timersOf keyBeforeInit = [] /\
    (let p := run evs keyBeforeInit in
     phase (storeOf p) = blooming /\ uiLogOf p = [blooming] /\ timersOf p = []) /\
    (forall original exploded t,
       (2500 <= t)%Z ->
       let stuck := run [InitDone original exploded; Do TriggerBlooming;
                         Do (TimerTask t)] keyBeforeInit in
       let sound := run [InitDone original exploded; Do TriggerBlooming;
                         Do (TimerTask t)] loaded in
       phase (storeOf stuck) = blooming /\ uiLogOf stuck = [blooming] /\
       phase (storeOf sound) = nebula /\ uiLogOf sound = [blooming; nebula]).
Proof.
  intros evs.
  assert (Hstuck : stuckInBlooming keyBeforeInit) by (repeat split).
  split; [reflexivity |]. split; [reflexivity |]. split; [reflexivity |].
  split.
  { destruct (stuckInBlooming_run evs keyBeforeInit Hstuck) as (P & L & T & _).
    cbv zeta. repeat split; assumption. }
  intros original exploded t Ht stuck sound.
  destruct (stuckInBlooming_run
              [InitDone original exploded; Do TriggerBlooming; Do (TimerTask t)]
              keyBeforeInit Hstuck) as (P & L & _).
  fold stuck in P, L. split; [exact P |]. split; [exact L |].
  subst sound. unfold run. cbn [fold_left]. rewrite init_undisturbed.
  cbn [step App.step triggerBlooming fst].
  rewrite (AppFacts.triggerBlooming_tree (initial original exploded) eq_refl).
  erewrite AppFacts.timerTask_single by reflexivity.
  cbn [clock initial].
  replace (0 + 2500 <=? Z.max 0 t)%Z with true by (symmetry; apply Z.leb_le; lia).
  split; reflexivity.
Qed.

End BootFacts.

Module DistributionsFacts.
Import Geometry Distributions.
Local Open Scope R_scope.

Lemma sqrt_sum_sq_abs (a : R) : sqrt (a * a) = Rabs a.
Proof. rewrite <- sqrt_Rsqr_abs. reflexivity. Qed.

Lemma polar_norm (a r : R) :
  cos a * r * (cos a * r) + sin a * r * (sin a * r) = r * r.
Proof.
  pose proof (sin2_cos2 a) as H. unfold Rsqr in H.
  replace (cos a * r * (cos a * r) + sin a * r * (sin a * r))
    with ((sin a * sin a + cos a * cos a) * (r * r)) by ring.
  rewrite H. ring.
Qed.

(** A point at polar angle [a] and radius [r] about the vertical axis is
    [|r|] away from it. *)
Lemma axisDistance_polar (a r y : R) :
  axisDistance (mkVector3 (cos a * r) y (sin a * r)) = Rabs r.
Proof.
  unfold axisDistance, calculateDistance. cbn [vx vy vz].
  rewrite <- sqrt_sum_sq_abs. f_equal.
  rewrite <- (polar_norm a r). ring.
Qed.

Lemma sum_sq_nonneg (a b c : R) : 0 <= a * a + b * b + c * c.
Proof.
  pose proof (Rle_0_sqr a) as S1. pose proof (Rle_0_sqr b) as S2.
  pose proof (Rle_0_sqr c) as S3. unfold Rsqr in *. lra.
Qed.

Lemma dot_le_norms (a b c x y z : R) :
  a * x + b * y + c * z <= sqrt (a * a + b * b + c * c) * sqrt (x * x + y * y + z * z).
Proof.
  rewrite <- sqrt_mult by apply sum_sq_nonneg.
  destruct (Rle_dec (a * x + b * y + c * z) 0) as [Hneg | Hpos].
  - eapply Rle_trans; [exact Hneg | apply sqrt_pos].
  - apply Rnot_le_lt in Hpos.
    rewrite <- (sqrt_square (a * x + b * y + c * z)) at 1 by lra.
    pose proof (sum_sq_nonneg a b c) as Na. pose proof (sum_sq_nonneg x y z) as Nx.
    apply sqrt_le_1; [nra | nra |].
    assert (H : (a * a + b * b + c * c) * (x * x + y * y + z * z)
                - (a * x + b * y + c * z) * (a * x + b * y + c * z)
                = (a * y - b * x) * (a * y - b * x)
                  + (a * z - c * x) * (a * z - c * x)
                  + (b * z - c * y) * (b * z - c * y)) by ring.
    pose proof (Rle_0_sqr (a * y - b * x)) as S1.
    pose proof (Rle_0_sqr (a * z - c * x)) as S2.
    pose proof (Rle_0_sqr (b * z - c * y)) as S3.
    unfold Rsqr in S1, S2, S3. lra.
Qed.

Lemma calculateDistance_zero (x1 y1 z1 x2 y2 z2 : R) :
  calculateDistance x1 y1 z1 x2 y2 z2 = 0 <-> x1 = x2 /\ y1 = y2 /\ z1 = z2.
Proof.
  unfold calculateDistance. cbv zeta. split.
  - intros H. apply sqrt_eq_0 in H; [| apply sum_sq_nonneg].
    pose proof (Rle_0_sqr (x1 - x2)) as S1. pose proof (Rle_0_sqr (y1 - y2)) as S2.
    pose proof (Rle_0_sqr (z1 - z2)) as S3. unfold Rsqr in S1, S2, S3.
    assert (H1 : Rsqr (x1 - x2) = 0) by (unfold Rsqr; lra).
    assert (H2 : Rsqr (y1 - y2) = 0) by (unfold Rsqr; lra).
    assert (H3 : Rsqr (z1 - z2) = 0) by (unfold Rsqr; lra).
    apply Rsqr_0_uniq in H1, H2, H3. repeat split; lra.
  - intros (-> & -> & ->).
    replace ((x2 - x2) * (x2 - x2) + (y2 - y2) * (y2 - y2) + (z2 - z2) * (z2 - z2))
      with 0 by ring.
    apply sqrt_0.
Qed.

(** X1. [calculateDistance] is a metric on points: it is never negative, it
    is symmetric, it is zero exactly between a point and itself, and it obeys
    the triangle inequality. *)
Theorem calculateDistance_metric :
  forall x1 y1 z1 x2 y2 z2 x3 y3 z3 : R,
    0 <= calculateDistance x1 y1 z1 x2 y2 z2 /\
    calculateDistance x1 y1 z1 x2 y2 z2 = calculateDistance x2 y2 z2 x1 y1 z1 /\
    (calculateDistance x1 y1 z1 x2 y2 z2 = 0 <-> x1 = x2 /\ y1 = y2 /\ z1 = z2) /\
    calculateDistance x1 y1 z1 x3 y3 z3
    <= calculateDistance x1 y1 z1 x2 y2 z2 + calculateDistance x2 y2 z2 x3 y3 z3.
Proof.
  intros. split; [apply sqrt_pos |].
  split; [unfold calculateDistance; cbv zeta; f_equal; ring |].
  split; [apply calculateDistance_zero |].
  unfold calculateDistance. cbv zeta.
  set (a := x1 - x2). set (b := y1 - y2). set (c := z1 - z2).
  set (x := x2 - x3). set (y := y2 - y3). set (z := z2 - z3).
  replace (x1 - x3) with (a + x) by (unfold a, x; ring).
  replace (y1 - y3) with (b + y) by (unfold b, y; ring).
  replace (z1 - z3) with (c + z) by (unfold c, z; ring).
  pose proof (dot_le_norms a b c x y z) as Hcs.
  pose proof (sqrt_pos (a * a + b * b + c * c)) as Hp.
  pose proof (sqrt_pos (x * x + y * y + z * z)) as Hq.
  apply Rsqr_incr_0_var; [| lra].
  unfold Rsqr.
  pose proof (sum_sq_nonneg a b c) as Na. pose proof (sum_sq_nonneg x y z) as Nx.
  rewrite sqrt_sqrt by apply sum_sq_nonneg.
  replace ((sqrt (a * a + b * b + c * c) + sqrt (x * x + y * y + z * z))
           * (sqrt (a * a + b * b + c * c) + sqrt (x * x + y * y + z * z)))
    with (sqrt (a * a + b * b + c * c) * sqrt (a * a + b * b + c * c)
          + sqrt (x * x + y * y + z * z) * sqrt (x * x + y * y + z * z)
          + 2 * (sqrt (a * a + b * b + c * c) * sqrt (x * x + y * y + z * z)))
    by ring.
  rewrite !sqrt_sqrt by assumption. lra.
Qed.

(** X2. [sphericalToCartesian] puts the point on the sphere of the given
    radius about the origin, whatever the two angles are. *)
Theorem sphericalToCartesian_on_sphere :
  forall radius theta phi : R,
    originDistance (sphericalToCartesian radius theta phi) = Rabs radius.
Proof.
  intros. unfold originDistance, calculateDistance, sphericalToCartesian.
  cbn [vx vy vz]. rewrite <- sqrt_sum_sq_abs. f_equal.
  pose proof (sin2_cos2 theta) as Ht. pose proof (sin2_cos2 phi) as Hp.
  unfold Rsqr in Ht, Hp.
  replace ((radius * sin phi * cos theta - 0) * (radius * sin phi * cos theta - 0)
           + (radius * cos phi - 0) * (radius * cos phi - 0)
           + (radius * sin phi * sin theta - 0) * (radius * sin phi * sin theta - 0))
    with (radius * radius
          * (sin phi * sin phi * (sin theta * sin theta + cos theta * cos theta)
             + cos phi * cos phi)) by ring.
  rewrite Ht, Rmult_1_r, Hp. ring.
Qed.


(** X3. A point of [coneDistribution] lies inside the cone that stands on the
    ground with its apex at [height]: it is below the apex, and no farther
    from the axis than the cone is wide at its height, the base radius of the
    cone being [radius * (0.5 + randomness)]. *)
Theorem coneDistribution_inside_cone :
  forall height radius randomness r1 r2 r3 : R,
    0 < height -> 0 <= radius -> 0 <= randomness -> unit_ r1 -> unit_ r2 ->
    let p := coneDistribution height radius randomness r1 r2 r3 in
    0 <= vy p < height /\
    axisDistance p <= (1 - vy p / height) * (radius * (5 / 10 + randomness)).
Proof.
  intros height radius randomness r1 r2 r3 Hh Hr Hn [H1 H1'] [H2 H2'] p.
  subst p. unfold coneDistribution. cbv zeta. rewrite axisDistance_polar.
  cbn [vy].
  replace (r1 * height / height) with r1 by (field; lra).
  assert (Hy : 0 <= r1 * height < height).
  { split; [apply Rmult_le_pos; lra |].
    rewrite <- (Rmult_1_l height) at 2. apply Rmult_lt_compat_r; lra. }
  split; [exact Hy |].
  assert (Hrn : 0 <= r2 * randomness <= randomness).
  { split; [apply Rmult_le_pos; lra |].
    rewrite <- (Rmult_1_l randomness) at 2. apply Rmult_le_compat_r; lra. }
  assert (Hs : 0 <= radius * (5 / 10 + r2 * randomness)) by (apply Rmult_le_pos; lra).
  rewrite Rmult_assoc.
  rewrite Rabs_right by (apply Rle_ge; apply Rmult_le_pos; lra).
  apply Rmult_le_compat_l; [lra |].
  apply Rmult_le_compat_l; lra.
Qed.

(** The call of [createChristmasTree], [coneDistribution(5, 2, 0.5)]: the
    particle is inside the cone of height 5 and base radius 2. *)
Lemma coneDistribution_tree :
  let p := coneDistribution 5 2 (5 / 10) (1 / 2) (1 / 2) (1 / 4) in
  0 <= vy p < 5 /\ axisDistance p <= (1 - vy p / 5) * (2 * (5 / 10 + 5 / 10)).
Proof.
  apply (coneDistribution_inside_cone 5 2 (5 / 10) (1 / 2) (1 / 2) (1 / 4));
    unfold unit_; lra.
Defined.

Lemma spiralDistribution_height (index total height radius turns : R) :
  0 <= index < total -> 0 < height ->
  3 / 10 <= vy (spiralDistribution index total height radius turns) < height + 3 / 10.
Proof.
  intros [Hi Hi'] Hh. unfold spiralDistribution. cbv zeta. cbn [vy].
  assert (Ht : 0 <= index / total < 1).
  { split.
    - apply Rmult_le_pos; [lra |]. left. apply Rinv_0_lt_compat. lra.
    - apply (Rmult_lt_reg_r total); [lra |]. field_simplify; lra. }
  assert (Hy : 0 <= index / total * height < height).
  { split; [apply Rmult_le_pos; lra |].
    rewrite <- (Rmult_1_l height) at 2. apply Rmult_lt_compat_r; lra. }
  lra.
Qed.

(** X4. A point of [spiralDistribution] with an index from 0 up to, not
    including, [total] lies on the cone with its apex at [height + 0.3] and
    base radius [radius]: its height runs from 0.3 to below the apex, and its
    distance from the axis is the width of the cone at its height, which is
    never more than [radius]. *)
Theorem spiralDistribution_on_cone :
  forall index total height radius turns : R,
    0 <= index < total -> 0 < height -> 0 <= radius ->
    let p := spiralDistribution index total height radius turns in
    3 / 10 <= vy p < height + 3 / 10 /\
    axisDistance p = (1 - vy p / (height + 3 / 10)) * radius /\
    axisDistance p <= radius.
Proof.
  intros index total height radius turns [Hi Hi'] Hh Hr p.
  subst p. unfold spiralDistribution. cbv zeta. rewrite axisDistance_polar.
  cbn [vy].
  assert (Ht : 0 <= index / total < 1).
  { split.
    - apply Rmult_le_pos; [lra |]. left. apply Rinv_0_lt_compat. lra.
    - apply (Rmult_lt_reg_r total); [lra |]. field_simplify; lra. }
  set (t := index / total) in *.
  assert (Hk : 0 <= 1 - (t * height + 3 / 10) / (height + 3 / 10) <= 1).
  { replace (1 - (t * height + 3 / 10) / (height + 3 / 10))
      with ((1 - t) * height / (height + 3 / 10)) by (field; lra).
    split.
    - apply Rmult_le_pos; [nra |]. left. apply Rinv_0_lt_compat. lra.
    - apply (Rmult_le_reg_r (height + 3 / 10)); [lra |]. field_simplify; [nra | lra]. }
  split; [nra |].
  rewrite Rabs_right by (apply Rle_ge; nra).
  split; [reflexivity | nra].
Qed.

(** The call of [createOrnaments], [spiralDistribution(i, 50, 4.5, 1.8, 8)],
    for the tenth ornament. *)
Lemma spiralDistribution_ornament :
  let p := spiralDistribution 10 50 (45 / 10) (18 / 10) 8 in
  3 / 10 <= vy p < 45 / 10 + 3 / 10 /\
  axisDistance p = (1 - vy p / (45 / 10 + 3 / 10)) * (18 / 10) /\
  axisDistance p <= 18 / 10.
Proof.
  apply (spiralDistribution_on_cone 10 50 (45 / 10) (18 / 10) 8); lra.
Defined.

(** X5. A point of [ringDistribution] is on the cylinder of the given radius
    about the vertical axis, at a height within half of [heightVar] of 2.5. *)
Theorem ringDistribution_on_ring :
  forall radius heightVar r1 r2 : R,
    0 <= heightVar -> unit_ r2 ->
    let p := ringDistribution radius heightVar r1 r2 in
    axisDistance p = Rabs radius /\
    25 / 10 - heightVar / 2 <= vy p <= 25 / 10 + heightVar / 2.
Proof.
  intros radius heightVar r1 r2 Hv [H2 H2'] p. subst p.
  unfold ringDistribution. cbv zeta. rewrite axisDistance_polar. cbn [vy].
  split; [reflexivity | nra].
Qed.

(** The call of [createChristmasTree], [ringDistribution(ringRadius, 4)]. *)
Lemma ringDistribution_nebula :
  let p := ringDistribution 8 4 (1 / 4) (1 / 2) in
  axisDistance p = Rabs 8 /\ 25 / 10 - 4 / 2 <= vy p <= 25 / 10 + 4 / 2.
Proof.
  apply (ringDistribution_on_ring 8 4 (1 / 4) (1 / 2)); unfold unit_; lra.
Defined.

(** X6. A slot of [photoRingPosition] is on the cylinder of the given radius
    about the vertical axis, at a height between 2 and 3; and the slots repeat
    after [total] of them. *)
Theorem photoRingPosition_on_ring :
  forall index total radius : R,
    total <> 0 ->
    let s := photoRingPosition index total radius in
    axisDistance (position s) = Rabs radius /\
    2 <= vy (position s) <= 3 /\
    position (photoRingPosition (index + total) total radius) = position s.
Proof.
  intros index total radius Ht s. subst s.
  unfold photoRingPosition. cbv zeta. cbn [position].
  rewrite axisDistance_polar. cbn [vy].
  split; [reflexivity |].
  split.
  - pose proof (SIN_bound (index / total * PI * 2 * 3)) as [Hl Hu]. lra.
  - replace ((index + total) / total * PI * 2)
      with (index / total * PI * 2 + 2 * INR 1 * PI) by (cbn [INR]; field; exact Ht).
    replace ((index / total * PI * 2 + 2 * INR 1 * PI) * 3)
      with (index / total * PI * 2 * 3 + 2 * INR 3 * PI) by (cbn [INR]; ring).
    rewrite cos_period, !sin_period. reflexivity.
Qed.

(** The call of [createPhotos], [photoRingPosition(i, 24, 12)], for the
    last photo. *)
Lemma photoRingPosition_last :
  let s := photoRingPosition 23 24 12 in
  axisDistance (position s) = Rabs 12 /\
  2 <= vy (position s) <= 3 /\
  position (photoRingPosition (23 + 24) 24 12) = position s.
Proof.
  apply (photoRingPosition_on_ring 23 24 12). lra.
Defined.

(** X7. A point of [generateExplosionPosition] is between [minRadius] and
    [maxRadius] away from the vertical axis, at a height from 1 to below 4. *)
Theorem generateExplosionPosition_bounds :
  forall angle minRadius maxRadius r1 r2 r3 : R,
    0 <= minRadius <= maxRadius -> unit_ r1 -> unit_ r3 ->
    let p := generateExplosionPosition angle minRadius maxRadius r1 r2 r3 in
    minRadius <= axisDistance p <= maxRadius /\ 1 <= vy p < 4.
Proof.
  intros angle minRadius maxRadius r1 r2 r3 [Hm HM] [H1 H1'] [H3 H3'] p. subst p.
  unfold generateExplosionPosition. cbv zeta. rewrite axisDistance_polar. cbn [vy].
  rewrite Rabs_right by (apply Rle_ge; nra).
  split; nra.
Qed.

(** The call of [createOrnaments], [generateExplosionPosition(angle, 10, 15)]. *)
Lemma generateExplosionPosition_ornament :
  let p := generateExplosionPosition 0 10 15 (1 / 2) (1 / 2) (1 / 2) in
  10 <= axisDistance p <= 15 /\ 1 <= vy p < 4.
Proof.
  apply (generateExplosionPosition_bounds 0 10 15 (1 / 2) (1 / 2) (1 / 2));
    unfold unit_; lra.
Defined.


(** ** The star *)

Lemma for_ext {St : Type} (body body' : nat -> St -> St) :
  (forall i s, body i s = body' i s) ->
  forall n i s, for_ n i body s = for_ n i body' s.
Proof.
  intros H n. induction n as [| n IH]; intros i s; cbn [for_]; [reflexivity |].
  rewrite H. apply IH.
Qed.

(** A loop that pushes one element per turn pushes them in order. *)
Lemma for_push {A : Type} (c : nat -> A) :
  forall n i acc, for_ n i (fun i s => s ++ [c i]) acc = acc ++ map c (seq i n).
Proof.
  induction n as [| n IH]; intros i acc; cbn [for_ seq map].
  - now rewrite app_nil_r.
  - rewrite IH, <- app_assoc. reflexivity.
Qed.

(** The command the loop of [createStarShape] pushes in turn [i]. *)
Lemma createStarShape_commands outerRadius innerRadius spikes :
  createStarShape outerRadius innerRadius spikes
  = map (fun i =>
           let radius := if Nat.eqb (i mod 2) 0 then outerRadius else innerRadius in
           let angle := (INR i / (INR spikes * 2)) * PI * 2 - PI / 2 in
           if Nat.eqb i 0 then MoveTo (cos angle * radius) (sin angle * radius)
           else LineTo (cos angle * radius) (sin angle * radius))
        (seq 0 (spikes * 2))
    ++ [ClosePath].
Proof.
  unfold createStarShape. cbv zeta. f_equal.
  rewrite <- (app_nil_l (map _ _)), <- for_push.
  apply for_ext. intros i s. destruct (Nat.eqb i 0); reflexivity.
Qed.

(** X8. The outline of [createStarShape] has twice as many vertices as the
    star has spikes and is closed after the last one; it starts with the only
    [moveTo]; and its vertices lie in turn on the outer and on the inner
    circle about the origin, the first one on the outer circle. *)
Theorem createStarShape_outline :
  forall (outerRadius innerRadius : R) (spikes : nat),
    let outline := createStarShape outerRadius innerRadius spikes in
    length outline = (spikes * 2 + 1)%nat /\
    nth_error outline (spikes * 2) = Some ClosePath /\
    (forall i, (i < spikes * 2)%nat ->
       exists x y,
         nth_error outline i = Some (if Nat.eqb i 0 then MoveTo x y else LineTo x y) /\
         sqrt (x * x + y * y)
         = Rabs (if Nat.even i then outerRadius else innerRadius)).
Proof.
  intros outerRadius innerRadius spikes outline. subst outline.
  rewrite createStarShape_commands.
  set (cmd := fun i : nat => _).
  assert (Hlen : length (map cmd (seq 0 (spikes * 2))) = (spikes * 2)%nat)
    by now rewrite length_map, length_seq.
  split; [rewrite length_app, Hlen; reflexivity |].
  split.
  - rewrite nth_error_app2 by lia. rewrite Hlen, Nat.sub_diag. reflexivity.
  - intros i Hi. rewrite nth_error_app1 by lia.
    rewrite nth_error_map, nth_error_seq.
    destruct (Nat.ltb_spec i (spikes * 2)) as [_ | Hge]; [| lia].
    cbn [option_map Nat.add]. subst cmd. cbv beta zeta.
    set (angle := INR i / (INR spikes * 2) * PI * 2 - PI / 2).
    assert (Hpar : Nat.eqb (i mod 2) 0 = Nat.even i).
    { rewrite <- Nat.bit0_mod, Nat.bit0_odd, <- Nat.negb_even.
      destruct (Nat.even i); reflexivity. }
    rewrite Hpar.
    exists (cos angle * (if Nat.even i then outerRadius else innerRadius)),
           (sin angle * (if Nat.even i then outerRadius else innerRadius)).
    split; [destruct (Nat.eqb i 0); reflexivity |].
    rewrite polar_norm. apply sqrt_sum_sq_abs.
Qed.

(** ** The text particles *)

Lemma everySecond_In bound v :
  In v (everySecond bound) <-> (v < bound)%nat /\ Nat.even v = true.
Proof.
  unfold everySecond. rewrite filter_In, in_seq. split; intros [H1 H2]; split;
    try assumption; lia.
Qed.

(** The positions the two loops collect are those of the lit pixels. *)
Lemma textPositions_In pixels scale p :
  In p (textPositions pixels scale)
  <-> exists x y, litPixel pixels x y /\ p = pixelPosition scale x y.
Proof.
  unfold textPositions, litPixel. rewrite in_flat_map. split.
  - intros (y & Hy & Hin). apply in_flat_map in Hin. destruct Hin as (x & Hx & Hp).
    apply everySecond_In in Hy, Hx.
    destruct (128 <? alphaAt pixels x y)%Z eqn:Ha; [| contradiction].
    destruct Hp as [<- | []]. apply Z.ltb_lt in Ha.
    exists x, y. intuition.
  - intros (x & y & (Hx & Hy & Ex & Ey & Ha) & ->).
    exists y. split; [apply everySecond_In; auto |].
    apply in_flat_map. exists x. split; [apply everySecond_In; auto |].
    apply Z.ltb_lt in Ha. rewrite Ha. now left.
Qed.

Lemma floor_index (r : R) (n : nat) :
  unit_ r -> (0 < n)%nat ->
  (0 <= floor (r * INR n) < Z.of_nat n)%Z.
Proof.
  intros [H0 H1] Hn. unfold floor.
  assert (HN : 0 < INR n) by (apply lt_0_INR; exact Hn).
  destruct (base_Int_part (r * INR n)) as [Hle Hgt].
  assert (Hlo : 0 <= r * INR n) by (apply Rmult_le_pos; lra).
  assert (Hhi : r * INR n < INR n).
  { rewrite <- (Rmult_1_l (INR n)) at 2. apply Rmult_lt_compat_r; lra. }
  split.
  - assert (H : (-1 < Int_part (r * INR n))%Z) by (apply lt_IZR; lra). lia.
  - apply lt_IZR. rewrite <- INR_IZR_INZ. lra.
Qed.

Lemma at_In {A : Type} (a : list A) (i : Z) :
  (0 <= i < Z.of_nat (length a))%Z -> exists x, at_ a i = Some x /\ In x a.
Proof.
  intros [H0 H1]. unfold at_.
  destruct (Z.ltb_spec i 0) as [Hneg | _]; [lia |].
  destruct (nth_error a (Z.to_nat i)) as [x |] eqn:E.
  - exists x. split; [reflexivity |]. eapply nth_error_In. exact E.
  - apply nth_error_None in E. lia.
Qed.

Lemma jitter_small (r : R) (a : R) :
  unit_ r -> Rabs (a + (r - 5 / 10) * (2 / 10) - a) <= 1 / 10.
Proof.
  intros [H0 H1]. replace (a + (r - 5 / 10) * (2 / 10) - a) with ((r - 5 / 10) * (2 / 10)) by ring.
  apply Rabs_le. lra.
Qed.

Lemma sampleText_ok (positions : list Vector3) (rand : nat -> R) :
  positions <> [] -> (forall k, unit_ (rand k)) ->
  forall n k, exists result,
    sampleText n k positions rand = Some result /\
    length result = n /\
    Forall (fun p => exists q, In q positions /\ near p q) result.
Proof.
  intros Hne Hrand. induction n as [| n IH]; intros k; cbn [sampleText].
  - exists []. repeat split. constructor.
  - assert (Hlen : (0 < length positions)%nat).
    { destruct positions; [contradiction | cbn; lia]. }
    destruct (at_In positions _ (floor_index (rand k) _ (Hrand k) Hlen))
      as (pos & -> & Hin).
    destruct (IH (k + 4)%nat) as (rest & -> & Hl & Hall).
    eexists. split; [reflexivity |]. split; [cbn; now rewrite Hl |].
    constructor; [| exact Hall].
    exists pos. split; [exact Hin |]. unfold near. cbn [vx vy vz].
    repeat split; apply jitter_small; apply Hrand.
Qed.

(** X9. When the canvas shows at least one lit pixel, [generateTextParticles]
    returns exactly [particleCount] particles, and each of them is within 0.1
    along every axis of the position of a lit pixel of the text. *)
Theorem generateTextParticles_on_text :
  forall (pixels : list Z) (particleCount : nat) (scale : R) (rand : nat -> R)
         (x0 y0 : nat),
    litPixel pixels x0 y0 -> (forall k, unit_ (rand k)) ->
    exists particles,
      generateTextParticles pixels particleCount scale rand = Some particles /\
      length particles = particleCount /\
      Forall (fun p => exists x y, litPixel pixels x y /\
                                   near p (pixelPosition scale x y)) particles.
Proof.
  intros pixels particleCount scale rand x0 y0 Hlit Hrand.
  unfold generateTextParticles.
  assert (Hne : textPositions pixels scale <> []).
  { intros E.
    assert (Hin : In (pixelPosition scale x0 y0) (textPositions pixels scale))
      by (apply textPositions_In; eauto).
    rewrite E in Hin. exact Hin. }
  destruct (sampleText_ok _ rand Hne Hrand particleCount 0%nat)
    as (result & E & Hl & Hall).
  exists result. split; [exact E |]. split; [exact Hl |].
  eapply Forall_impl; [| exact Hall].
  intros p (q & Hq & Hnear). apply textPositions_In in Hq.
  destruct Hq as (x & y & Hxy & ->). eauto.
Qed.

Lemma textPositions_blank pixels scale :
  (forall x y, ~ litPixel pixels x y) -> textPositions pixels scale = [].
Proof.
  intros Hblank.
  destruct (textPositions pixels scale) as [| p rest] eqn:E; [reflexivity |].
  assert (Hin : In p (textPositions pixels scale)) by (rewrite E; now left).
  apply textPositions_In in Hin. destruct Hin as (x & y & Hlit & _).
  destruct (Hblank x y Hlit).
Qed.

Lemma sampleText_blank n k rand : sampleText (S n) k [] rand = None.
Proof.
  cbn [sampleText length INR]. rewrite Rmult_0_r. unfold floor, at_.
  replace (Int_part 0) with 0%Z; [reflexivity |].
  apply (Int_part_spec 0 0). cbn. lra.
Qed.

(** X10. On a canvas with no lit pixel (nothing was drawn, or the pixels
    could not be read) [generateTextParticles] throws as soon as a particle
    is asked for, whatever [Math.random()] returns; asked for none, it
    returns none. *)
Theorem generateTextParticles_blank_canvas :
  forall (pixels : list Z) (particleCount : nat) (scale : R) (rand : nat -> R),
    (forall x y, ~ litPixel pixels x y) ->
    generateTextParticles pixels particleCount scale rand
    = if Nat.eqb particleCount 0 then Some [] else None.
Proof.
  intros pixels particleCount scale rand Hblank.
  unfold generateTextParticles. rewrite (textPositions_blank pixels scale Hblank).
  destruct particleCount as [| n]; [reflexivity |].
  rewrite sampleText_blank. reflexivity.
Qed.

Lemma generateTextParticles_lit :
  litPixel [0; 0; 0; 255]%Z 0 0 /\
  exists particles,
    generateTextParticles [0; 0; 0; 255]%Z 2 1 (fun _ => 0) = Some particles /\
    length particles = 2%nat /\
    Forall (fun p => exists x y, litPixel [0; 0; 0; 255]%Z x y /\
                                 near p (pixelPosition 1 x y)) particles.
Proof.
  assert (Hlit : litPixel [0; 0; 0; 255]%Z 0 0).
  { unfold litPixel, CANVAS_WIDTH, CANVAS_HEIGHT, alphaAt. cbn. repeat split; lia. }
  split; [exact Hlit |].
  apply (generateTextParticles_on_text [0; 0; 0; 255]%Z 2 1 (fun _ => 0) 0 0 Hlit).
  intros k. unfold unit_. lra.
Defined.

Lemma generateTextParticles_nothing_drawn :
  (forall x y, ~ litPixel [] x y) /\
  generateTextParticles [] 5000 3 (fun _ => 0) = None.
Proof.
  assert (Hblank : forall x y, ~ litPixel [] x y).
  { intros x y (_ & _ & _ & _ & H). unfold alphaAt in H.
    rewrite nth_overflow in H by (cbn; lia). lia. }
  split; [exact Hblank |].
  apply (generateTextParticles_blank_canvas [] 5000 3 (fun _ => 0) Hblank).
Defined.

End DistributionsFacts.

Module SceneryFacts.
Import Geometry App AppFacts Distributions DistributionsFacts Scenery.
Local Open Scope R_scope.

#[local] Opaque PARTICLE_COUNT SNOWFLAKE_COUNT textParticleCount.

(** ** Loops that work on one particle per turn *)

(** A loop whose turn [i] replaces what is seen of particle [i] by a function
    of it, and leaves the other particles alone, has done so for every
    particle it has visited. *)
Section LocalLoop.
Context {St X : Type}.
Variables (N : nat) (inv : St -> Prop) (obs : St -> nat -> X).
Variables (f : nat -> X -> X) (body : nat -> St -> St).
Hypothesis body_inv : forall i s, inv s -> inv (body i s).
Hypothesis body_same : forall i s, (i < N)%nat -> inv s -> obs (body i s) i = f i (obs s i).
Hypothesis body_other : forall i s j, j <> i -> inv s -> obs (body i s) j = obs s j.

Lemma for_local : forall n i s,
  (i + n <= N)%nat -> inv s ->
  inv (for_ n i body s) /\
  forall j, obs (for_ n i body s) j
            = if (i <=? j)%nat && (j <? i + n)%nat then f j (obs s j) else obs s j.
Proof.
  induction n as [| n IH]; intros i s Hn Hinv; cbn [for_].
  - split; [exact Hinv |]. intros j.
    destruct (Nat.leb_spec i j), (Nat.ltb_spec j (i + 0)); cbn; try reflexivity; lia.
  - destruct (IH (S i) (body i s)) as (Hinv' & Hobs); [lia | now apply body_inv |].
    split; [exact Hinv' |]. intros j. rewrite Hobs.
    destruct (Nat.eq_dec j i) as [-> | Hne].
    + destruct (Nat.leb_spec (S i) i); [lia |]. cbn [andb].
      destruct (Nat.leb_spec i i); [| lia].
      destruct (Nat.ltb_spec i (i + S n)); [| lia]. cbn [andb].
      apply body_same; [lia | exact Hinv].
    + rewrite (body_other i s j Hne Hinv).
      destruct (Nat.leb_spec (S i) j), (Nat.leb_spec i j),
               (Nat.ltb_spec j (S i + n)), (Nat.ltb_spec j (i + S n));
        cbn [andb]; try reflexivity; lia.
Qed.

End LocalLoop.

Lemma forParticles_for n : forall i body sc,
  forParticles n i body sc = for_ n i body sc.
Proof.
  induction n as [| n IH]; intros i body sc; cbn [forParticles for_]; [reflexivity |].
  apply IH.
Qed.

Ltac buffer :=
  repeat first
    [ rewrite aget_aset_same by (rewrite ?length_aset; lia)
    | rewrite aget_aset_other by lia ].

(** ** The ornaments *)

(** X11. Every ornament has a positive size: for the 50 ornaments that
    [createOrnaments] strings on the spiral, the size lies between 0.0498 and
    0.1878 whatever [Math.random()] returns. *)
Theorem ornamentSize_positive :
  forall (i : nat) (r : R),
    (i < ORNAMENT_COUNT)%nat -> unit_ r ->
    498 / 10000 < ornamentSize i r < 1878 / 10000.
Proof.
  intros i r Hi [H0 H1]. unfold ornamentSize. cbv zeta.
  assert (Hn : INR ORNAMENT_COUNT = 50).
  { unfold ORNAMENT_COUNT. rewrite INR_IZR_INZ. reflexivity. }
  assert (Hidx : 0 <= INR i < INR ORNAMENT_COUNT).
  { split; [apply pos_INR | apply lt_INR; exact Hi]. }
  destruct (spiralDistribution_height (INR i) (INR ORNAMENT_COUNT) (45 / 10) (18 / 10) 8
              Hidx) as [Hlo Hhi]; [lra |].
  lra.
Qed.

Lemma ornamentSize_first :
  498 / 10000 < ornamentSize 0 (1 / 2) < 1878 / 10000.
Proof.
  apply (ornamentSize_positive 0 (1 / 2)).
  - unfold ORNAMENT_COUNT. lia.
  - unfold unit_. lra.
Defined.


(** ** The snow *)

Lemma fallSnowflake_length time i a : length (fallSnowflake time i a) = length a.
Proof.
  unfold fallSnowflake. cbv zeta. destruct (Rlt_dec _ _); now rewrite !length_aset.
Qed.

Lemma fallSnowflake_same time i a :
  (i * 3 + 2 < length a)%nat ->
  particle (fallSnowflake time i a) i = fallen time i (particle a i).
Proof.
  intros Hi. unfold fallSnowflake, fallen, particle. cbv zeta. cbn [vx vy vz].
  assert (Ey : aget (aset (aset a (i * 3 + 1) (aget a (i * 3 + 1) - 1 / 100)) (i * 3)
                       (aget (aset a (i * 3 + 1) (aget a (i * 3 + 1) - 1 / 100)) (i * 3)
                        + sin (time + INR i) * (2 / 1000))) (i * 3 + 1)
               = aget a (i * 3 + 1) - 1 / 100) by (buffer; reflexivity).
  rewrite Ey. destruct (Rlt_dec (aget a (i * 3 + 1) - 1 / 100) (-1));
    buffer; reflexivity.
Qed.

Lemma fallSnowflake_other time i a j :
  j <> i -> particle (fallSnowflake time i a) j = particle a j.
Proof.
  intros Hne. unfold fallSnowflake, particle. cbv zeta.
  destruct (Rlt_dec _ _); buffer; reflexivity.
Qed.

Lemma animateSnowflakes_particle time a :
  length a = (SNOWFLAKE_COUNT * 3)%nat ->
  length (animateSnowflakes time a) = (SNOWFLAKE_COUNT * 3)%nat /\
  forall i, (i < SNOWFLAKE_COUNT)%nat ->
    particle (animateSnowflakes time a) i = fallen time i (particle a i).
Proof.
  intros Hlen. unfold animateSnowflakes.
  destruct (for_local SNOWFLAKE_COUNT
              (fun a => length a = (SNOWFLAKE_COUNT * 3)%nat) particle
              (fallen time) (fallSnowflake time)) with (n := SNOWFLAKE_COUNT)
              (i := 0%nat) (s := a) as (Hl & Hobs).
  - intros i s Hs. now rewrite fallSnowflake_length.
  - intros i s Hi Hs. apply fallSnowflake_same. lia.
  - intros i s j Hne _. now apply fallSnowflake_other.
  - lia.
  - exact Hlen.
  - split; [exact Hl |]. intros i Hi. rewrite Hobs.
    destruct (Nat.leb_spec 0 i); [| lia].
    destruct (Nat.ltb_spec i (0 + SNOWFLAKE_COUNT)); [reflexivity | lia].
Qed.

Lemma createSnowflakes_particle rand :
  length (createSnowflakes rand) = (SNOWFLAKE_COUNT * 3)%nat /\
  forall i, (i < SNOWFLAKE_COUNT)%nat ->
    particle (createSnowflakes rand) i
    = randomDistribution 15 (rand (i * 4)%nat) (rand (i * 4 + 1)%nat)
                         (rand (i * 4 + 2)%nat).
Proof.
  unfold createSnowflakes.
  set (body := fun (i : nat) (positions : list R) => _).
  destruct (for_local SNOWFLAKE_COUNT
              (fun a => length a = (SNOWFLAKE_COUNT * 3)%nat) particle
              (fun i _ => randomDistribution 15 (rand (i * 4)%nat) (rand (i * 4 + 1)%nat)
                                             (rand (i * 4 + 2)%nat))
              body) with (n := SNOWFLAKE_COUNT) (i := 0%nat)
              (s := repeat 0 (SNOWFLAKE_COUNT * 3)) as (Hl & Hobs).
  - intros i s Hs. subst body. cbv beta zeta. now rewrite !length_aset.
  - intros i s Hi Hs. subst body. cbv beta zeta. unfold particle, randomDistribution.
    cbn [vx vy vz]. f_equal; buffer; reflexivity.
  - intros i s j Hne _. subst body. cbv beta zeta. unfold particle.
    f_equal; buffer; reflexivity.
  - lia.
  - apply repeat_length.
  - split; [exact Hl |]. intros i Hi. rewrite Hobs.
    destruct (Nat.leb_spec 0 i); [| lia].
    destruct (Nat.ltb_spec i (0 + SNOWFLAKE_COUNT)); [reflexivity | lia].
Qed.

Lemma fold_left_cons {A B : Type} (f : A -> B -> A) (x : B) (xs : list B) (a : A) :
  fold_left f (x :: xs) a = fold_left f xs (f a x).
Proof. reflexivity. Qed.

Lemma snowfall_nil a : snowfall [] a = a.
Proof. unfold snowfall. reflexivity. Qed.

Lemma snowfall_cons time rest a :
  snowfall (time :: rest) a = snowfall rest (animateSnowflakes time a).
Proof. unfold snowfall. rewrite fold_left_cons. reflexivity. Qed.

Lemma snowfall_band times : forall a i x0 z0 drift,
  length a = (SNOWFLAKE_COUNT * 3)%nat -> (i < SNOWFLAKE_COUNT)%nat ->
  -1 <= vy (particle a i) < 15 ->
  vz (particle a i) = z0 ->
  Rabs (vx (particle a i) - x0) <= drift ->
  let a' := snowfall times a in
  -1 <= vy (particle a' i) < 15 /\
  vz (particle a' i) = z0 /\
  Rabs (vx (particle a' i) - x0) <= drift + INR (length times) * (2 / 1000).
Proof.
  induction times as [| time rest IH]; intros a i x0 z0 drift Hlen Hi Hy Hz Hx a'.
  - subst a'. rewrite snowfall_nil. cbn [length INR].
    split; [exact Hy |]. split; [exact Hz |]. lra.
  - subst a'. rewrite snowfall_cons.
    destruct (animateSnowflakes_particle time a Hlen) as (Hlen1 & Hobs).
    specialize (Hobs i Hi).
    destruct (IH (animateSnowflakes time a) i x0 z0 (drift + 2 / 1000) Hlen1 Hi)
      as (Hy' & Hz' & Hx').
    + rewrite Hobs. unfold fallen. cbn [vy].
      destruct (Rlt_dec (vy (particle a i) - 1 / 100) (-1)); lra.
    + rewrite Hobs. exact Hz.
    + rewrite Hobs. unfold fallen. cbn [vx].
      pose proof (SIN_bound (time + INR i)) as [Hs1 Hs2].
      replace (vx (particle a i) + sin (time + INR i) * (2 / 1000) - x0)
        with ((vx (particle a i) - x0) + sin (time + INR i) * (2 / 1000)) by ring.
      eapply Rle_trans; [apply Rabs_triang |].
      apply Rplus_le_compat; [exact Hx |]. apply Rabs_le. lra.
    + split; [exact Hy' |]. split; [exact Hz' |].
      eapply Rle_trans; [exact Hx' |].
      change (length (time :: rest)) with (S (length rest)). rewrite S_INR. lra.
Qed.

(** X12. The snow stays in its band: over any number of frames, every
    snowflake made by [createSnowflakes] stays at a height from -1 to below
    15 (a flake that falls below -1 is put back at 10), keeps its depth, and
    drifts sideways by at most 0.002 a frame from where it was made. *)
Theorem snowflakes_stay_in_band :
  forall (rand : nat -> R) (times : list R) (i : nat),
    (forall k, unit_ (rand k)) -> (i < SNOWFLAKE_COUNT)%nat ->
    let made := particle (createSnowflakes rand) i in
    let now := particle (snowfall times (createSnowflakes rand)) i in
    -1 <= vy now < 15 /\
    vz now = vz made /\
    Rabs (vx now - vx made) <= INR (length times) * (2 / 1000).
Proof.
  intros rand times i Hrand Hi made now.
  destruct (createSnowflakes_particle rand) as (Hlen & Hmade).
  destruct (snowfall_band times (createSnowflakes rand) i (vx made) (vz made) 0
              Hlen Hi) as (Hy & Hz & Hx).
  - fold made. subst made. rewrite (Hmade i Hi). unfold randomDistribution. cbn [vy].
    destruct (Hrand (i * 4 + 1)%nat). lra.
  - reflexivity.
  - fold made. replace (vx made - vx made) with 0 by ring. rewrite Rabs_R0. lra.
  - fold now in Hy, Hz, Hx. split; [exact Hy |]. split; [exact Hz |]. lra.
Qed.

Lemma snowflakes_after_two_frames :
  let made := particle (createSnowflakes (fun _ => 0)) 7 in
  let now := particle (snowfall [0; 1 / 60] (createSnowflakes (fun _ => 0))) 7 in
  -1 <= vy now < 15 /\
  vz now = vz made /\
  Rabs (vx now - vx made) <= INR (length [0; 1 / 60]) * (2 / 1000).
Proof.
  apply (snowflakes_stay_in_band (fun _ => 0) [0; 1 / 60] 7).
  - intros k. unfold unit_. lra.
  - assert (H : SNOWFLAKE_COUNT = 500%nat) by reflexivity. rewrite H. lia.
Defined.


(** ** The ripple *)

Lemma vec_eq (x y z x' y' z' : R) :
  x = x' -> y = y' -> z = z' -> mkVector3 x y z = mkVector3 x' y' z'.
Proof. now intros -> -> ->. Qed.

Lemma pair_eq {A B : Type} (a a' : A) (b b' : B) : a = a' -> b = b' -> (a, b) = (a', b').
Proof. now intros -> ->. Qed.

Lemma rippleParticle_same m i sc :
  (i * 3 + 2 < length (positions sc))%nat ->
  (i * 3 + 2 < length (velocities sc))%nat ->
  (particle (positions (rippleParticle m i sc)) i,
   particle (velocities (rippleParticle m i sc)) i)
  = rippled m (particle (originalPositions sc) i)
            (particle (positions sc) i, particle (velocities sc) i).
Proof.
  intros Hp Hv. unfold rippleParticle, rippled, particle. cbv zeta.
  cbn [positions velocities set_positions set_velocities fst snd].
  unfold vadd, vscale, vsub. cbn [vx vy vz].
  apply pair_eq; apply vec_eq; buffer; ring.
Qed.

Lemma rippleParticle_other m i sc j :
  j <> i ->
  (particle (positions (rippleParticle m i sc)) j,
   particle (velocities (rippleParticle m i sc)) j)
  = (particle (positions sc) j, particle (velocities sc) j).
Proof.
  intros Hne. unfold rippleParticle, particle. cbv zeta.
  cbn [positions velocities set_positions set_velocities].
  apply pair_eq; apply vec_eq; buffer; reflexivity.
Qed.

Lemma applyRippleEffect_particle m sc :
  buffersOk sc ->
  buffersOk (applyRippleEffect m sc) /\
  originalPositions (applyRippleEffect m sc) = originalPositions sc /\
  forall i, (i < PARTICLE_COUNT)%nat ->
    (particle (positions (applyRippleEffect m sc)) i,
     particle (velocities (applyRippleEffect m sc)) i)
    = rippled m (particle (originalPositions sc) i)
              (particle (positions sc) i, particle (velocities sc) i).
Proof.
  intros (Lp & Lo & Le & Lv). unfold applyRippleEffect. rewrite forParticles_for.
  destruct (for_local PARTICLE_COUNT
              (fun s => originalPositions s = originalPositions sc /\
                        explodedPositions s = explodedPositions sc /\
                        length (positions s) = (PARTICLE_COUNT * 3)%nat /\
                        length (velocities s) = (PARTICLE_COUNT * 3)%nat)
              (fun s j => (particle (positions s) j, particle (velocities s) j))
              (fun j pv => rippled m (particle (originalPositions sc) j) pv)
              (rippleParticle m)) with (n := PARTICLE_COUNT) (i := 0%nat) (s := sc)
    as ((Ho & He & Hlp & Hlv) & Hobs).
  - intros i s (Ho & He & Hlp & Hlv).
    destruct (rippleParticle_frame m i s) as (F1 & F2 & _ & _ & _ & F6 & F7).
    rewrite F1, F2, F6, F7. auto.
  - intros i s Hi (Ho & He & Hlp & Hlv). rewrite <- Ho.
    apply rippleParticle_same; lia.
  - intros i s j Hne _. now apply rippleParticle_other.
  - lia.
  - auto.
  - split.
    { split; [exact Hlp |]. split; [rewrite Ho; exact Lo |].
      split; [rewrite He; exact Le | exact Hlv]. }
    split; [exact Ho |]. intros i Hi. rewrite Hobs.
    destruct (Nat.leb_spec 0 i); [| lia].
    destruct (Nat.ltb_spec i (0 + PARTICLE_COUNT)); [reflexivity | lia].
Qed.

(** Out of the pointer's reach the particle moves on its own: what is left
    of its displacement and of its velocity after the frame. *)
Lemma rippled_far m o p v :
  1 <= distance o m ->
  vsub (fst (rippled m o (p, v))) o
  = vscale (95 / 100) (vadd (vsub p o) v) /\
  snd (rippled m o (p, v)) = vscale (95 / 100) v.
Proof.
  intros Hfar. unfold rippled. cbv zeta.
  rewrite (GeometryFacts.ripple_far o m 1 (15 / 1000) Hfar).
  cbn [fst snd]. unfold vadd, vscale, vsub, vzero. cbn [vx vy vz].
  split; apply vec_eq; field.
Qed.

Lemma frames_nil w : frames [] w = w.
Proof. unfold frames. reflexivity. Qed.

Lemma frames_cons m rest w : frames (m :: rest) w = frames rest (animate m w).
Proof. unfold frames. rewrite fold_left_cons. reflexivity. Qed.

Lemma vscale_step (k : R) (n : nat) (d v : Vector3) :
  vscale (k ^ n) (vadd (vscale k (vadd d v)) (vscale (INR n) (vscale k v)))
  = vscale (k ^ S n) (vadd d (vscale (INR (S n)) v)).
Proof.
  rewrite S_INR. unfold vscale, vadd. cbn [vx vy vz pow]. apply vec_eq; ring.
Qed.

Lemma frames_far pointer : forall w i,
  invariant w -> phase (store w) = tree -> (i < PARTICLE_COUNT)%nat ->
  Forall (fun m => 1 <= distance (particle (originalPositions (scene w)) i) m) pointer ->
  let o := particle (originalPositions (scene w)) i in
  let w' := frames pointer w in
  let k := (95 / 100) ^ length pointer in
  particle (velocities (scene w')) i = vscale k (particle (velocities (scene w)) i) /\
  vsub (particle (positions (scene w')) i) o
  = vscale k (vadd (vsub (particle (positions (scene w)) i) o)
                   (vscale (INR (length pointer)) (particle (velocities (scene w)) i))).
Proof.
  induction pointer as [| m rest IH]; intros w i Hinv Ep Hi Hfar o w' k.
  - subst w' k. rewrite frames_nil. cbn [length pow INR].
    unfold vscale, vadd, vsub. cbn [vx vy vz].
    destruct (particle (velocities (scene w)) i) as [a b c].
    destruct (particle (positions (scene w)) i) as [a' b' c'].
    destruct o as [oa ob oc].
    cbn [vx vy vz]. split; apply vec_eq; ring.
  - subst w' k. rewrite frames_cons.
    inversion Hfar as [| ? ? Hm Hrest]; subst.
    assert (Hinv1 : invariant (animate m w)) by now apply invariant_animate.
    assert (Ea : animate m w = set_scene (applyRippleEffect m (scene w)) w)
      by (rewrite animate_unfold, Ep; reflexivity).
    destruct (applyRippleEffect_particle m (scene w)) as (_ & Ho & Hobs);
      [apply Hinv |].
    specialize (Hobs i Hi).
    destruct (rippled_far m o (particle (positions (scene w)) i)
                (particle (velocities (scene w)) i) Hm) as (Hd & Hv).
    fold o in Hobs. rewrite <- Hobs in Hd, Hv. cbn [fst snd] in Hd, Hv.
    assert (Eo : originalPositions (scene (animate m w)) = originalPositions (scene w))
      by (rewrite Ea; fields; exact Ho).
    assert (Ep1 : phase (store (animate m w)) = tree) by (rewrite Ea; fields; exact Ep).
    pose proof (IH (animate m w) i Hinv1 Ep1 Hi) as H. cbv zeta in H.
    rewrite Eo in H. fold o in H. specialize (H Hrest).
    destruct H as (Hv' & Hd').
    assert (Epos : positions (scene (animate m w)) = positions (applyRippleEffect m (scene w)))
      by (rewrite Ea; reflexivity).
    assert (Evel : velocities (scene (animate m w))
                   = velocities (applyRippleEffect m (scene w)))
      by (rewrite Ea; reflexivity).
    rewrite Epos, Evel, Hd, Hv in Hd'. rewrite Evel, Hv in Hv'.
    split.
    + rewrite Hv'. change (length (m :: rest)) with (S (length rest)).
      unfold vscale. cbn [vx vy vz pow]. apply vec_eq; ring.
    + rewrite Hd'. change (length (m :: rest)) with (S (length rest)).
      apply vscale_step.
Qed.

(** X13. The tree springs back.  While the tree stands, a particle that the
    pointer stays out of reach of (at least 1 away from its place in the
    tree) is pulled back to its place: after n frames its velocity is
    0.95^n times what it was, and its displacement from its place is 0.95^n
    times the old displacement plus n times the old velocity; a particle at
    rest in its place stays there. *)
Theorem ripple_springs_back :
  forall (w : World) (pointer : list Vector3) (i : nat),
    reachable w -> phase (store w) = tree -> (i < PARTICLE_COUNT)%nat ->
    let o := particle (originalPositions (scene w)) i in
    let p := particle (positions (scene w)) i in
    let v := particle (velocities (scene w)) i in
    Forall (fun mousePos => 1 <= distance o mousePos) pointer ->
    let w' := frames pointer w in
    let n := length pointer in
    particle (velocities (scene w')) i = vscale ((95 / 100) ^ n) v /\
    vsub (particle (positions (scene w')) i) o
    = vscale ((95 / 100) ^ n) (vadd (vsub p o) (vscale (INR n) v)) /\
    (p = o -> v = vzero -> particle (positions (scene w')) i = o).
Proof.
  intros w pointer i Hreach Ep Hi o p v Hfar w' n.
  assert (Hinv : invariant w) by now apply reachable_invariant.
  destruct (frames_far pointer w i Hinv Ep Hi Hfar) as (Hv & Hd).
  fold o p v w' n in Hv, Hd.
  split; [exact Hv |]. split; [exact Hd |].
  intros Epo Ev. rewrite Epo, Ev in Hd.
  destruct (particle (positions (scene w')) i) as [x y z], o as [ox oy oz].
  unfold vsub, vscale, vadd, vzero in Hd. cbn [vx vy vz] in Hd.
  injection Hd as Hx Hy Hz. apply vec_eq; lra.
Qed.


Lemma ripple_springs_back_sample :
  let pointer := [mkVector3 5 5 5; mkVector3 5 5 5] in
  let w' := frames pointer sampleWorld in
  Forall (fun mousePos =>
            1 <= distance (particle (originalPositions (scene sampleWorld)) 0) mousePos)
         pointer /\
  particle (velocities (scene w')) 0
  = vscale ((95 / 100) ^ 2) (particle (velocities (scene sampleWorld)) 0).
Proof.
  intros pointer w'.
  assert (Eo : particle (originalPositions (scene sampleWorld)) 0 = mkVector3 0 0 0).
  { unfold sampleWorld, initial. cbn [scene originalPositions].
    unfold particle, aget. now rewrite !nth_repeat. }
  assert (Hfar : Forall (fun mousePos =>
            1 <= distance (particle (originalPositions (scene sampleWorld)) 0) mousePos)
            pointer).
  { assert (Hm : 1 <= distance (mkVector3 0 0 0) (mkVector3 5 5 5)).
    { unfold distance, calculateDistance. cbn [vx vy vz].
      rewrite <- sqrt_1 at 1. apply sqrt_le_1_alt. lra. }
    rewrite Eo. subst pointer.
    constructor; [exact Hm |]. constructor; [exact Hm |]. constructor. }
  split; [exact Hfar |].
  assert (Hi : (0 < PARTICLE_COUNT)%nat).
  { apply Nat.ltb_lt. vm_compute. reflexivity. }
  pose proof (ripple_springs_back sampleWorld pointer 0 sampleWorld_reachable
                eq_refl Hi) as H.
  cbv zeta in H. destruct (H Hfar) as (Hv & _). exact Hv.
Defined.


(** ** The tree *)

Lemma length_aset3 a i x y z : length (aset3 a i x y z) = length a.
Proof. unfold aset3. now rewrite !length_aset. Qed.

Lemma particle_aset3_same a i x y z :
  (i * 3 + 2 < length a)%nat -> particle (aset3 a i x y z) i = mkVector3 x y z.
Proof. intros Hi. unfold particle, aset3. apply vec_eq; buffer; reflexivity. Qed.

Lemma particle_aset3_other a i j x y z :
  j <> i -> particle (aset3 a i x y z) j = particle a j.
Proof. intros Hne. unfold particle, aset3. apply vec_eq; buffer; reflexivity. Qed.

Lemma particle_zeros n i : particle (repeat 0 n) i = vzero.
Proof. unfold particle, aget, vzero. now rewrite !nth_repeat. Qed.

(** Two buffers of [n] particles that hold the same particles are equal. *)
Lemma buffer_eq (n : nat) (a b : list R) :
  length a = (n * 3)%nat -> length b = (n * 3)%nat ->
  (forall i, (i < n)%nat -> particle a i = particle b i) -> a = b.
Proof.
  intros La Lb H. apply list_eq_aget; [congruence |].
  intros j Hj.
  pose proof (Nat.div_mod_eq j 3) as Hdm.
  pose proof (Nat.mod_upper_bound j 3) as Hc.
  assert (Hi : (j / 3 < n)%nat) by (apply Nat.Div0.div_lt_upper_bound; lia).
  specialize (H (j / 3)%nat Hi). unfold particle in H. injection H as H0 H1 H2.
  destruct (j mod 3)%nat as [| [| [| c]]] eqn:Ec; try lia.
  - replace j with (j / 3 * 3)%nat by lia. exact H0.
  - replace j with (j / 3 * 3 + 1)%nat by lia. exact H1.
  - replace j with (j / 3 * 3 + 2)%nat by lia. exact H2.
Qed.

(** The place [createChristmasTree] gives to particle [i] of the tree. *)
Lemma tree_place_inside rand i :
  (forall k, unit_ (rand k)) -> insideTree (treePlace rand i).
Proof.
  intros Hrand. unfold insideTree, treePlace.
  destruct (Hrand (i * 8)%nat) as [H1 H1']. destruct (Hrand (i * 8 + 1)%nat) as [H2 H2'].
  unfold coneDistribution. cbv zeta. rewrite axisDistance_polar. cbn [vy].
  replace (rand (i * 8)%nat * 5 / 5) with (rand (i * 8)%nat) by field.
  split; [lra |].
  rewrite Rabs_right.
  - rewrite Rmult_assoc. apply Rmult_le_compat_l; [lra |]. nra.
  - apply Rle_ge. rewrite Rmult_assoc. apply Rmult_le_pos; [lra | nra].
Qed.

(** The place [createChristmasTree] gives to a particle of the ring. *)
Lemma ring_place_inside rand c :
  (forall k, unit_ (rand k)) ->
  insideRing (ringDistribution (8 + rand c * 6) 4 (rand (c + 1)%nat) (rand (c + 2)%nat)).
Proof.
  intros Hrand. unfold insideRing.
  destruct (Hrand c) as [H1 H1']. destruct (Hrand (c + 2)%nat) as [H2 H2'].
  unfold ringDistribution. cbv zeta. rewrite axisDistance_polar. cbn [vy].
  rewrite Rabs_right by lra. lra.
Qed.

Lemma first_loop rand (n : nat) (blank : Scene) :
  length (positions blank) = (n * 3)%nat ->
  length (originalPositions blank) = (n * 3)%nat ->
  length (velocities blank) = (n * 3)%nat ->
  exists sc,
    for_ n 0 (plantParticle rand) blank = sc /\
    length (positions sc) = (n * 3)%nat /\
    length (originalPositions sc) = (n * 3)%nat /\
    length (velocities sc) = (n * 3)%nat /\
    explodedPositions sc = explodedPositions blank /\
    particleRotationY sc = particleRotationY blank /\
    ornamentRotationY sc = ornamentRotationY blank /\
    photoRotationY sc = photoRotationY blank /\
    forall i, (i < n)%nat ->
      particle (positions sc) i = treePlace rand i /\
      particle (originalPositions sc) i = treePlace rand i /\
      particle (velocities sc) i = vzero.
Proof.
  intros Lp Lo Lv.
  destruct (for_local n
              (fun s => length (positions s) = (n * 3)%nat /\
                        length (originalPositions s) = (n * 3)%nat /\
                        length (velocities s) = (n * 3)%nat /\
                        explodedPositions s = explodedPositions blank /\
                        particleRotationY s = particleRotationY blank /\
                        ornamentRotationY s = ornamentRotationY blank /\
                        photoRotationY s = photoRotationY blank)
              (fun s j => (particle (positions s) j, particle (originalPositions s) j,
                           particle (velocities s) j))
              (fun j _ => (treePlace rand j, treePlace rand j, vzero))
              (plantParticle rand)) with (n := n) (i := 0%nat) (s := blank)
    as ((H1 & H2 & H3 & H4 & H5 & H6 & H7) & Hobs).
  - intros i s (H1 & H2 & H3 & H4). unfold plantParticle. cbv zeta.
    cbn [positions originalPositions velocities explodedPositions particleRotationY
         ornamentRotationY photoRotationY].
    rewrite !length_aset3. auto.
  - intros i s Hi (H1 & H2 & H3 & _). unfold plantParticle. cbv zeta.
    cbn [positions originalPositions velocities].
    rewrite !particle_aset3_same by lia. fold (treePlace rand i).
    destruct (treePlace rand i). reflexivity.
  - intros i s j Hne _. unfold plantParticle. cbv zeta.
    cbn [positions originalPositions velocities].
    now rewrite !particle_aset3_other.
  - lia.
  - auto 10.
  - eexists. split; [reflexivity |]. repeat (split; [assumption |]).
    intros i Hi. specialize (Hobs i).
    destruct (Nat.leb_spec 0 i); [| lia].
    destruct (Nat.ltb_spec i (0 + n)); [| lia]. cbn [andb] in Hobs.
    pose proof (f_equal (fun t => fst (fst t)) Hobs) as Hp.
    pose proof (f_equal (fun t => snd (fst t)) Hobs) as Ho.
    pose proof (f_equal snd Hobs) as Hv. cbn [fst snd] in Hp, Ho, Hv.
    split; [exact Hp |]. split; [exact Ho | exact Hv].
Qed.

Lemma layParticle_some rand textParticles ringCalls i sc :
  length textParticles = textParticleCount ->
  layParticle rand textParticles ringCalls i (Some sc)
  = Some (set_explodedPositions
            (aset3 (explodedPositions sc) i
                   (vx (nebulaPlace rand textParticles ringCalls i))
                   (vy (nebulaPlace rand textParticles ringCalls i))
                   (vz (nebulaPlace rand textParticles ringCalls i)))
            sc).
Proof.
  intros enough. unfold layParticle, nebulaPlace.
  destruct (Nat.ltb_spec i textParticleCount) as [Hlt | Hge].
  - rewrite enough, Nat.mod_small by exact Hlt.
    rewrite (nth_error_nth' textParticles vzero) by lia.
    unfold vadd. cbn [vx vy vz]. do 2 f_equal. f_equal; ring.
  - reflexivity.
Qed.

Lemma second_loop rand textParticles ringCalls (n : nat) (made : Scene) :
  length textParticles = textParticleCount ->
  length (explodedPositions made) = (n * 3)%nat ->
  exists exploded,
    for_ n 0 (layParticle rand textParticles ringCalls) (Some made)
    = Some (set_explodedPositions exploded made) /\
    length exploded = (n * 3)%nat /\
    forall i, (i < n)%nat ->
      particle exploded i = nebulaPlace rand textParticles ringCalls i.
Proof.
  intros enough Le.
  destruct (for_local n
              (fun s => exists e, s = Some (set_explodedPositions e made) /\
                                  length e = (n * 3)%nat)
              (fun s j => match s with
                          | Some sc => particle (explodedPositions sc) j
                          | None => vzero
                          end)
              (fun j _ => nebulaPlace rand textParticles ringCalls j)
              (layParticle rand textParticles ringCalls))
    with (n := n) (i := 0%nat) (s := Some made)
    as ((e & E & Hl) & Hobs).
  - intros i s (e & -> & Hl). rewrite layParticle_some by exact enough.
    cbn [explodedPositions set_explodedPositions].
    eexists. split; [reflexivity |]. now rewrite length_aset3.
  - intros i s Hi (e & -> & Hl). rewrite layParticle_some by exact enough.
    cbn [explodedPositions set_explodedPositions].
    rewrite particle_aset3_same by lia.
    destruct (nebulaPlace rand textParticles ringCalls i). reflexivity.
  - intros i s j Hne (e & -> & Hl). rewrite layParticle_some by exact enough.
    cbn [explodedPositions set_explodedPositions].
    now rewrite particle_aset3_other.
  - lia.
  - exists (explodedPositions made). split; [destruct made; reflexivity | exact Le].
  - exists e. split; [exact E |]. split; [exact Hl |].
    intros i Hi. specialize (Hobs i). rewrite E in Hobs.
    cbn [explodedPositions set_explodedPositions] in Hobs.
    destruct (Nat.leb_spec 0 i); [| lia].
    destruct (Nat.ltb_spec i (0 + n)); [| lia]. exact Hobs.
Qed.


Lemma near_lifted p q d : near p q -> near (vadd p d) (vadd q d).
Proof.
  unfold near, vadd. cbn [vx vy vz]. intros (Hx & Hy & Hz).
  replace (vx p + vx d - (vx q + vx d)) with (vx p - vx q) by ring.
  replace (vy p + vy d - (vy q + vy d)) with (vy p - vy q) by ring.
  replace (vz p + vz d - (vz q + vz d)) with (vz p - vz q) by ring.
  auto.
Qed.

Lemma textParticleCount_positive : textParticleCount = S (Nat.pred textParticleCount).
Proof. apply Nat.eqb_eq. vm_compute. reflexivity. Qed.

(** What [createChristmasTree] makes when the canvas shows the text. *)
Lemma createChristmasTree_made pixels rand x0 y0 :
  litPixel pixels x0 y0 -> (forall k, unit_ (rand k)) ->
  exists textParticles original exploded,
    createChristmasTree pixels rand
    = Some (mkScene original original exploded (repeat 0 (PARTICLE_COUNT * 3)) 0 0 0) /\
    length original = (PARTICLE_COUNT * 3)%nat /\
    length exploded = (PARTICLE_COUNT * 3)%nat /\
    length textParticles = textParticleCount /\
    Forall (fun p => exists x y, litPixel pixels x y /\ near p (pixelPosition 3 x y))
           textParticles /\
    forall i, (i < PARTICLE_COUNT)%nat ->
      particle original i = treePlace rand i /\
      particle exploded i
      = nebulaPlace rand textParticles (PARTICLE_COUNT * 8 + textParticleCount * 4) i.
Proof.
  intros Hlit Hrand. unfold createChristmasTree. cbv zeta.
  assert (Hne : textPositions pixels 3 <> []).
  { intros E.
    assert (Hin : In (pixelPosition 3 x0 y0) (textPositions pixels 3))
      by (apply textPositions_In; eauto).
    rewrite E in Hin. exact Hin. }
  destruct (sampleText_ok (textPositions pixels 3)
              (fun k => rand (PARTICLE_COUNT * 8 + k)%nat) Hne
              (fun k => Hrand _) textParticleCount 0%nat)
    as (textParticles & Etext & Ltext & Htext).
  unfold generateTextParticles. rewrite Etext.
  destruct (first_loop rand PARTICLE_COUNT
              (mkScene (repeat 0 (PARTICLE_COUNT * 3)) (repeat 0 (PARTICLE_COUNT * 3))
                       (repeat 0 (PARTICLE_COUNT * 3)) (repeat 0 (PARTICLE_COUNT * 3))
                       0 0 0))
    as (made & -> & Lp & Lo & Lv & Ee & R1 & R2 & R3 & Hmade);
    try (cbn [positions originalPositions velocities]; apply repeat_length).
  cbn [explodedPositions particleRotationY ornamentRotationY photoRotationY]
    in Ee, R1, R2, R3.
  destruct (second_loop rand textParticles (PARTICLE_COUNT * 8 + textParticleCount * 4)
              PARTICLE_COUNT made Ltext)
    as (exploded & -> & Lx & Hexploded).
  { rewrite Ee. apply repeat_length. }
  exists textParticles, (originalPositions made), exploded.
  split.
  - f_equal. destruct made as [P O E V r1 r2 r3].
    cbn [positions originalPositions velocities explodedPositions particleRotationY
         ornamentRotationY photoRotationY set_explodedPositions] in *.
    subst r1 r2 r3.
    assert (EP : P = O).
    { apply (buffer_eq PARTICLE_COUNT); [exact Lp | exact Lo |].
      intros i Hi. destruct (Hmade i Hi) as (-> & -> & _). reflexivity. }
    assert (EV : V = repeat 0 (PARTICLE_COUNT * 3)).
    { apply (buffer_eq PARTICLE_COUNT); [exact Lv | apply repeat_length |].
      intros i Hi. destruct (Hmade i Hi) as (_ & _ & ->).
      now rewrite particle_zeros. }
    rewrite EP, EV. reflexivity.
  - split; [exact Lo |]. split; [exact Lx |]. split; [exact Ltext |].
    split.
    + eapply Forall_impl; [| exact Htext].
      intros p (q & Hq & Hnear). apply textPositions_In in Hq.
      destruct Hq as (x & y & Hxy & ->). eauto.
    + intros i Hi. split; [apply (Hmade i Hi) | apply (Hexploded i Hi)].
Qed.

(** X14. [createChristmasTree] makes the world the phases start from: when
    the canvas shows the text, the particles stand in their places in the
    tree ([positions] is [originalPositions]) at rest, in buffers of three
    numbers a particle, which is a world the program can be in; when the
    canvas shows nothing, the function throws. *)
Theorem createChristmasTree_initial_world :
  forall (pixels : list Z) (rand : nat -> R),
    (forall k, unit_ (rand k)) ->
    ((exists x y, litPixel pixels x y) ->
     exists original exploded,
       createChristmasTree pixels rand = Some (scene (initial original exploded)) /\
       reachable (initial original exploded)) /\
    ((forall x y, ~ litPixel pixels x y) -> createChristmasTree pixels rand = None).
Proof.
  intros pixels rand Hrand. split.
  - intros (x0 & y0 & Hlit).
    destruct (createChristmasTree_made pixels rand x0 y0 Hlit Hrand)
      as (textParticles & original & exploded & E & Lo & Lx & _).
    exists original, exploded. split; [rewrite E; reflexivity |].
    now apply reachable_initial.
  - intros Hblank. unfold createChristmasTree. cbv zeta.
    unfold generateTextParticles. rewrite (textPositions_blank pixels 3 Hblank).
    rewrite textParticleCount_positive, sampleText_blank. reflexivity.
Qed.

Lemma createChristmasTree_lit_canvas :
  exists original exploded,
    createChristmasTree [0; 0; 0; 255]%Z (fun _ => 0)
    = Some (scene (initial original exploded)) /\
    reachable (initial original exploded).
Proof.
  assert (Hrand : forall k : nat, unit_ ((fun _ : nat => 0) k))
    by (intros k; unfold unit_; lra).
  destruct (createChristmasTree_initial_world [0; 0; 0; 255]%Z (fun _ => 0) Hrand)
    as (Hlit & _).
  apply Hlit. exists 0%nat, 0%nat.
  unfold litPixel, CANVAS_WIDTH, CANVAS_HEIGHT, alphaAt. cbn. repeat split; lia.
Defined.

(** X15. The tree and the nebula: every particle [createChristmasTree] makes
    starts inside the cone of height 5 and base radius 2; the nebula it will
    explode to lays the first 5000 particles on the text (each within 0.1 of
    a lit pixel of the canvas at three times the scale, lifted by 2.5) and
    the others in the ring between 8 and 14 from the axis, at heights from
    0.5 to 4.5. *)
Theorem createChristmasTree_layout :
  forall (pixels : list Z) (rand : nat -> R) (sc : Scene) (i : nat),
    (forall k, unit_ (rand k)) ->
    createChristmasTree pixels rand = Some sc ->
    (i < PARTICLE_COUNT)%nat ->
    insideTree (particle (positions sc) i) /\
    ((i < textParticleCount)%nat -> onText pixels (particle (explodedPositions sc) i)) /\
    ((textParticleCount <= i)%nat -> insideRing (particle (explodedPositions sc) i)).
Proof.
  intros pixels rand sc i Hrand Esc Hi.
  assert (Hlit : exists x y, litPixel pixels x y).
  { destruct (textPositions pixels 3) as [| p rest] eqn:E.
    - exfalso. unfold createChristmasTree in Esc. cbv zeta in Esc.
      unfold generateTextParticles in Esc.
      rewrite E, textParticleCount_positive, sampleText_blank in Esc. discriminate.
    - assert (Hin : In p (textPositions pixels 3)) by (rewrite E; now left).
      apply textPositions_In in Hin. destruct Hin as (x & y & Hxy & _). eauto. }
  destruct Hlit as (x0 & y0 & Hlit).
  destruct (createChristmasTree_made pixels rand x0 y0 Hlit Hrand)
    as (textParticles & original & exploded & E & Lo & Lx & Ltext & Htext & Hplaces).
  rewrite E in Esc. injection Esc as <-.
  cbn [positions explodedPositions].
  destruct (Hplaces i Hi) as (-> & ->).
  split; [now apply tree_place_inside |].
  unfold nebulaPlace. split.
  - intros Hlt. destruct (Nat.ltb_spec i textParticleCount) as [_ | Hge]; [| lia].
    rewrite Forall_forall in Htext.
    destruct (Htext (nth i textParticles vzero)) as (x & y & Hxy & Hnear).
    { apply nth_In. lia. }
    exists x, y. split; [exact Hxy |]. now apply near_lifted.
  - intros Hge. destruct (Nat.ltb_spec i textParticleCount) as [Hlt | _]; [lia |].
    now apply ring_place_inside.
Qed.

Lemma createChristmasTree_layout_sample :
  exists sc,
    createChristmasTree [0; 0; 0; 255]%Z (fun _ => 0) = Some sc /\
    insideTree (particle (positions sc) 7) /\
    ((7 < textParticleCount)%nat -> onText [0; 0; 0; 255]%Z
                                      (particle (explodedPositions sc) 7)) /\
    ((textParticleCount <= 7)%nat -> insideRing (particle (explodedPositions sc) 7)).
Proof.
  assert (Hrand : forall k : nat, unit_ ((fun _ : nat => 0) k))
    by (intros k; unfold unit_; lra).
  assert (Hlit : litPixel [0; 0; 0; 255]%Z 0 0).
  { unfold litPixel, CANVAS_WIDTH, CANVAS_HEIGHT, alphaAt. cbn. repeat split; lia. }
  destruct (createChristmasTree_made [0; 0; 0; 255]%Z (fun _ => 0) 0 0 Hlit Hrand)
    as (textParticles & original & exploded & E & _).
  eexists. split; [exact E |].
  apply (createChristmasTree_layout [0; 0; 0; 255]%Z (fun _ => 0) _ 7 Hrand E).
  apply Nat.ltb_lt. vm_compute. reflexivity.
Defined.

End SceneryFacts.

Module CameraFacts.
Import HandGesture Camera HandGestureFacts.
Local Open Scope Z_scope.

(** ** One turn of the loop, for any prediction *)

(** What a turn of [detectHands] can do to the labels and the clocks, whatever
    it is shown: at most one swipe, then at most one gesture event. *)
Lemma detectHands_turn now predictions s :
  let s' := fst (detectHands now predictions s) in
  let evs := snd (detectHands now predictions s) in
  exists swipes,
    ((swipes = [] /\ lastSwipeTime s' = lastSwipeTime s) \/
     (exists d, swipes = [SwipeEvent d now] /\
                lastSwipeTime s + palmSwipeTimeout < now /\ lastSwipeTime s' = now)) /\
    ((evs = swipes /\ previousGesture s' = previousGesture s /\
      lastGestureTime s' = lastGestureTime s) \/
     (exists g, evs = swipes ++ [GestureEvent g now] /\
                g <> previousGesture s /\
                lastGestureTime s + GESTURE_DETECTION_INTERVAL <= now /\
                previousGesture s' = g /\ lastGestureTime s' = now)).
Proof.
  cbv zeta. unfold detectHands.
  assert (Hidle : forall s0 : state,
            exists swipes : list event,
              ((swipes = [] /\ lastSwipeTime s0 = lastSwipeTime s0) \/
               (exists d, swipes = [SwipeEvent d now] /\
                          lastSwipeTime s0 + palmSwipeTimeout < now /\
                          lastSwipeTime s0 = now)) /\
              (([] = swipes /\ previousGesture s0 = previousGesture s0 /\
                lastGestureTime s0 = lastGestureTime s0) \/
               (exists g, [] = swipes ++ [GestureEvent g now] /\
                          g <> previousGesture s0 /\
                          lastGestureTime s0 + GESTURE_DETECTION_INTERVAL <= now /\
                          previousGesture s0 = g /\ lastGestureTime s0 = now))).
  { intros s0. exists []. split; left; repeat split. }
  destruct (negb (isDetecting s) || negb (handposeModel s)); [apply Hidle |].
  destruct predictions as [| hand others].
  { cbn [fst snd]. exists []. split; left; repeat split. }
  destruct (drawHand hand); cbn [bind]; [| apply Hidle].
  unfold detectGesture.
  destruct (now - lastGestureTime s <? GESTURE_DETECTION_INTERVAL) eqn:Hint;
    [apply Hidle |].
  apply Z.ltb_ge in Hint.
  destruct (isFingerOpen _ _) as [thumb |]; cbn [bind]; [| apply Hidle].
  destruct (isFingerOpen _ _) as [index |]; cbn [bind]; [| apply Hidle].
  destruct (isFingerOpen _ _) as [middle |]; cbn [bind]; [| apply Hidle].
  destruct (isFingerOpen _ _) as [ring |]; cbn [bind]; [| apply Hidle].
  destruct (isFingerOpen _ _) as [pinky |]; cbn [bind]; [| apply Hidle].
  (* the tick after the branch that determines the label *)
  assert (Hupdate : forall g s1 swipes,
            previousGesture s1 = previousGesture s ->
            lastGestureTime s1 = lastGestureTime s ->
            ((swipes = [] /\ lastSwipeTime s1 = lastSwipeTime s) \/
             (exists d, swipes = [SwipeEvent d now] /\
                        lastSwipeTime s + palmSwipeTimeout < now /\
                        lastSwipeTime s1 = now)) ->
            let r := updateCurrentGesture g now s1 swipes in
            exists swipes0,
              ((swipes0 = [] /\ lastSwipeTime (fst r) = lastSwipeTime s) \/
               (exists d, swipes0 = [SwipeEvent d now] /\
                          lastSwipeTime s + palmSwipeTimeout < now /\
                          lastSwipeTime (fst r) = now)) /\
              ((snd r = swipes0 /\ previousGesture (fst r) = previousGesture s /\
                lastGestureTime (fst r) = lastGestureTime s) \/
               (exists g0, snd r = swipes0 ++ [GestureEvent g0 now] /\
                           g0 <> previousGesture s /\
                           lastGestureTime s + GESTURE_DETECTION_INTERVAL <= now /\
                           previousGesture (fst r) = g0 /\
                           lastGestureTime (fst r) = now))).
  { intros g s1 swipes Hp Ht Hsw r. subst r. exists swipes.
    destruct (updateCurrentGesture_palm g now s1 swipes) as (_ & Hst).
    rewrite Hst. split; [exact Hsw |].
    unfold updateCurrentGesture.
    cbn [currentGesture previousGesture set_currentGesture].
    destruct (gesture_eqb g (previousGesture s1)) eqn:Eg; cbn [negb fst snd].
    - left. repeat split; assumption.
    - right. exists g. split; [reflexivity |].
      split; [| split; [lia | split; reflexivity]].
      intros E. rewrite Hp, <- E, gesture_eqb_refl in Eg. discriminate. }
  assert (Hreset : forall g,
            let r := updateCurrentGesture g now (set_lastPalmPosition None s) [] in
            exists swipes0,
              ((swipes0 = [] /\ lastSwipeTime (fst r) = lastSwipeTime s) \/
               (exists d, swipes0 = [SwipeEvent d now] /\
                          lastSwipeTime s + palmSwipeTimeout < now /\
                          lastSwipeTime (fst r) = now)) /\
              ((snd r = swipes0 /\ previousGesture (fst r) = previousGesture s /\
                lastGestureTime (fst r) = lastGestureTime s) \/
               (exists g0, snd r = swipes0 ++ [GestureEvent g0 now] /\
                           g0 <> previousGesture s /\
                           lastGestureTime s + GESTURE_DETECTION_INTERVAL <= now /\
                           previousGesture (fst r) = g0 /\
                           lastGestureTime (fst r) = now))).
  { intros g. apply Hupdate; [reflexivity | reflexivity |]. left. split; reflexivity. }
  unfold determineGesture.
  destruct thumb, index, middle, ring, pinky; cbn [negb andb bind]; try apply Hreset.
  (* the open palm *)
  unfold detectPalmSwipe.
  destruct (palmCenter (landmarks hand)) as [c |]; cbn [bind]; [| apply Hidle].
  destruct (lastPalmPosition s) as [last |].
  - destruct (palmSwipeTimeout <? now - lastSwipeTime s) eqn:Et.
    + apply Z.ltb_lt in Et.
      destruct (Qltb swipeThreshold (Qabs (palm_x c - palm_x last))); cbn [bind fst snd].
      * apply Hupdate; [reflexivity | reflexivity |]. right.
        eexists. split; [reflexivity |]. split; [lia | reflexivity].
      * apply Hupdate; [reflexivity | reflexivity |]. left. split; reflexivity.
    + cbn [bind fst snd]. apply Hupdate; [reflexivity | reflexivity |].
      left. split; reflexivity.
  - cbn [bind fst snd]. apply Hupdate; [reflexivity | reflexivity |].
    left. split; reflexivity.
Qed.

Lemma run_cons now predictions rest s :
  run ((now, predictions) :: rest) s
  = (fst (run rest (fst (detectHands now predictions s))),
     snd (detectHands now predictions s)
     ++ snd (run rest (fst (detectHands now predictions s)))).
Proof.
  cbn [run]. destruct (detectHands now predictions s) as [s1 evs1]. cbn [fst snd].
  destruct (run rest s1) as [s2 evs2]. reflexivity.
Qed.

(** X16. Over any run of the detection loop, whatever the camera shows and
    whenever the turns come, two gesture events in a row never announce the
    same label, and the second is dispatched no sooner than the detection
    interval (100 ms) after the first, by the clock of the turns; the first
    event of the run stands to the module's [previousGesture] and
    [lastGestureTime] in the same way. *)
Theorem gesture_events_spaced :
  forall (ticks : list (Z * list prediction)) (s : state),
    gesturesSpaced (previousGesture s) (lastGestureTime s) (snd (run ticks s)).
Proof.
  induction ticks as [| [now predictions] rest IH]; intros s; [exact I |].
  rewrite run_cons. cbn [snd].
  destruct (detectHands_turn now predictions s) as (swipes & Hsw & Hg).
  specialize (IH (fst (detectHands now predictions s))).
  assert (Hskip : forall p t evs, gesturesSpaced p t (swipes ++ evs) = gesturesSpaced p t evs).
  { intros p t evs. destruct Hsw as [(-> & _) | (d & -> & _)]; reflexivity. }
  destruct Hg as [(-> & Hp & Ht) | (g & -> & Hne & Hint & Hp & Ht)].
  - rewrite Hskip. rewrite Hp, Ht in IH. exact IH.
  - rewrite <- app_assoc, Hskip. cbn [app gesturesSpaced].
    split; [exact Hne |]. split; [exact Hint |].
    rewrite Hp, Ht in IH. exact IH.
Qed.

(** X17. Over any run of the detection loop, a swipe event is dispatched
    only later than the swipe timeout (300 ms) after the swipe before it, by
    the clock of the turns, and the first swipe of the run only later than
    the timeout after [lastSwipeTime]. *)
Theorem swipe_events_spaced :
  forall (ticks : list (Z * list prediction)) (s : state),
    swipesSpaced (lastSwipeTime s) (snd (run ticks s)).
Proof.
  induction ticks as [| [now predictions] rest IH]; intros s; [exact I |].
  rewrite run_cons. cbn [snd].
  destruct (detectHands_turn now predictions s) as (swipes & Hsw & Hg).
  specialize (IH (fst (detectHands now predictions s))).
  assert (Hgest : forall t g evs,
            swipesSpaced t ([GestureEvent g now] ++ evs) = swipesSpaced t evs)
    by reflexivity.
  assert (Hevs : exists tail,
            snd (detectHands now predictions s) = swipes ++ tail /\
            forall t evs, swipesSpaced t (tail ++ evs) = swipesSpaced t evs).
  { destruct Hg as [(-> & _) | (g & -> & _)].
    - exists []. split; [now rewrite app_nil_r | reflexivity].
    - exists [GestureEvent g now]. split; [reflexivity | reflexivity]. }
  destruct Hevs as (tail & -> & Htail).
  rewrite <- app_assoc.
  destruct Hsw as [(-> & Ht) | (d & -> & Hlate & Ht)].
  - cbn [app]. rewrite Htail. rewrite Ht in IH. exact IH.
  - cbn [app swipesSpaced]. split; [exact Hlate |].
    rewrite Htail. rewrite Ht in IH. exact IH.
Qed.

(** X18. A hand with fewer than the 21 landmarks is dropped: drawing it
    throws, the loop catches the exception, and the turn changes none of the
    module's variables and dispatches nothing. *)
Theorem detectHands_malformed_hand :
  forall (now : Z) (hand : prediction) (others : list prediction) (s : state),
    (length (landmarks hand) < 21)%nat ->
    detectHands now (hand :: others) s = (s, []).
Proof.
  intros now hand others s Hshort. unfold detectHands.
  destruct (negb (isDetecting s) || negb (handposeModel s)); [reflexivity |].
  assert (Hdraw : drawHand hand = None).
  { unfold drawHand.
    destruct (forallb _ HAND_CONNECTIONS) eqn:E; [| reflexivity].
    rewrite forallb_forall in E.
    specialize (E (19%nat, 20%nat)). cbn [fst snd] in E.
    assert (Hlast : nth_error (landmarks hand) 20 = None)
      by (apply nth_error_None; lia).
    rewrite Hlast in E.
    assert (Hin : In (19%nat, 20%nat) HAND_CONNECTIONS)
      by (unfold HAND_CONNECTIONS; cbn; tauto).
    specialize (E Hin). destruct (nth_error (landmarks hand) 19); discriminate. }
  rewrite Hdraw. reflexivity.
Qed.

Lemma detectHands_short_hand :
  (length (landmarks (mkPrediction [mkLandmark 0 0 0])) < 21)%nat /\
  detectHands 1000 [mkPrediction [mkLandmark 0 0 0]] started = (started, []).
Proof.
  split; [cbn; lia |].
  apply (detectHands_malformed_hand 1000 (mkPrediction [mkLandmark 0 0 0]) [] started).
  cbn. lia.
Defined.

(** ** The camera switch *)

Lemma startCamera_isDetecting g p l m :
  isDetecting (vars (fst (startCamera g p l m))) = isDetecting (vars m).
Proof.
  unfold startCamera. destruct (isCameraActive (vars m)); [reflexivity |].
  destruct g, p, l; reflexivity.
Qed.

Lemma stopCamera_isDetecting m :
  isDetecting (vars m) = false -> isDetecting (vars (stopCamera m)) = false.
Proof.
  intros H. unfold stopCamera, HandGesture.stopCamera.
  destruct (isCameraActive (vars m)); cbn; [reflexivity | exact H].
Qed.

Lemma act_paused a m :
  pageAction a -> isDetecting (vars m) = false ->
  isDetecting (vars (fst (act a m))) = false /\ snd (act a m) = [].
Proof.
  intros Hpage Hoff. destruct a as [g p l | | now predictions]; cbn [act fst snd].
  - split; [| reflexivity]. unfold toggleCamera.
    destruct (isCameraActive (vars m)).
    + now apply stopCamera_isDetecting.
    + now rewrite startCamera_isDetecting.
  - destruct Hpage.
  - unfold detectHands. rewrite Hoff. cbn. split; [exact Hoff | reflexivity].
Qed.

Lemma actAll_paused acts : forall m,
  Forall pageAction acts -> isDetecting (vars m) = false ->
  isDetecting (vars (fst (actAll acts m))) = false /\ snd (actAll acts m) = [].
Proof.
  induction acts as [| a rest IH]; intros m Hpage Hoff; cbn [actAll].
  - split; [exact Hoff | reflexivity].
  - inversion Hpage as [| ? ? Ha Hrest]; subst.
    destruct (act_paused a m Ha Hoff) as (Hoff1 & Hev1).
    destruct (act a m) as [m1 evs1]. cbn [fst snd] in *.
    destruct (IH m1 Hrest Hoff1) as (Hoff2 & Hev2).
    destruct (actAll rest m1) as [m2 evs2]. cbn [fst snd] in *.
    split; [exact Hoff2 |]. now rewrite Hev1, Hev2.
Qed.




(** A turn of the loop leaves the camera switch alone. *)
Lemma detectHands_isCameraActive now predictions s :
  isCameraActive (fst (detectHands now predictions s)) = isCameraActive s.
Proof.
  unfold detectHands.
  destruct (negb (isDetecting s) || negb (handposeModel s)); [reflexivity |].
  destruct predictions as [| hand others]; [reflexivity |].
  destruct (drawHand hand); cbn [bind]; [| reflexivity].
  unfold detectGesture.
  destruct (now - lastGestureTime s <? GESTURE_DETECTION_INTERVAL); [reflexivity |].
  destruct (isFingerOpen _ _) as [thumb |]; cbn [bind]; [| reflexivity].
  destruct (isFingerOpen _ _) as [index |]; cbn [bind]; [| reflexivity].
  destruct (isFingerOpen _ _) as [middle |]; cbn [bind]; [| reflexivity].
  destruct (isFingerOpen _ _) as [ring |]; cbn [bind]; [| reflexivity].
  destruct (isFingerOpen _ _) as [pinky |]; cbn [bind]; [| reflexivity].
  assert (Hup : forall g s1 evs,
            isCameraActive (fst (updateCurrentGesture g now s1 evs)) = isCameraActive s1).
  { intros g s1 evs. unfold updateCurrentGesture.
    destruct (negb _); reflexivity. }
  unfold determineGesture.
  destruct thumb, index, middle, ring, pinky; cbn [negb andb bind];
    try (rewrite Hup; reflexivity).
  unfold detectPalmSwipe.
  destruct (palmCenter (landmarks hand)) as [c |]; cbn [bind]; [| reflexivity].
  destruct (lastPalmPosition s) as [last |]; cbn [bind fst snd].
  - destruct (palmSwipeTimeout <? now - lastSwipeTime s); cbn [bind fst snd].
    + destruct (Qltb swipeThreshold (Qabs (palm_x c - palm_x last)));
        cbn [bind fst snd]; rewrite Hup; reflexivity.
    + rewrite Hup. reflexivity.
  - rewrite Hup. reflexivity.
Qed.

Lemma act_stray a m :
  holdsStream m ->
  holdsStream (fst (act a m)) /\ (strayStreams m <= strayStreams (fst (act a m)))%nat.
Proof.
  intros Hm. unfold holdsStream, strayStreams in *.
  destruct a as [g p l | | now predictions]; cbn [act fst].
  - unfold toggleCamera.
    destruct (isCameraActive (vars m)) eqn:Eon.
    + destruct (Hm eq_refl) as (Hs & Hl).
      unfold stopCamera, HandGesture.stopCamera. rewrite Eon, Hs. cbn.
      split; [discriminate | lia].
    + unfold startCamera. rewrite Eon.
      destruct g, p, l; cbn; rewrite ?Eon; split;
        try discriminate; try (intros _; split; [reflexivity | lia]); try lia.
  - unfold toggleGestureDetection. cbn. split; [exact Hm | lia].
  - pose proof (detectHands_isCameraActive now predictions (vars m)) as Hc.
    destruct (detectHands now predictions (vars m)) as [s evs]. cbn [fst] in *.
    cbn [set_vars vars mediaStream liveStreams]. rewrite Hc.
    split; [exact Hm | lia].
Qed.

Lemma actAll_stray acts : forall m,
  holdsStream m ->
  holdsStream (fst (actAll acts m)) /\
  (strayStreams m <= strayStreams (fst (actAll acts m)))%nat.
Proof.
  induction acts as [| a rest IH]; intros m Hm; cbn [actAll].
  - cbn [fst]. split; [exact Hm | lia].
  - destruct (act_stray a m Hm) as (Hm1 & Hle1).
    destruct (act a m) as [m1 evs1]. cbn [fst] in *.
    destruct (IH m1 Hm1) as (Hm2 & Hle2).
    destruct (actAll rest m1) as [m2 evs2]. cbn [fst] in *.
    split; [exact Hm2 | lia].
Qed.

(** X20. A start that fails after the camera was granted leaves the camera
    running for good.  When the video or the model fails once the stream is
    open, [startCamera] returns without stopping the stream and without
    switching [isCameraActive] on; [stopCamera] then returns at once, and
    whatever is done to the module afterwards, that stream keeps running. *)
Theorem failed_start_leaves_camera_on :
  forall (before after : list action) (play load : outcome),
    let m := fst (actAll before loaded) in
    isCameraActive (vars m) = false ->
    play = Rejected \/ load = Rejected ->
    let m1 := toggleCamera Resolved play load m in
    isCameraActive (vars m1) = false /\
    stopCamera m1 = m1 /\
    (1 <= strayStreams (fst (actAll after m1)))%nat /\
    (1 <= liveStreams (fst (actAll after m1)))%nat.
Proof.
  intros before after play load m Hoff Hfail m1.
  assert (Hloaded : holdsStream loaded) by (intros H; discriminate H).
  destruct (actAll_stray before loaded Hloaded) as (Hm & _). fold m in Hm.
  assert (E1 : m1 = mkModule (vars m) true (S (liveStreams m)) (loops m)).
  { subst m1. unfold toggleCamera, startCamera. rewrite Hoff.
    destruct Hfail as [-> | ->]; [reflexivity | destruct play; reflexivity]. }
  assert (Hoff1 : isCameraActive (vars m1) = false) by (rewrite E1; exact Hoff).
  assert (Hm1 : holdsStream m1) by (intros H; rewrite Hoff1 in H; discriminate H).
  destruct (actAll_stray after m1 Hm1) as (_ & Hle).
  assert (Hstray1 : strayStreams m1 = S (liveStreams m)).
  { unfold strayStreams. rewrite Hoff1, E1. cbn. lia. }
  split; [exact Hoff1 |].
  split; [unfold stopCamera; rewrite Hoff1; reflexivity |].
  assert (Hs : (1 <= strayStreams (fst (actAll after m1)))%nat) by lia.
  split; [exact Hs |]. unfold strayStreams in Hs. lia.
Qed.

Lemma failed_start_then_restart :
  let m1 := toggleCamera Resolved Resolved Rejected (fst (actAll [] loaded)) in
  let after := [ToggleCamera Resolved Resolved Resolved;
                ToggleCamera Resolved Resolved Resolved] in
  isCameraActive (vars m1) = false /\
  stopCamera m1 = m1 /\
  (1 <= strayStreams (fst (actAll after m1)))%nat /\
  (1 <= liveStreams (fst (actAll after m1)))%nat.
Proof.
  apply (failed_start_leaves_camera_on []
           [ToggleCamera Resolved Resolved Resolved;
            ToggleCamera Resolved Resolved Resolved] Resolved Rejected).
  - reflexivity.
  - right. reflexivity.
Defined.

End CameraFacts.

Module ControlsFacts.
Import Geometry App AppFacts Scenery Controls.
Import Stdlib.Strings.Ascii.AsciiSyntax Stdlib.Strings.String.StringSyntax.
Local Delimit Scope string_scope with string.
Local Delimit Scope char_scope with char.
Local Open Scope R_scope.

(** ** Gestures and keys *)

Lemma handleSwipe_other d w : phase (store w) <> nebula -> handleSwipe d w = w.
Proof.
  intros H. unfold handleSwipe.
  destruct (phase_eqb (phase (store w)) nebula) eqn:E; [| reflexivity].
  apply phase_eqb_eq in E. contradiction.
Qed.

Lemma streq_eq a b : streq a b = true <-> a = b.
Proof.
  unfold streq. destruct (list_eq_dec Ascii.ascii_dec a b); split; congruence.
Qed.

Lemma streq_neq a b : a <> b -> streq a b = false.
Proof.
  intros H. destruct (streq a b) eqn:E; [| reflexivity].
  apply streq_eq in E. contradiction.
Qed.




(** The events of a turn that announces a new label: the swipe, if there is
    one, and then the gesture. *)
Lemma detectHands_announces s now hand others f :
  length (HandGesture.landmarks hand) = 21%nat ->
  HandGesture.detectionTick now s ->
  HandGesture.shows (HandGesture.landmarks hand) f ->
  HandGesture.labelOf f <> HandGesture.previousGesture s ->
  exists swipes,
    snd (HandGesture.detectHands now (hand :: others) s)
    = swipes ++ [HandGesture.GestureEvent (HandGesture.labelOf f) now] /\
    (swipes = [] \/ exists d, swipes = [HandGesture.SwipeEvent d now]) /\
    (HandGesture.labelOf f <> HandGesture.open_palm -> swipes = []).
Proof.
  intros wf Htick Hshows Hnew.
  destruct (HandGestureFacts.detectHands_hand s now hand others f wf Htick Hshows)
    as (s1 & swipes & E & Hsame & Hopen & Hother).
  exists swipes. rewrite E.
  assert (Hprev : HandGesture.previousGesture s1 = HandGesture.previousGesture s)
    by apply Hsame.
  split.
  - unfold HandGesture.updateCurrentGesture.
    cbn [HandGesture.currentGesture HandGesture.previousGesture
         HandGesture.set_currentGesture].
    rewrite Hprev.
    destruct (HandGesture.gesture_eqb (HandGesture.labelOf f)
                (HandGesture.previousGesture s)) eqn:Eg.
    + apply HandGestureFacts.gesture_eqb_eq in Eg. contradiction.
    + reflexivity.
  - split; [| intros Hne; apply (Hother Hne)].
    destruct (HandGesture.gesture_eqb (HandGesture.labelOf f) HandGesture.open_palm)
      eqn:Eg.
    + apply HandGestureFacts.gesture_eqb_eq in Eg.
      destruct (HandGestureFacts.detectPalmSwipe_cases
                  (HandGesture.landmarks hand) now s wf)
        as (sp & evp & Ep & _ & Hcases).
      rewrite (Hopen Eg) in Ep. injection Ep as <- <-.
      destruct Hcases as [(_ & _ & _ & -> & _) | (_ & -> & _)]; eauto.
    + left. apply Hother. intros H. rewrite H in Eg. discriminate.
Qed.

(** X22. The gestures drive the phases.  When the detector sees a hand change
    to an open palm while the tree stands, the events it dispatches start the
    bloom; when it sees a hand change to a fist in the nebula, they start the
    collapse. *)
Theorem gesture_starts_transition :
  forall (w : World) (s : HandGesture.state) (now : Z)
         (hand : HandGesture.prediction) (others : list HandGesture.prediction)
         (f : HandGesture.fingers),
    length (HandGesture.landmarks hand) = 21%nat ->
    HandGesture.detectionTick now s ->
    HandGesture.shows (HandGesture.landmarks hand) f ->
    HandGesture.labelOf f <> HandGesture.previousGesture s ->
    let w' := dispatchAll (snd (HandGesture.detectHands now (hand :: others) s)) w in
    (HandGesture.labelOf f = HandGesture.open_palm -> phase (store w) = tree ->
     w' = triggerBlooming w /\ phase (store w') = blooming) /\
    (HandGesture.labelOf f = HandGesture.fist -> phase (store w) = nebula ->
     w' = triggerCollapsing w /\ phase (store w') = collapsing).
Proof.
  intros w s now hand others f wf Htick Hshows Hnew w'.
  destruct (detectHands_announces s now hand others f wf Htick Hshows Hnew)
    as (swipes & E & Hsw & Hother).
  subst w'. rewrite E. unfold dispatchAll. rewrite fold_left_app.
  cbn [fold_left dispatchEvent].
  split.
  - intros Hlabel Hphase. rewrite Hlabel. cbn [handleGesture].
    assert (Hskip : fold_left (fun w' e => dispatchEvent e w') swipes w = w).
    { destruct Hsw as [-> | (d & ->)]; [reflexivity |].
      cbn [fold_left dispatchEvent]. apply handleSwipe_other.
      rewrite Hphase. discriminate. }
    rewrite Hskip. split; [reflexivity |].
    rewrite (triggerBlooming_tree w Hphase). reflexivity.
  - intros Hlabel Hphase. rewrite Hlabel. cbn [handleGesture].
    rewrite Hother by (rewrite Hlabel; discriminate).
    cbn [fold_left]. split; [reflexivity |].
    rewrite (triggerCollapsing_nebula w Hphase). reflexivity.
Qed.

Lemma gesture_starts_bloom :
  let w' := dispatchAll
              (snd (HandGesture.detectHands 1000 [HandGesture.openPalmAt 100]
                      HandGesture.started)) sampleWorld in
  w' = triggerBlooming sampleWorld /\ phase (store w') = blooming.
Proof.
  destruct (gesture_starts_transition sampleWorld HandGesture.started 1000
              (HandGesture.openPalmAt 100) []
              (HandGesture.mkFingers true true true true true)) as (Hbloom & _).
  - reflexivity.
  - apply HandGestureFacts.detectionTick_started. lia.
  - apply HandGestureFacts.openPalmAt_shows.
  - discriminate.
  - apply Hbloom; reflexivity.
Defined.

(** ** Swipes *)

Lemma rotate_tick d t w :
  invariant w -> phase (store w) = nebula -> (clock w + 800 <= t)%Z ->
  let w' := gsapTick t (rotateCarousel d w) in
  invariant w' /\ phase (store w') = nebula /\
  photoRotationY (scene w') = carouselRotation (store w) + d * (PI * 2 / PHOTO_COUNT) /\
  carouselRotation (store w') = carouselRotation (store w) + d * (PI * 2 / PHOTO_COUNT) /\
  (clock w <= clock w')%Z.
Proof.
  intros Hinv Ep Ht w'.
  set (w1 := rotateCarousel d w) in *.
  assert (Hinv1 : invariant w1) by now apply invariant_rotateCarousel.
  assert (E1 := rotateCarousel_nebula d w Ep). fold w1 in E1.
  destruct (gsapTick_carousel t w1
              (mkTween (Carousel (carouselRotation (store w) + d * (PI * 2 / PHOTO_COUNT)))
                       (clock w) None)
              (carouselRotation (store w) + d * (PI * 2 / PHOTO_COUNT)) Hinv1)
    as (P & Ph & Cr & St).
  { rewrite E1. fields. rewrite lastWriter_last. reflexivity. }
  { reflexivity. }
  { rewrite E1. fields. cbn [startTime]. lia. }
  subst w'. split; [now apply invariant_gsapTick |].
  split; [rewrite P, E1; fields; exact Ep |].
  split; [exact Ph |]. split; [exact Cr |].
  rewrite gsapTick_unfold. fields. rewrite E1. fields. lia.
Qed.

(** X23. In the nebula a swipe to the left and a swipe to the right undo each
    other: once each rotation has run its 0.8 s, the photo ring and the
    stored [carouselRotation] are back where they were, one step of
    2 pi / 24 to the left in between. *)
Theorem swipe_left_then_right :
  forall (w : World) (t1 t2 : Z),
    reachable w -> phase (store w) = nebula ->
    (clock w + 800 <= t1)%Z ->
    let w1 := gsapTick t1 (handleSwipe HandGesture.swipe_left w) in
    (clock w1 + 800 <= t2)%Z ->
    let w2 := gsapTick t2 (handleSwipe HandGesture.swipe_right w1) in
    carouselRotation (store w1) = carouselRotation (store w) - 2 * PI / 24 /\
    photoRotationY (scene w1) = carouselRotation (store w) - 2 * PI / 24 /\
    carouselRotation (store w2) = carouselRotation (store w) /\
    photoRotationY (scene w2) = carouselRotation (store w).
Proof.
  intros w t1 t2 Hreach Ep Ht1.
  assert (Hinv : invariant w) by now apply reachable_invariant.
  assert (E1 : handleSwipe HandGesture.swipe_left w = rotateCarousel (-1) w).
  { unfold handleSwipe. rewrite Ep. reflexivity. }
  rewrite E1. intros w1 Ht2.
  pose proof (rotate_tick (-1) t1 w Hinv Ep Ht1) as H1. cbv zeta in H1. fold w1 in H1.
  destruct H1 as (Hinv1 & Ep1 & Ph1 & Cr1 & _).
  assert (E2 : handleSwipe HandGesture.swipe_right w1 = rotateCarousel 1 w1).
  { unfold handleSwipe. rewrite Ep1. reflexivity. }
  rewrite E2. intros w2.
  pose proof (rotate_tick 1 t2 w1 Hinv1 Ep1 Ht2) as H2. cbv zeta in H2. fold w2 in H2.
  destruct H2 as (_ & _ & Ph2 & Cr2 & _).
  rewrite Ph1, Cr1, Ph2, Cr2, Cr1.
  unfold PHOTO_COUNT. repeat split; field.
Qed.

Lemma swipe_left_then_right_sample :
  let w1 := gsapTick 3300 (handleSwipe HandGesture.swipe_left sampleNebula) in
  let w2 := gsapTick 4100 (handleSwipe HandGesture.swipe_right w1) in
  carouselRotation (store w2) = carouselRotation (store sampleNebula) /\
  photoRotationY (scene w2) = carouselRotation (store sampleNebula).
Proof.
  intros w1 w2.
  assert (Hc : clock sampleNebula = 2500%Z) by reflexivity.
  assert (Ep : phase (store sampleNebula) = nebula) by reflexivity.
  assert (H1 : (clock sampleNebula + 800 <= 3300)%Z) by (rewrite Hc; lia).
  assert (Hc1 : clock w1 = 3300%Z).
  { subst w1. rewrite gsapTick_unfold. fields.
    unfold handleSwipe. rewrite Ep. cbn [phase_eqb].
    rewrite (rotateCarousel_nebula _ _ Ep). fields. rewrite Hc. reflexivity. }
  assert (H2 : (clock w1 + 800 <= 4100)%Z) by (rewrite Hc1; lia).
  destruct (swipe_left_then_right sampleNebula 3300 4100 sampleNebula_reachable Ep H1 H2)
    as (_ & _ & Hr & Hp).
  split; [exact Hr | exact Hp].
Defined.


(** ** The hidden envelope *)

(** The last characters of a string that ends in a short one. *)
Lemma sliceLast_app n (s k : jsString) :
  (length k <= n)%nat -> sliceLast n (s ++ k) = sliceLast (n - length k) s ++ k.
Proof.
  intros Hk. unfold sliceLast. rewrite length_app, skipn_app.
  replace (length s + length k - n - length s)%nat with 0%nat by lia.
  replace (length s + length k - n)%nat with (length s - (n - length k))%nat by lia.
  reflexivity.
Qed.

(** The sequence the listener keeps after a key that is no [c]. *)
Lemma kept_sequence (seq1 : jsString) :
  (if (length SECRET_SEQUENCE <? length seq1)%nat
   then sliceLast (length SECRET_SEQUENCE) seq1 else seq1)
  = sliceLast 3 seq1.
Proof.
  change (length SECRET_SEQUENCE) with 3%nat.
  destruct (Nat.ltb_spec 3 (length seq1)) as [_ | Hle]; [reflexivity |].
  unfold sliceLast. replace (length seq1 - 3)%nat with 0%nat by lia. reflexivity.
Qed.

Lemma onSequenceKey_c key seq :
  toLowerCase key = str "c" -> onSequenceKey key seq = (seq, [HideEnvelope]).
Proof. intros E. unfold onSequenceKey. rewrite E. reflexivity. Qed.

Lemma typeKeys_app keys1 keys2 seq :
  typeKeys (keys1 ++ keys2) seq
  = (fst (typeKeys keys2 (fst (typeKeys keys1 seq))),
     snd (typeKeys keys1 seq) ++ snd (typeKeys keys2 (fst (typeKeys keys1 seq)))).
Proof.
  revert seq. induction keys1 as [| k keys1 IH]; intros seq; cbn [app typeKeys].
  - cbn [fst snd app]. now destruct (typeKeys keys2 seq).
  - destruct (onSequenceKey k seq) as [seq1 calls1]. rewrite IH.
    destruct (typeKeys keys1 seq1) as [seq2 calls2]. cbn [fst snd].
    now rewrite app_assoc.
Qed.

Lemma typeKeys_cs cs seq :
  Forall (fun k => toLowerCase k = str "c") cs ->
  typeKeys cs seq = (seq, repeat HideEnvelope (length cs)).
Proof.
  induction 1 as [| k cs Hk _ IH]; cbn [typeKeys]; [reflexivity |].
  rewrite (onSequenceKey_c k seq Hk), IH. reflexivity.
Qed.

(** A key that is a lower-case letter other than the last of the secret is
    taken into the sequence, and nothing is called. *)
Lemma onSequenceKey_letter key (c : Ascii.ascii) seq :
  toLowerCase key = [c] -> c <> "c"%char -> c <> "h"%char ->
  onSequenceKey key seq = (sliceLast 2 seq ++ [c], []).
Proof.
  intros E Hc Hh. unfold onSequenceKey. rewrite E.
  rewrite streq_neq by (intros H; injection H as H; contradiction).
  cbv zeta. rewrite kept_sequence, sliceLast_app by (cbn; lia).
  cbn [length Nat.sub].
  rewrite streq_neq; [reflexivity |].
  intros H. change SECRET_SEQUENCE with (["x"; "s"]%char ++ ["h"%char]) in H.
  apply app_inj_tail in H. destruct H as [_ H]. contradiction.
Qed.

(** X24. The hidden envelope opens on the keys x, s, h pressed in this order,
    in either case, whatever was typed before; the key c pressed in between
    hides the envelope and does not break the sequence.  After the envelope
    is shown the sequence starts afresh. *)
Theorem secret_sequence_shows_envelope :
  forall (typed k1 k2 k3 : jsString) (cs1 cs2 : list jsString),
    toLowerCase k1 = str "x" -> toLowerCase k2 = str "s" -> toLowerCase k3 = str "h" ->
    Forall (fun k => toLowerCase k = str "c") cs1 ->
    Forall (fun k => toLowerCase k = str "c") cs2 ->
    typeKeys ([k1] ++ cs1 ++ [k2] ++ cs2 ++ [k3]) typed
    = ([], repeat HideEnvelope (length cs1) ++ repeat HideEnvelope (length cs2)
           ++ [ShowEnvelope]).
Proof.
  intros typed k1 k2 k3 cs1 cs2 E1 E2 E3 Hc1 Hc2.
  rewrite !typeKeys_app.
  cbn [typeKeys].
  rewrite (onSequenceKey_letter k1 "x"%char typed E1) by discriminate.
  cbn [fst snd app]. rewrite (typeKeys_cs cs1 _ Hc1). cbn [fst snd].
  rewrite (onSequenceKey_letter k2 "s"%char _ E2) by discriminate.
  cbn [fst snd app]. rewrite (typeKeys_cs cs2 _ Hc2). cbn [fst snd].
  assert (Hshow : onSequenceKey k3 (sliceLast 2 (sliceLast 2 typed ++ ["x"%char])
                                      ++ ["s"%char])
                  = ([], [ShowEnvelope])).
  { unfold onSequenceKey. rewrite E3. cbn [streq]. cbv zeta.
    rewrite streq_neq by discriminate.
    rewrite kept_sequence.
    rewrite (sliceLast_app 2 (sliceLast 2 typed) ["x"%char]) by (cbn; lia).
    rewrite <- !app_assoc. cbn [app length Nat.sub].
    change ("x"%char :: "s"%char :: str "h") with (str "xsh").
    rewrite (sliceLast_app 3 (sliceLast 1 (sliceLast 2 typed)) (str "xsh"))
      by (cbn; lia).
    cbn [str String.list_ascii_of_string length Nat.sub].
    unfold sliceLast at 1. rewrite Nat.sub_0_r, skipn_all. cbn [app].
    rewrite (proj2 (streq_eq _ _)) by reflexivity. reflexivity. }
  rewrite Hshow. cbn [fst snd]. now rewrite !app_nil_r.
Qed.

Lemma secret_sequence_typed :
  typeKeys ([str "X"] ++ [str "c"] ++ [str "s"] ++ [] ++ [str "H"]) (str "hello")
  = ([], repeat HideEnvelope 1 ++ repeat HideEnvelope 0 ++ [ShowEnvelope]).
Proof.
  apply (secret_sequence_shows_envelope (str "hello") (str "X") (str "s") (str "H")
           [str "c"] []); try reflexivity.
  - constructor; [reflexivity | constructor].
  - constructor.
Defined.

(** ** The wheel *)

Lemma vlength_sq (v : Vector3) :
  vlength v * vlength v = vx v * vx v + vy v * vy v + vz v * vz v.
Proof. unfold vlength. apply sqrt_sqrt. apply DistributionsFacts.sum_sq_nonneg. Qed.

Lemma cameraDistance_vlength rig :
  cameraDistance rig = vlength (vsub (cameraPosition rig) (cameraTarget rig)).
Proof. reflexivity. Qed.

Lemma zoom_bounds (x : R) : 5 <= Rmax 5 (Rmin 30 x) <= 30.
Proof.
  split; [apply Rmax_l |].
  apply Rmax_lub; [lra | apply Rmin_l].
Qed.

(** Scaling the unit vector of a direction puts the end that far away. *)
Lemma vlength_scaled_unit (v : Vector3) (d : R) :
  vlength v <> 0 -> vlength (vscale d (normalize v)) = Rabs d.
Proof.
  intros Hv. unfold normalize.
  destruct (Req_dec_T (vlength v) 0) as [E | _]; [contradiction |].
  unfold vlength at 1, vscale. cbn [vx vy vz].
  replace (vx v * (1 / vlength v) * d * (vx v * (1 / vlength v) * d)
           + vy v * (1 / vlength v) * d * (vy v * (1 / vlength v) * d)
           + vz v * (1 / vlength v) * d * (vz v * (1 / vlength v) * d))
    with ((vx v * vx v + vy v * vy v + vz v * vz v)
          * (d * d / (vlength v * vlength v))) by (field; exact Hv).
  rewrite <- vlength_sq.
  replace (vlength v * vlength v * (d * d / (vlength v * vlength v))) with (d * d)
    by (field; exact Hv).
  apply DistributionsFacts.sqrt_sum_sq_abs.
Qed.

Lemma onWheel_distance deltaY rig :
  cameraDistance rig <> 0 ->
  cameraDistance (onWheel deltaY rig)
  = Rmax 5 (Rmin 30 (cameraDistance rig
                     + (if Rlt_dec 0 deltaY then 1 / 10 else - (1 / 10)))).
Proof.
  intros Hd. rewrite cameraDistance_vlength in Hd.
  rewrite cameraDistance_vlength at 1. unfold onWheel. cbv zeta.
  cbn [cameraPosition cameraTarget].
  set (v := vsub (cameraPosition rig) (cameraTarget rig)) in *.
  set (d := Rmax 5 (Rmin 30 _)).
  assert (Hpos : 0 <= d) by (pose proof (zoom_bounds
    (vlength v + (if Rlt_dec 0 deltaY then 1 / 10 else - (1 / 10)))); unfold d; lra).
  rewrite <- (Rabs_right d) at 2 by (apply Rle_ge; exact Hpos).
  rewrite <- (vlength_scaled_unit v d Hd).
  unfold vlength, vsub, vadd. cbn [vx vy vz]. f_equal. ring.
Qed.

Lemma wheel_bounds deltas : forall rig,
  5 <= cameraDistance rig <= 30 ->
  5 <= cameraDistance (wheel deltas rig) <= 30 /\
  cameraTarget (wheel deltas rig) = cameraTarget rig.
Proof.
  induction deltas as [| deltaY rest IH]; intros rig Hb; cbn [wheel fold_left].
  - split; [exact Hb | reflexivity].
  - fold (wheel rest (onWheel deltaY rig)).
    assert (H1 : 5 <= cameraDistance (onWheel deltaY rig) <= 30).
    { rewrite onWheel_distance by lra. apply zoom_bounds. }
    destruct (IH _ H1) as (Hb' & Ht). split; [exact Hb' | rewrite Ht; reflexivity].
Qed.

(** X25. The wheel zooms between 5 and 30: one turn moves the camera a tenth
    towards or away from its target along the line of sight and clamps the
    distance to the interval from 5 to 30, the target stays where it is, and
    the distance stays in the interval however the wheel is turned on.  A
    camera that sits on its target stays on it. *)
Theorem onWheel_zoom_clamped :
  forall (deltaY : R) (deltas : list R) (rig : Rig),
    (cameraPosition rig <> cameraTarget rig ->
     cameraDistance (onWheel deltaY rig)
     = Rmax 5 (Rmin 30 (cameraDistance rig
                        + (if Rlt_dec 0 deltaY then 1 / 10 else - (1 / 10)))) /\
     5 <= cameraDistance (wheel (deltaY :: deltas) rig) <= 30 /\
     cameraTarget (wheel (deltaY :: deltas) rig) = cameraTarget rig) /\
    (cameraPosition rig = cameraTarget rig -> onWheel deltaY rig = rig).
Proof.
  intros deltaY deltas rig. split.
  - intros Hne.
    assert (Hd : cameraDistance rig <> 0).
    { intros E. apply Hne. unfold cameraDistance, distance in E.
      apply DistributionsFacts.calculateDistance_zero in E.
      destruct E as (Ex & Ey & Ez).
      destruct (cameraPosition rig), (cameraTarget rig). cbn in *. congruence. }
    split; [apply onWheel_distance; exact Hd |].
    cbn [wheel fold_left]. fold (wheel deltas (onWheel deltaY rig)).
    destruct (wheel_bounds deltas (onWheel deltaY rig)) as (Hb & Ht).
    { rewrite onWheel_distance by exact Hd. apply zoom_bounds. }
    split; [exact Hb | rewrite Ht; reflexivity].
  - intros E. destruct rig as [p t]. cbn [cameraPosition cameraTarget] in E. subst p.
    unfold onWheel. cbv zeta. cbn [cameraPosition cameraTarget]. f_equal.
    unfold normalize, vsub, vadd, vscale, vlength. cbn [vx vy vz].
    destruct t as [x y z]. cbn [vx vy vz]. f_equal; ring.
Qed.


(** ** The click on a photo *)

(** X26. A click on a photo in the nebula focuses the frame of that photo,
    whether the ray hits the frame or the picture in it, except for the first
    photo: its frame carries the index 0, which the search for the frame
    takes for no index at all, so the search runs past it to the root and the
    click does nothing.  Outside the nebula no click focuses anything. *)
Theorem onClick_misses_first_photo :
  forall (w : World) (i : nat) (behind : list Object3D),
    (phase (store w) = nebula ->
     onClick (photoObject i :: behind) w
     = (if Nat.eqb i 0 then None else Some (frameObject i)) /\
     onClick (frameObject i :: behind) w
     = (if Nat.eqb i 0 then None else Some (frameObject i))) /\
    (phase (store w) <> nebula -> forall intersects, onClick intersects w = None).
Proof.
  intros w i behind. split.
  - intros Ep. unfold onClick. rewrite Ep. cbn [phase_eqb negb].
    destruct i as [| i]; split; reflexivity.
  - intros Hne intersects. unfold onClick.
    destruct (phase_eqb (phase (store w)) nebula) eqn:E; [| reflexivity].
    apply phase_eqb_eq in E. contradiction.
Qed.

(** A frame on the ring is 12 away from the axis, so it is not at the
    origin. *)
Lemma frameObject_off_origin i : vlength (position_of (frameObject i)) <> 0.
Proof.
  intros E.
  pose proof (vlength_sq (position_of (frameObject i))) as Hsq.
  rewrite E in Hsq. unfold frameObject, position_of in Hsq.
  unfold Distributions.photoRingPosition in Hsq. cbv zeta in Hsq.
  cbn [Distributions.position vx vy vz] in Hsq.
  pose proof (DistributionsFacts.polar_norm (INR i / PHOTO_COUNT * PI * 2) 12) as Hn.
  pose proof (Rle_0_sqr (25 / 10 + sin (INR i / PHOTO_COUNT * PI * 2 * 3) * (5 / 10)))
    as Hy.
  unfold Rsqr in Hy. lra.
Qed.


End ControlsFacts.
